(** * InverseMod: the multiplier/remainder search for modular inverses

    A shallow embedding of the three JavaScript variants of Cody Weber's
    InverseMod algorithm that the repository ships,

    - [Fixed]      : [inverseModFixed.js]               (baseline, no backtracking),
    - [Backtrack]  : [gpt5-analysis/code/inverseModBacktrack.gpt5.js]
                                                        (local tweaks, parity backtrack),
    - [Humanized]  : [humanized/modularInverse.js]      (bounded depth-first search),

    followed by the properties of the specification that concern them.

    Numbers.  Every value the algorithms handle is an integer-valued
    JavaScript Number, embedded as a [Z].  The inputs are positive safe
    integers.  For a base and a modulus below 2^52 the sums, differences,
    remainders and floored quotients that the code forms are exact: a sum
    stays below 2^53, [%] is exact in IEEE-754 (it is [Z.rem], the sign
    follows the dividend), and the correctly rounded quotient of two safe
    integers has the floor of the exact quotient.  They are embedded as the
    operations of [Z].  Products are different: the code multiplies without
    reducing ([z *= valueK]), or multiplies two values of the size of the
    modulus ([inverse * multiplier]), so a product leaves the exact range
    for inputs well inside that domain.  Every [*] of the source is
    therefore embedded as [Num.mul], the exact product rounded to the 53-bit
    significand of a binary64 (round to nearest, ties to even).  Theorems
    that depend on a product being exact say up to which modulus it is.

    Domain.  Above 2^53 a sum or an increment of the source is rounded too
    ([k++] no longer counts), a product above 2^1024 is [Infinity], and
    [parseInt] reads an integer from 10^21 on through its exponent
    notation.  None of this is embedded: the theorems bound the modulus by
    2^52 (and what else they need) wherever their statement depends on it,
    and those that give the value of an unreduced product bound the
    product.

    Loops.  A [while] loop or a recursion of the source becomes a [Fixpoint]
    on a [fuel] argument and returns [None] when the fuel runs out; [None]
    is also the result of reading an array slot that does not exist where
    the source would go on with [undefined].  The theorems show that
    neither happens: with enough fuel the functions return [Some] result. *)

From Stdlib Require Import ZArith List Bool Lia Znumtheory.
Import ListNotations.

Local Open Scope Z_scope.

(** ** Option monad for fuel-bounded loops *)

Definition bind {A B : Type} (m : option A) (f : A -> option B) : option B :=
  match m with
  | Some a => f a
  | None => None
  end.

Notation "x <- m ;; k" := (bind m (fun x => k))
  (at level 61, m at next level, right associativity).

(** ** Arrays: [a[i]] and [a.length] with Number indices *)

Definition len (a : list Z) : Z := Z.of_nat (length a).

Definition get (a : list Z) (i : Z) : option Z :=
  if i <? 0 then None else nth_error a (Z.to_nat i).

(** [a[i] = v] on an existing slot. *)
Fixpoint set_nth (a : list Z) (i : nat) (v : Z) : list Z :=
  match a, i with
  | [], _ => []
  | _ :: t, O => v :: t
  | h :: t, S i => h :: set_nth t i v
  end.

(** [a.slice(0, n)] *)
Definition slice0 (a : list Z) (n : Z) : list Z := firstn (Z.to_nat n) a.

(** ** Integer-valued Numbers *)

Module Num.

(** Rounding of an integer to the nearest binary64: integers up to 2^53
    are representable; above, the significand keeps 53 bits and the
    discarded [e] low bits are rounded to nearest, ties to even. *)
Definition round53 (n : Z) : Z :=
  if n <=? 2 ^ 53 then n
  else
    let e := Z.log2 n - 52 in
    let q := Z.shiftr n e in
    let low := Z.land n (Z.ones e) in
    let half := 2 ^ (e - 1) in
    let m := if low <? half then q
             else if half <? low then q + 1
             else if Z.even q then q else q + 1 in
    Z.shiftl m e.

Definition fl53 (n : Z) : Z :=
  if n <? 0 then - round53 (- n) else round53 n.

(** [a * b] *)
Definition mul (a b : Z) : Z := fl53 (a * b).

(** [a % b], for [b <> 0] *)
Definition rem (a b : Z) : Z := Z.rem a b.

(** [Math.floor(a / b)], for [b <> 0] *)
Definition floorDiv (a b : Z) : Z := a / b.

End Num.

(** ** The step-by-step report

    [inverseModFull] returns its trace as text.  The embedding keeps one
    constructor per template of the source, holding the interpolated
    values, so that what the text reports can be stated without parsing. *)

Inductive line : Type :=
| Calculating (x y : Z)
    (* Calculating the inverse of x mod y... *)
| XIsZero
    (* Error: x cannot be zero. *)
| YIsZero
    (* Error: y cannot be zero. *)
| NotCoprime (x y g : Z)
    (* x and y are not coprime (GCD = g), no inverse exists *)
| MultipleOf (x y : Z)
    (* x is a multiple of y, no inverse exists *)
| Step (i y prevR k newR : Z)
    (* Step i: y < (prevR * k) < (y + prevR), ((prevR * k) % y) = newR *)
| ReachedZero
    (* Algorithm terminated: reached remainder 0, no inverse found *)
| NotDecreasing
    (* Algorithm terminated: remainder not decreasing, may not converge *)
| AdjustedLocally (k newR : Z)
    (* Adjusted k locally to k to avoid trap; new remainder = newR *)
| BacktrackParity (count idx1 kidx : Z)
    (* Backtrack count: incremented k[idx1] to kidx and recalculated. *)
| BacktrackGcd (count idx1 kidx : Z)
    (* Backtrack count (gcd-based): incremented k[idx1] to kidx and recalculated. *)
| Product (z : Z)
    (* (k[1] * k[2] * ... * k[n]) mod y = z *)
| FailedToFind (lastR : option Z)
    (* Algorithm failed to find inverse: final remainder = lastR *)
| CorrectInverse (inv : Z)
    (* Note: Correct inverse (extended Euclidean) = inv *)
| FinalValues (x y : Z) (k r : list Z) (z : Z)
    (* Final Values: x = .. y = .. k[] = [..] r[] = [..] z = .. *)
| Validation (z x y : Z) (holds : bool).
    (* Validation step: ((z * x) mod y) == 1 is holds *)

(** ** inverseModFixed.js *)

Module Fixed.

(** [gcd(a, b)]: [while (b !== 0) { temp = b; b = a % b; a = temp }]. *)
Fixpoint gcd (fuel : nat) (a b : Z) : option Z :=
  match fuel with
  | O => None
  | S fuel =>
      if b =? 0 then Some a
      else gcd fuel b (Num.rem a b)
  end.

Record special : Type := { isSpecialCase : bool; message : list line }.

Definition checkSpecialCases (fuel : nat) (x y : Z) : option special :=
  let message :=
    (if x =? 0 then [XIsZero] else []) ++ (if y =? 0 then [YIsZero] else []) in
  if (x =? 0) || (y =? 0) then
    Some {| isSpecialCase := true; message := message |}
  else
    g <- gcd fuel x y ;;
    if negb (g =? 1) then
      g' <- gcd fuel x y ;;
      Some {| isSpecialCase := true; message := [NotCoprime x y g'] |}
    else
      Some {| isSpecialCase := false; message := [] |}.

Record outcome : Type := { result : list line; z : Z }.

(** The local variables of [inverseModFull] that the loop updates. *)
Record state : Type := { k : list Z; r : list Z; n : Z; log : list line }.

Definition maxIterations : Z := 100.

(** [while (r[n - 1] > 1 && n < maxIterations) { ... }].
    [undefined > 1] is false, so a missing slot ends the loop. *)
Fixpoint loop (fuel : nat) (y : Z) (st : state) : option state :=
  match fuel with
  | O => None
  | S fuel =>
      match get (r st) (n st - 1) with
      | None => Some st
      | Some prevR =>
          if (1 <? prevR) && (n st <? maxIterations) then
            let k' :=
              if Num.rem y prevR =? 0
              then k st ++ [Num.floorDiv y prevR]
              else k st ++ [Num.floorDiv y prevR + 1] in
            kn <- get k' (n st) ;;
            let newR := Num.rem (Num.mul prevR kn) y in
            let r' := r st ++ [newR] in
            let log' := log st ++ [Step (n st + 1) y prevR kn newR] in
            if newR =? 0 then
              Some {| k := k'; r := r'; n := n st; log := log' ++ [ReachedZero] |}
            else if prevR <=? newR then
              Some {| k := k'; r := r'; n := n st; log := log' ++ [NotDecreasing] |}
            else
              loop fuel y {| k := k'; r := r'; n := n st + 1; log := log' |}
          else Some st
      end
  end.

(** [z = 1; for (const valueK of k) z *= valueK; z = z % y].  Each product
    is rounded; a product that leaves the range of a Number altogether
    (above 2^1024, where the source has [Infinity] and [z] is [NaN]) is not
    told apart. *)
Definition productMod (k : list Z) (y : Z) : Z :=
  Num.rem (fold_left (fun z valueK => Num.mul z valueK) k 1) y.

(** [inverseModFull(x, y)], for [y] up to 2^52, where [floor (y / r) + 1]
    is exact. *)
Definition inverseModFull (fuel : nat) (x y : Z) : option outcome :=
  let result := [Calculating x y] in
  specialCase <- checkSpecialCases fuel x y ;;
  if isSpecialCase specialCase then
    Some {| result := result ++ message specialCase; z := 0 |}
  else
    let currentX := Num.rem x y in
    if currentX =? 0 then
      Some {| result := result ++ [MultipleOf x y]; z := 0 |}
    else
      let k1 := Num.floorDiv y currentX + 1 in
      let k := [k1] in
      k0 <- get k 0 ;;
      let r := [Num.rem (Num.mul currentX k0) y] in
      r0 <- get r 0 ;;
      let result := result ++ [Step 1 y currentX k0 r0] in
      st <- loop fuel y {| k := k; r := r; n := 1; log := result |} ;;
      let last := get (Fixed.r st) (len (Fixed.r st) - 1) in
      let z := match last with
               | Some 1 => productMod (Fixed.k st) y
               | _ => 0
               end in
      let result := match last with
                    | Some 1 => log st ++ [Product z]
                    | _ => log st ++ [FailedToFind last]
                    end in
      Some {| result := result
                ++ [FinalValues x y (Fixed.k st) (Fixed.r st) z;
                    Validation z x y (Num.rem (Num.mul z x) y =? 1)];
              z := z |}.

(** [inverseMod(x, y)]: only the answer. *)
Definition inverseMod (fuel : nat) (x y : Z) : option Z :=
  res <- inverseModFull fuel x y ;;
  Some (z res).

(** [inverseModSteps(x, y)]: only the report. *)
Definition inverseModSteps (fuel : nat) (x y : Z) : option (list line) :=
  res <- inverseModFull fuel x y ;;
  Some (result res).

(** [isPositiveInteger(value)].  The argument is an integer Number below
    10^21, which [parseInt] gives back unchanged (from 10^21 on [parseInt]
    reads the leading digits of the exponent notation), so of
    [!isNaN(num) && num > 0 && Number.isInteger(num)] the middle test
    remains. *)
Definition isPositiveInteger (value : Z) : bool := 0 <? value.

(** The [result] text of [runInverseMod]. *)
Inductive runText : Type :=
| NotPositiveIntegers
    (* Error: x and y must be positive integers *)
| Steps (report : list line)
    (* the report of inverseModFull *)
| InverseOf (x y z : Z).
    (* Inverse of x mod y = z *)

(** The object [{ success, result, z }] of [runInverseMod]. *)
Record run : Type := { runSuccess : bool; runResult : runText; runZ : Z }.

(** [runInverseMod(xInput, yInput, showSteps)] on integer Numbers below
    10^21, for which [parseInt(xInput)] is [xInput]. *)
Definition runInverseMod (fuel : nat) (xInput yInput : Z) (showSteps : bool)
    : option run :=
  if negb (isPositiveInteger xInput) || negb (isPositiveInteger yInput) then
    Some {| runSuccess := false; runResult := NotPositiveIntegers; runZ := 0 |}
  else
    let x := xInput in
    let y := yInput in
    if showSteps then
      res <- inverseModFull fuel x y ;;
      Some {| runSuccess := true; runResult := Steps (result res); runZ := z res |}
    else
      z <- inverseMod fuel x y ;;
      Some {| runSuccess := true; runResult := InverseOf x y z; runZ := z |}.

End Fixed.

(** ** gpt5-analysis/code/inverseModBacktrack.gpt5.js *)

Module Backtrack.

(** [gcd] and [checkSpecialCases] have the text of [inverseModFixed.js]. *)
Definition gcd : nat -> Z -> Z -> option Z := Fixed.gcd.

Definition checkSpecialCases : nat -> Z -> Z -> option Fixed.special :=
  Fixed.checkSpecialCases.

Record egcd : Type := { coefX : Z; coefY : Z; gcdOf : Z }.

(** [extendedGcd(a, b)], recursive in the source. *)
Fixpoint extendedGcd (fuel : nat) (a b : Z) : option egcd :=
  match fuel with
  | O => None
  | S fuel =>
      if b =? 0 then Some {| coefX := 1; coefY := 0; gcdOf := a |}
      else
        result <- extendedGcd fuel b (Num.rem a b) ;;
        Some {| coefX := coefY result;
                coefY := coefX result - Num.mul (Num.floorDiv a b) (coefY result);
                gcdOf := gcdOf result |}
  end.

(** [normalizeKForBounds(rValue, y, initialK)]:
    [while (k * rValue <= y) k++].  The increment is [k + 1], which is what
    [k++] gives for [k] between -2^53 and 2^53. *)
Fixpoint normalizeKForBounds (fuel : nat) (rValue y k : Z) : option Z :=
  match fuel with
  | O => None
  | S fuel =>
      if Num.mul k rValue <=? y
      then normalizeKForBounds fuel rValue y (k + 1)
      else Some k
  end.

Definition computeNextK (fuel : nat) (rValue y : Z) : option Z :=
  let k := Num.floorDiv y rValue + 1 in
  normalizeKForBounds fuel rValue y k.

(** What [recalcRemaindersWithGivenK] hands back: its three fields and the
    array [kList] it was given, which it overwrites slot by slot
    ([kList[i] = k]) and which the caller reads afterwards. *)
Record recalc : Type :=
  { rOf : list Z; resultLogAppend : list line; failedAtZero : bool;
    kListOf : list Z }.

(** The [for] loop of [recalcRemaindersWithGivenK] at index [i]: [prev] is
    [i === 0 ? current : r[i - 1]], [kDone] the slots below [i] (already
    overwritten) and [kRest] the slots from [i] on. *)
Fixpoint recalcFrom (fuel : nat) (y i prev : Z) (kDone kRest r : list Z)
    (log : list line) : option recalc :=
  match kRest with
  | [] =>
      Some {| rOf := r; resultLogAppend := log; failedAtZero := false;
              kListOf := kDone |}
  | ki :: kRest =>
      k <- normalizeKForBounds fuel prev y ki ;;
      let newR := Num.rem (Num.mul prev k) y in
      let r := r ++ [newR] in
      let log := log ++ [Step (i + 1) y prev k newR] in
      if newR =? 0 then
        Some {| rOf := r; resultLogAppend := log; failedAtZero := true;
                kListOf := kDone ++ k :: kRest |}
      else recalcFrom fuel y (i + 1) newR (kDone ++ [k]) kRest r log
  end.

Definition recalcRemaindersWithGivenK (fuel : nat) (x y : Z) (kList : list Z)
    : option recalc :=
  let current := Num.rem x y in
  if current =? 0 then
    Some {| rOf := [0]; resultLogAppend := []; failedAtZero := true;
            kListOf := kList |}
  else recalcFrom fuel y 0 current [] kList [] [].

(** [findEarliestOddKIndex(kList)]: the first [i] with [kList[i] % 2 === 1],
    or [-1]. *)
Fixpoint findFrom (i : Z) (kList : list Z) : Z :=
  match kList with
  | [] => -1
  | ki :: kList => if Num.rem ki 2 =? 1 then i else findFrom (i + 1) kList
  end.

Definition findEarliestOddKIndex (kList : list Z) : Z := findFrom 0 kList.

Definition maxTweak : Z := 5.

(** [tryLocalAdjustK(prevR, y, currentK)]; [None] is the source's [null].
    [tweaks] counts the values of [tweak] still to try.  For [y <> 0], and
    for [currentK] up to 2^52, where the sum [currentK + tweak] is exact. *)
Fixpoint tweakFrom (tweaks : nat) (tweak prevR y currentK : Z) : option (Z * Z) :=
  match tweaks with
  | O => None
  | S tweaks =>
      let candidateK := currentK + tweak in
      let candidateR := Num.rem (Num.mul prevR candidateK) y in
      if negb (candidateR =? 0) && (candidateR <? prevR)
      then Some (candidateK, candidateR)
      else tweakFrom tweaks (tweak + 1) prevR y currentK
  end.

Definition tryLocalAdjustK (prevR y currentK : Z) : option (Z * Z) :=
  tweakFrom (Z.to_nat maxTweak) 1 prevR y currentK.

Record outcome : Type := { result : list line; z : Z }.

Record state : Type :=
  { k : list Z; r : list Z; n : Z; backtrackCount : Z; log : list line }.

(** How one run of the loop body ends: [continue] or falling off the end
    of the body go round again, [break] leaves the loop. *)
Inductive control : Type :=
| Continue (st : state)
| Break (st : state).

Definition maxIterations : Z := 200.
Definition maxBacktracks : Z := 5.

(** Lines 179-189: the multiplier of the fixed rule, locally adjusted when
    it gives a zero or non-decreasing remainder or when [prevR] shares a
    factor with an even [y].  [||] and [&&] evaluate [gcd] only when the
    source does. *)
Definition chooseK (fuel : nat) (prevR y : Z) : option (Z * Z * list line) :=
  kn <- computeNextK fuel prevR y ;;
  let tentativeR := Num.rem (Num.mul prevR kn) y in
  trapped <-
    (if (tentativeR =? 0) || (prevR <=? tentativeR) then Some true
     else g <- gcd fuel prevR y ;; Some ((1 <? g) && (Num.rem y 2 =? 0))) ;;
  if (trapped : bool) then
    match tryLocalAdjustK prevR y kn with
    | Some (adjustedK, adjustedR) =>
        Some (adjustedK, adjustedR, [AdjustedLocally adjustedK adjustedR])
    | None => Some (kn, tentativeR, [])
    end
  else Some (kn, tentativeR, []).

(** Lines 196-220: the parity-aware backtrack.  [None] inside [Some] means
    that the block was not entered or found no odd multiplier, so that the
    body goes on below it. *)
Definition parityBacktrack (fuel : nat) (x y prevR newR : Z) (st : state)
    : option (option control) :=
  if (newR =? 0) && (Num.rem y 2 =? 0) && (Num.rem prevR 2 =? 0)
     && (backtrackCount st <? maxBacktracks) then
    let idx := findEarliestOddKIndex (k st) in
    if 0 <=? idx then
      let backtrackCount := backtrackCount st + 1 in
      kidx <- get (k st) idx ;;
      let k := set_nth (k st) (Z.to_nat idx) (kidx + 2) in
      let kPrefix := slice0 k (idx + 1) in
      rc <- recalcRemaindersWithGivenK fuel x y kPrefix ;;
      kidx' <- get k idx ;;
      let log := log st ++ [BacktrackParity backtrackCount (idx + 1) kidx']
                   ++ resultLogAppend rc in
      if failedAtZero rc then
        Some (Some (Continue {| k := k; r := rOf rc; n := len (rOf rc);
                                backtrackCount := backtrackCount; log := log |}))
      else
        Some (Some (Continue {| k := kListOf rc; r := rOf rc; n := len (rOf rc);
                                backtrackCount := backtrackCount; log := log |}))
    else Some None
  else Some None.

(** Lines 222-240: the gcd-triggered backtrack. *)
Definition gcdBacktrack (fuel : nat) (x y prevR newR : Z) (st : state)
    : option (option control) :=
  enter <-
    (if newR =? 0 then
       g <- gcd fuel prevR y ;;
       Some ((1 <? g) && (backtrackCount st <? maxBacktracks))
     else Some false) ;;
  if (enter : bool) then
    let idx := findEarliestOddKIndex (k st) in
    if 0 <=? idx then
      let backtrackCount := backtrackCount st + 1 in
      kidx <- get (k st) idx ;;
      let k := set_nth (k st) (Z.to_nat idx) (kidx + 2) in
      let kPrefix := slice0 k (idx + 1) in
      rc <- recalcRemaindersWithGivenK fuel x y kPrefix ;;
      kidx' <- get k idx ;;
      let log := log st ++ [BacktrackGcd backtrackCount (idx + 1) kidx']
                   ++ resultLogAppend rc in
      Some (Some (Continue {| k := kListOf rc; r := rOf rc; n := len (rOf rc);
                              backtrackCount := backtrackCount; log := log |}))
    else Some None
  else Some None.

(** The body of the [while] loop, entered with [prevR = r[n - 1]]. *)
Definition loopBody (fuel : nat) (x y prevR : Z) (st : state) : option control :=
  choice <- chooseK fuel prevR y ;;
  let '(kn, tentativeR, adjusted) := choice in
  let newR := tentativeR in
  let st := {| k := k st ++ [kn]; r := r st ++ [newR]; n := n st;
               backtrackCount := backtrackCount st;
               log := log st ++ adjusted ++ [Step (n st + 1) y prevR kn newR] |} in
  parity <- parityBacktrack fuel x y prevR newR st ;;
  match parity with
  | Some c => Some c
  | None =>
      general <- gcdBacktrack fuel x y prevR newR st ;;
      match general with
      | Some c => Some c
      | None =>
          if newR =? 0 then
            Some (Break {| k := k st; r := r st; n := n st;
                           backtrackCount := backtrackCount st;
                           log := log st ++ [ReachedZero] |})
          else if prevR <=? newR then
            Some (Break {| k := k st; r := r st; n := n st;
                           backtrackCount := backtrackCount st;
                           log := log st ++ [NotDecreasing] |})
          else
            Some (Continue {| k := k st; r := r st; n := n st + 1;
                              backtrackCount := backtrackCount st;
                              log := log st |})
      end
  end.

(** [while (r[n - 1] > 1 && n < maxIterations) { ... }]; [inner] is the
    fuel of the loops that the body runs. *)
Fixpoint loop (fuel inner : nat) (x y : Z) (st : state) : option state :=
  match fuel with
  | O => None
  | S fuel =>
      match get (r st) (n st - 1) with
      | None => Some st
      | Some prevR =>
          if (1 <? prevR) && (n st <? maxIterations) then
            c <- loopBody inner x y prevR st ;;
            match c with
            | Continue st => loop fuel inner x y st
            | Break st => Some st
            end
          else Some st
      end
  end.

(** [z = 1; for (const valueK of k) z *= valueK; z = z % y], as in
    [Fixed.productMod]. *)
Definition productMod (k : list Z) (y : Z) : Z :=
  Num.rem (fold_left (fun z valueK => Num.mul z valueK) k 1) y.

(** Lines 254-280: the answer and the closing lines of the report. *)
Definition finish (fuel : nat) (x y : Z) (st : state) : option outcome :=
  let last := get (r st) (len (r st) - 1) in
  report <-
    match last with
    | Some 1 =>
        let z := productMod (k st) y in
        Some (z, log st ++ [Product z])
    | _ =>
        eg <- extendedGcd fuel x y ;;
        let note :=
          if gcdOf eg =? 1 then
            let inv := Num.rem (coefX eg) y in
            [CorrectInverse (if inv <? 0 then inv + y else inv)]
          else [] in
        Some (0, log st ++ [FailedToFind last] ++ note)
    end ;;
  let '(z, result) := report in
  Some {| result := result
            ++ [FinalValues x y (k st) (r st) z;
                Validation z x y (Num.rem (Num.mul z x) y =? 1)];
          z := z |}.

(** [inverseModFull(x, y)], for [y] up to 2^52, where [k1++] and the
    increments of [normalizeKForBounds] are exact. *)
Definition inverseModFull (fuel : nat) (x y : Z) : option outcome :=
  let result := [Calculating x y] in
  special <- checkSpecialCases fuel x y ;;
  if Fixed.isSpecialCase special then
    Some {| result := result ++ Fixed.message special; z := 0 |}
  else
    let xNorm := Num.rem x y in
    if xNorm =? 0 then
      Some {| result := result ++ [MultipleOf x y]; z := 0 |}
    else
      let k1 := Num.floorDiv y xNorm in
      let k1 := if Num.mul k1 xNorm <=? y then k1 + 1 else k1 in
      k1 <- normalizeKForBounds fuel xNorm y k1 ;;
      let newR := Num.rem (Num.mul xNorm k1) y in
      let result := result ++ [Step 1 y xNorm k1 newR] in
      if newR =? 0 then
        Some {| result := result ++ [ReachedZero]; z := 0 |}
      else
        st <- loop fuel fuel x y {| k := [k1]; r := [newR]; n := 1;
                                    backtrackCount := 0; log := result |} ;;
        finish fuel x y st.

Definition inverseMod (fuel : nat) (x y : Z) : option Z :=
  res <- inverseModFull fuel x y ;;
  Some (z res).

Definition inverseModSteps (fuel : nat) (x y : Z) : option (list line) :=
  res <- inverseModFull fuel x y ;;
  Some (result res).

(** [isPositiveInteger] and [runInverseMod] have the text of
    [inverseModFixed.js]. *)
Definition isPositiveInteger : Z -> bool := Fixed.isPositiveInteger.

Definition runInverseMod (fuel : nat) (xInput yInput : Z) (showSteps : bool)
    : option Fixed.run :=
  if negb (isPositiveInteger xInput) || negb (isPositiveInteger yInput) then
    Some {| Fixed.runSuccess := false; Fixed.runResult := Fixed.NotPositiveIntegers;
            Fixed.runZ := 0 |}
  else
    let x := xInput in
    let y := yInput in
    if showSteps then
      res <- inverseModFull fuel x y ;;
      Some {| Fixed.runSuccess := true; Fixed.runResult := Fixed.Steps (result res);
              Fixed.runZ := z res |}
    else
      z <- inverseMod fuel x y ;;
      Some {| Fixed.runSuccess := true; Fixed.runResult := Fixed.InverseOf x y z;
              Fixed.runZ := z |}.

End Backtrack.

(** ** humanized/modularInverse.js *)

Module Humanized.

(** [computeGreatestCommonDivisor(a, b)]: Euclid's loop on [valueA],
    [valueB], started from the absolute values. *)
Fixpoint euclid (fuel : nat) (valueA valueB : Z) : option Z :=
  match fuel with
  | O => None
  | S fuel =>
      if valueB =? 0 then Some valueA
      else
        let remainder := Num.rem valueA valueB in
        euclid fuel valueB remainder
  end.

Definition computeGreatestCommonDivisor (fuel : nat) (a b : Z) : option Z :=
  euclid fuel (Z.abs a) (Z.abs b).

(** [ceilDiv(numerator, denominator)], for a sum
    [numerator + denominator] up to 2^53, which is then exact. *)
Definition ceilDiv (numerator denominator : Z) : Z :=
  Num.floorDiv (numerator + denominator - 1) denominator.

(** The [options] argument; an absent field is [None]. *)
Record options : Type :=
  { optMaxDepth : option Z; optMaxNodes : option Z;
    optMultiplierOffsets : option (list Z) }.

Definition noOptions : options :=
  {| optMaxDepth := None; optMaxNodes := None; optMultiplierOffsets := None |}.

Record settings : Type :=
  { maxDepth : Z; maxNodes : Z; multiplierOffsets : list Z;
    progressRequired : bool }.

(** [options.field ?? default] *)
Definition settingsOf (o : options) : settings :=
  {| maxDepth := match optMaxDepth o with Some d => d | None => 64 end;
     maxNodes := match optMaxNodes o with Some m => m | None => 2000 end;
     multiplierOffsets :=
       match optMultiplierOffsets o with Some l => l | None => [0; 1; 2; 3] end;
     progressRequired := true |}.

(** What [dfs] returns when it finds a path. *)
Record path : Type := { pathMultipliers : list Z; pathRemainders : list Z }.

(** The [for (const offset of settings.multiplierOffsets)] loop in the body
    of [dfs], from the offsets still to try; [dfs] is the recursive call. *)
Definition tryOffsets
    (dfs : Z -> Z -> list Z -> list Z -> Z -> option (option path * Z))
    (s : settings) (modulus currentRemainder depth : Z)
    (chosenMultipliers remainderHistory : list Z) (baseMultiplier : Z)
    : list Z -> Z -> option (option path * Z) :=
  fix tryOffsets (offsets : list Z) (exploredNodes : Z) :=
    match offsets with
    | [] => Some (None, exploredNodes)
    | offset :: offsets =>
        let multiplier := baseMultiplier + offset in
        if multiplier <=? 0 then tryOffsets offsets exploredNodes
        else
          let nextRemainder :=
            Num.rem (Num.mul currentRemainder multiplier) modulus in
          if nextRemainder =? 0 then tryOffsets offsets exploredNodes
          else if progressRequired s && (currentRemainder <=? nextRemainder)
          then tryOffsets offsets exploredNodes
          else
            sub <- dfs nextRemainder (depth + 1)
                     (chosenMultipliers ++ [multiplier])
                     (remainderHistory ++ [nextRemainder])
                     exploredNodes ;;
            match sub with
            | (Some result, exploredNodes) => Some (Some result, exploredNodes)
            | (None, exploredNodes) => tryOffsets offsets exploredNodes
            end
    end.

(** [dfs(currentRemainder, depth, chosenMultipliers, remainderHistory)].
    The counter [exploredNodes], which the closure shares and increments,
    is passed in and handed back.  The inner [option] is the source's
    [null] or a path. *)
Fixpoint dfs (fuel : nat) (s : settings) (modulus : Z)
    (currentRemainder depth : Z) (chosenMultipliers remainderHistory : list Z)
    (exploredNodes : Z) : option (option path * Z) :=
  match fuel with
  | O => None
  | S fuel =>
      if maxNodes s <=? exploredNodes then Some (None, exploredNodes)
      else
        let exploredNodes := exploredNodes + 1 in
        if currentRemainder =? 1 then
          Some (Some {| pathMultipliers := chosenMultipliers;
                        pathRemainders := remainderHistory |}, exploredNodes)
        else if maxDepth s <=? depth then Some (None, exploredNodes)
        else
          let baseMultiplier := ceilDiv modulus currentRemainder in
          tryOffsets (dfs fuel s modulus) s modulus currentRemainder depth
            chosenMultipliers remainderHistory baseMultiplier
            (multiplierOffsets s) exploredNodes
  end.

Record search : Type :=
  { found : bool; inverse : Z; multipliers : list Z; remainders : list Z;
    exploredNodes : Z }.

(** [findInverseWithBacktracking(base, modulus, options)].  The sum in
    [normalizedBase] is exact for a modulus up to 2^52, and so are those of
    [dfs] for offsets up to 2^52. *)
Definition findInverseWithBacktracking (fuel : nat) (base modulus : Z)
    (o : options) : option search :=
  let s := settingsOf o in
  let normalizedBase := Num.rem (Num.rem base modulus + modulus) modulus in
  if normalizedBase =? 0 then
    Some {| found := false; inverse := 0; multipliers := [];
            remainders := [0]; exploredNodes := 0 |}
  else if normalizedBase =? 1 then
    Some {| found := true; inverse := 1; multipliers := [1];
            remainders := [1]; exploredNodes := 1 |}
  else
    let initialRemainder := normalizedBase in
    searched <- dfs fuel s modulus initialRemainder 0 [] [initialRemainder] 0 ;;
    match searched with
    | (None, exploredNodes) =>
        Some {| found := false; inverse := 0; multipliers := [];
                remainders := [initialRemainder]; exploredNodes := exploredNodes |}
    | (Some searchResult, exploredNodes) =>
        let inverse :=
          fold_left (fun inverse multiplier =>
                       Num.rem (Num.mul inverse multiplier) modulus)
                    (pathMultipliers searchResult) 1 in
        Some {| found := true; inverse := inverse;
                multipliers := pathMultipliers searchResult;
                remainders := pathRemainders searchResult;
                exploredNodes := exploredNodes |}
    end.

Inductive method : Type := heuristic | none.

Inductive reason : Type :=
| InvalidInputs
    (* Inputs must be integers with modulus > 0 *)
| NoInverseExists (base modulus gcd : Z)
    (* No inverse exists; gcd(base, modulus) = gcd *)
| SearchFailed.
    (* Heuristic search did not find an inverse within bounds *)

Record details : Type :=
  { detailMultipliers : list Z; detailRemainders : list Z;
    detailExploredNodes : Z }.

(** The result object of [computeModularInverse]; [None] is [null] for
    [inverse] and [details], and an absent [reason]. *)
Record answer : Type :=
  { success : bool; answerInverse : option Z; answerMethod : method;
    answerDetails : option details; answerReason : option reason }.

(** Public API.  Arguments are integers here, so of the validation
    [!Number.isInteger(base) || !Number.isInteger(modulus) || modulus <= 0]
    the last test remains. *)
Definition computeModularInverse (fuel : nat) (base modulus : Z) (o : options)
    : option answer :=
  if modulus <=? 0 then
    Some {| success := false; answerInverse := None; answerMethod := none;
            answerDetails := None; answerReason := Some InvalidInputs |}
  else
    gcd <- computeGreatestCommonDivisor fuel base modulus ;;
    if negb (gcd =? 1) then
      Some {| success := false; answerInverse := None; answerMethod := none;
              answerDetails := None;
              answerReason := Some (NoInverseExists base modulus gcd) |}
    else
      heur <- findInverseWithBacktracking fuel base modulus o ;;
      if found heur then
        Some {| success := true; answerInverse := Some (inverse heur);
                answerMethod := heuristic;
                answerDetails :=
                  Some {| detailMultipliers := multipliers heur;
                          detailRemainders := remainders heur;
                          detailExploredNodes := exploredNodes heur |};
                answerReason := None |}
      else
        Some {| success := false; answerInverse := None; answerMethod := none;
                answerDetails := None; answerReason := Some SearchFailed |}.

(** [modularInverse(base, modulus)]: the inverse, or [None] for [null]. *)
Definition modularInverse (fuel : nat) (base modulus : Z) (o : options)
    : option (option Z) :=
  res <- computeModularInverse fuel base modulus o ;;
  Some (if success res then answerInverse res else None).

(** The lines of [explainHeuristicRun]. *)
Inductive explained : Type :=
| NoInverseBecause (base modulus gcd : Z)
    (* No inverse exists because gcd(base, modulus) = gcd *)
| CalculatingInverse (base modulus : Z)
    (* Calculating inverse of base mod modulus... *)
| SearchFailedAfter (nodes : Z)
    (* Heuristic search failed after exploring nodes nodes. *)
| SolutionAfter (nodes : Z)
    (* Heuristic found a solution after exploring nodes nodes. *)
| RemaindersLine (remainders : list Z)
    (* Remainders: r -> r -> ... *)
| MultipliersLine (multipliers : list Z)
    (* Multipliers: k x k x ... *)
| InverseLine (modulus inverse : Z)
    (* Inverse = (product of multipliers) mod modulus = inverse *)
| ValidationLine (inverse base modulus value : Z).
    (* Validation: (inverse * base) % modulus = value *)

(** [explainHeuristicRun(base, modulus, options)]; it does not check its
    inputs as [computeModularInverse] does. *)
Definition explainHeuristicRun (fuel : nat) (base modulus : Z) (o : options)
    : option (list explained) :=
  gcd <- computeGreatestCommonDivisor fuel base modulus ;;
  if negb (gcd =? 1) then Some [NoInverseBecause base modulus gcd]
  else
    attempt <- findInverseWithBacktracking fuel base modulus o ;;
    let lines := [CalculatingInverse base modulus] in
    if negb (found attempt) then
      Some (lines ++ [SearchFailedAfter (exploredNodes attempt)])
    else
      Some (lines
              ++ [SolutionAfter (exploredNodes attempt);
                  RemaindersLine (remainders attempt);
                  MultipliersLine (multipliers attempt);
                  InverseLine modulus (inverse attempt);
                  ValidationLine (inverse attempt) base modulus
                    (Num.rem (Num.mul (inverse attempt) base) modulus)]).

End Humanized.

(** ** Vocabulary of the properties *)

(** The multiplier [ceil (y / r)]: [y / r] when [r] divides [y] (the
    divides-evenly branch), [floor (y / r) + 1] otherwise. *)
Definition ceilRule (y r : Z) : Z :=
  if y mod r =? 0 then y / r else y / r + 1.

(** [followsRule y prev ks rs]: the multipliers [ks], chosen in turn for the
    remainders [prev], [rs[0]], [rs[1]], ..., are all given by [ceilRule],
    and each remainder is the one its multiplier produces. *)
Fixpoint followsRule (y prev : Z) (ks rs : list Z) : Prop :=
  match ks, rs with
  | [], [] => True
  | ki :: ks, ri :: rs =>
      ki = ceilRule y prev
      /\ ri = Num.rem (Num.mul prev ki) y
      /\ followsRule y ri ks rs
  | _, _ => False
  end.

(** [descends s modulus cur ks rs]: from the remainder [cur], the multipliers
    [ks] lead through the remainders [rs] down to 1, every multiplier being
    positive and of the form [ceilDiv (modulus, remainder) + offset] for a
    configured offset, and every remainder non-zero and smaller than the one
    before. *)
Inductive descends (s : Humanized.settings) (modulus : Z)
  : Z -> list Z -> list Z -> Prop :=
| descends_done : descends s modulus 1 [] []
| descends_step (cur offset next : Z) (ks rs : list Z) :
    In offset (Humanized.multiplierOffsets s) ->
    0 < Humanized.ceilDiv modulus cur + offset ->
    next = Num.rem (Num.mul cur (Humanized.ceilDiv modulus cur + offset)) modulus ->
    next <> 0 ->
    next < cur ->
    descends s modulus next ks rs ->
    descends s modulus cur (Humanized.ceilDiv modulus cur + offset :: ks) (next :: rs).

(** What a call of [dfs] promises about the path [p] it returns: [p] extends
    the multipliers and remainders it was called with by a descent from
    [cur]. *)
Definition pathExtends (s : Humanized.settings) (modulus cur : Z)
    (ks rs : list Z) (p : Humanized.path) : Prop :=
  exists ks' rs' : list Z,
    Humanized.pathMultipliers p = ks ++ ks'
    /\ Humanized.pathRemainders p = rs ++ rs'
    /\ descends s modulus cur ks' rs'.

(** The multipliers [ks], chosen in turn for the remainders [prev], [rs[0]],
    ..., are [ceilRule] plus a configured offset. *)
Fixpoint followsOffsetRule (offsets : list Z) (modulus prev : Z) (ks rs : list Z)
    : Prop :=
  match ks, rs with
  | [], [] => True
  | ki :: ks, ri :: rs =>
      (exists offset, In offset offsets /\ ki = ceilRule modulus prev + offset)
      /\ followsOffsetRule offsets modulus ri ks rs
  | _, _ => False
  end.

(** A line of the report other than the final values. *)
Definition notFinalValues (l : line) : Prop :=
  match l with
  | FinalValues _ _ _ _ _ => False
  | _ => True
  end.

(** All elements lie in [[0, modulus)]. *)
Definition inRange (modulus : Z) (l : list Z) : Prop :=
  Forall (fun v => 0 <= v < modulus) l.

(** What holds of the variables of [Fixed.inverseModFull] whenever its loop
    condition is evaluated. *)
Definition fixedInv (y : Z) (st : Fixed.state) : Prop :=
  length (Fixed.k st) = length (Fixed.r st)
  /\ Fixed.n st = len (Fixed.r st)
  /\ inRange y (Fixed.r st)
  /\ Forall notFinalValues (Fixed.log st).

(** The exact product of the multipliers. *)
Definition product (ks : list Z) : Z := fold_right Z.mul 1 ks.

(** The configured offsets are at most 2^26, so that with a modulus up to
    2^26 every product of the search is a safe integer. *)
Definition smallOffsets (s : Humanized.settings) : Prop :=
  Forall (fun offset => offset <= 2 ^ 26) (Humanized.multiplierOffsets s).

(** The configured offsets are at most 2^52, so that with a modulus up to
    2^52 the sum [baseMultiplier + offset] of the search is exact. *)
Definition safeOffsets (s : Humanized.settings) : Prop :=
  Forall (fun offset => offset <= 2 ^ 52) (Humanized.multiplierOffsets s).

(** The remainders that the multipliers [ks] produce in turn from [prev]. *)
Fixpoint remaindersFrom (y prev : Z) (ks : list Z) : list Z :=
  match ks with
  | [] => []
  | ki :: ks =>
      let ri := Num.rem (Num.mul prev ki) y in
      ri :: remaindersFrom y ri ks
  end.

(** [v % 2 === 1] *)
Definition isOdd (v : Z) : Prop := Num.rem v 2 = 1.

(** A state of the parity-backtracking loop on a zero-remainder dead end:
    for (5, 12), after the multiplier 3, with the last remainder at 12. *)
Definition trapState : Backtrack.state :=
  {| Backtrack.k := [3]; Backtrack.r := [12]; Backtrack.n := 1;
     Backtrack.backtrackCount := 0; Backtrack.log := [] |}.

(** The multipliers of a state of the parity-backtracking loop are not
    negative. *)
Definition backtrackInv (st : Backtrack.state) : Prop :=
  Forall (fun v => 0 <= v) (Backtrack.k st).

(** What the parity-backtracking loop can still spend: the backtracks left,
    each worth a full round of iterations, and the iterations left. *)
Definition backtrackMeasure (st : Backtrack.state) : Z :=
  Z.max 0 (Backtrack.maxBacktracks - Backtrack.backtrackCount st)
  * (Backtrack.maxIterations + 1)
  + Z.max 0 (Backtrack.maxIterations - Backtrack.n st).

(** A backtrack block either is not entered ([None]) or goes round the loop
    again with one more backtrack counted. *)
Definition backtracked (st : Backtrack.state) (out : option Backtrack.control)
    : Prop :=
  match out with
  | None => True
  | Some (Backtrack.Continue st') =>
      backtrackInv st'
      /\ Backtrack.backtrackCount st < Backtrack.maxBacktracks
      /\ Backtrack.backtrackCount st' = Backtrack.backtrackCount st + 1
      /\ 0 <= Backtrack.n st'
  | Some (Backtrack.Break _) => False
  end.

(** A line of the report that records a backtrack. *)
Definition isBacktrackLine (l : line) : Prop :=
  match l with
  | BacktrackParity _ _ _ | BacktrackGcd _ _ _ => True
  | _ => False
  end.

(** A state of the parity-backtracking loop in which no backtrack has taken
    place: the counter is 0, the report records none, and the remainders are
    positive and below the modulus. *)
Definition neverBacktracked (y : Z) (st : Backtrack.state) : Prop :=
  Backtrack.backtrackCount st = 0
  /\ Forall (fun l => ~ isBacktrackLine l) (Backtrack.log st)
  /\ Forall (fun v => 0 < v < y) (Backtrack.r st).

(** Each element is larger than the next. *)
Definition strictlyDecreasing (l : list Z) : Prop :=
  forall (i : nat) (a b : Z),
    nth_error l i = Some a -> nth_error l (S i) = Some b -> b < a.

(** The last element of a list is [v]. *)
Definition lastIs (l : list Z) (v : Z) : Prop := get l (len l - 1) = Some v.

(** What holds of the variables of [Fixed.inverseModFull] at the loop
    condition, beyond [fixedInv]: the iteration count is within its cap, the
    remainders descend and the report has no line about a remainder that
    does not. *)
Definition fixedDescent (st : Fixed.state) : Prop :=
  1 <= Fixed.n st <= Fixed.maxIterations
  /\ strictlyDecreasing (Fixed.r st)
  /\ ~ In NotDecreasing (Fixed.log st).

(** [exactTrace y prev ks rs]: from the remainder [prev], the multipliers
    [ks], each at least 1, produce the remainders [rs], and no product was
    rounded: each remainder is the residue of the exact product. *)
Fixpoint exactTrace (y prev : Z) (ks rs : list Z) : Prop :=
  match ks, rs with
  | [], [] => True
  | ki :: ks, ri :: rs =>
      1 <= ki /\ ri = (prev * ki) mod y /\ exactTrace y ri ks rs
  | _, _ => False
  end.

(** What holds of the variables of [Backtrack.inverseModFull] during its
    loop: no backtrack has taken place, the multipliers and remainders form
    an exact trace from [x mod y], and the closing lines are not yet in the
    report. *)
Definition backtrackTrace (x y : Z) (st : Backtrack.state) : Prop :=
  neverBacktracked y st
  /\ exactTrace y (x mod y) (Backtrack.k st) (Backtrack.r st)
  /\ Forall notFinalValues (Backtrack.log st).

(** The variables of the two loops hold the same values. *)
Definition sameState (fst : Fixed.state) (bst : Backtrack.state) : Prop :=
  Backtrack.k bst = Fixed.k fst
  /\ Backtrack.r bst = Fixed.r fst
  /\ Backtrack.n bst = Fixed.n fst
  /\ Backtrack.log bst = Fixed.log fst.

(** [ceilDescent y cur ks rs]: from the remainder [cur], which is above 1
    and does not divide [y], the multiplier is [floor (y / cur) + 1] and
    the next remainder [cur - y mod cur], and so on down to 1. *)
Fixpoint ceilDescent (y cur : Z) (ks rs : list Z) : Prop :=
  match ks, rs with
  | [], [] => cur = 1
  | ki :: ks, ri :: rs =>
      1 < cur /\ y mod cur <> 0
      /\ ki = y / cur + 1 /\ ri = cur - y mod cur
      /\ ceilDescent y ri ks rs
  | _, _ => False
  end.

(** * Properties *)

(** ** Number arithmetic *)

Section NumFacts.

Lemma round53_small (n : Z) : n <= 2 ^ 53 -> Num.round53 n = n.
Proof.
  intros H. unfold Num.round53.
  destruct (Z.leb_spec n (2 ^ 53)) as [_ | Hgt]; [reflexivity | lia].
Qed.

(** Safe integers are not rounded. *)
Lemma fl53_exact (n : Z) : - 2 ^ 53 <= n <= 2 ^ 53 -> Num.fl53 n = n.
Proof.
  intros [Hlo Hhi]. unfold Num.fl53.
  destruct (Z.ltb_spec n 0).
  - rewrite round53_small by lia. lia.
  - apply round53_small; assumption.
Qed.

Lemma mul_exact (a b : Z) : - 2 ^ 53 <= a * b <= 2 ^ 53 -> Num.mul a b = a * b.
Proof. apply fl53_exact. Qed.

(** Above 2^53 the value is rounded to one of the two neighbouring
    multiples of [2 ^ e], where [e] is the number of bits given up. *)
Lemma round53_large (n : Z) :
  2 ^ 53 < n ->
  exists e q : Z,
    0 < e /\ 2 ^ 52 * 2 ^ e <= n /\ q * 2 ^ e <= n < (q + 1) * 2 ^ e /\
    (Num.round53 n = q * 2 ^ e \/ Num.round53 n = (q + 1) * 2 ^ e).
Proof.
  intros Hn. unfold Num.round53.
  destruct (Z.leb_spec n (2 ^ 53)) as [Hle | _]; [lia |].
  assert (Hlog : 53 <= Z.log2 n).
  { change 53 with (Z.log2 (2 ^ 53)). apply Z.log2_le_mono. lia. }
  set (e := Z.log2 n - 52).
  assert (He : 0 < e) by (unfold e; lia).
  destruct (Z.log2_spec n ltac:(lia)) as [Hlo Hhi].
  assert (Hpow : 2 ^ Z.log2 n = 2 ^ 52 * 2 ^ e).
  { unfold e. rewrite <- Z.pow_add_r by lia. f_equal. lia. }
  assert (Hpe : 0 < 2 ^ e) by (apply Z.pow_pos_nonneg; lia).
  rewrite Z.shiftr_div_pow2 by lia.
  pose proof (Z.div_mod n (2 ^ e) ltac:(lia)) as Hdm.
  pose proof (Z.mod_pos_bound n (2 ^ e) Hpe) as Hmb.
  exists e, (n / 2 ^ e).
  split; [exact He |]. split; [lia |]. split; [nia |].
  rewrite !Z.shiftl_mul_pow2 by lia.
  destruct (Z.land n (Z.ones e) <? 2 ^ (e - 1)); [left; reflexivity |].
  destruct (2 ^ (e - 1) <? Z.land n (Z.ones e)); [right; reflexivity |].
  destruct (Z.even (n / 2 ^ e)); [left | right]; reflexivity.
Qed.

Lemma round53_lower (n : Z) : 0 <= n -> 0 <= Num.round53 n /\ n <= 2 * Num.round53 n.
Proof.
  intros Hn. destruct (Z_le_gt_dec n (2 ^ 53)) as [Hs | Hl].
  - rewrite round53_small by assumption. lia.
  - destruct (round53_large n ltac:(lia)) as (e & q & He & Hlo & Hq & Hr).
    assert (Hpe : 0 < 2 ^ e) by (apply Z.pow_pos_nonneg; lia).
    assert (Hq52 : 2 ^ 52 <= q) by nia.
    destruct Hr as [-> | ->]; nia.
Qed.

Lemma fl53_nonneg (n : Z) : 0 <= n -> 0 <= Num.fl53 n.
Proof.
  intros Hn. unfold Num.fl53.
  destruct (Z.ltb_spec n 0); [lia |]. apply round53_lower; assumption.
Qed.

(** Rounding loses less than half of a non-negative value. *)
Lemma fl53_lower (n : Z) : 0 <= n -> n <= 2 * Num.fl53 n.
Proof.
  intros Hn. unfold Num.fl53.
  destruct (Z.ltb_spec n 0); [lia |]. apply round53_lower; assumption.
Qed.

Lemma mul_nonneg (a b : Z) : 0 <= a -> 0 <= b -> 0 <= Num.mul a b.
Proof. intros Ha Hb. apply fl53_nonneg. nia. Qed.

(** [a % b] of a non-negative [a] by a positive [b] is the mathematical
    remainder. *)
Lemma rem_mod (a b : Z) : 0 <= a -> 0 < b -> Num.rem a b = a mod b.
Proof. intros Ha Hb. unfold Num.rem. apply Z.rem_mod_nonneg; lia. Qed.

Lemma rem_range (a b : Z) : 0 <= a -> 0 < b -> 0 <= Num.rem a b < b.
Proof.
  intros Ha Hb. rewrite rem_mod by assumption. apply Z.mod_pos_bound; assumption.
Qed.

End NumFacts.

(** ** Euclid's loop *)

Section EuclidFacts.

(** With more fuel than [b] the loop of [gcd] runs to its end, and what it
    returns is the greatest common divisor. *)
Lemma gcd_returns (fuel : nat) :
  forall a b : Z, 0 <= a -> 0 <= b -> (Z.to_nat b < fuel)%nat ->
                  Fixed.gcd fuel a b = Some (Z.gcd a b).
Proof.
  induction fuel as [| fuel IH]; intros a b Ha Hb Hfuel; [lia |].
  simpl. destruct (Z.eqb_spec b 0) as [-> | Hb0].
  - rewrite Z.gcd_0_r, Z.abs_eq by assumption. reflexivity.
  - assert (Hr : 0 <= Num.rem a b < b) by (apply rem_range; lia).
    rewrite IH by lia.
    rewrite rem_mod by lia.
    rewrite Z.gcd_comm, Z.gcd_mod by assumption.
    rewrite Z.gcd_comm. reflexivity.
Qed.

Lemma euclid_is_gcd (fuel : nat) :
  forall a b : Z, Humanized.euclid fuel a b = Fixed.gcd fuel a b.
Proof.
  induction fuel as [| fuel IH]; intros a b; simpl; [reflexivity |].
  destruct (b =? 0); [reflexivity | apply IH].
Qed.

Lemma computeGreatestCommonDivisor_returns (fuel : nat) (a b : Z) :
  (Z.to_nat (Z.abs b) < fuel)%nat ->
  Humanized.computeGreatestCommonDivisor fuel a b = Some (Z.gcd a b).
Proof.
  intros Hfuel. unfold Humanized.computeGreatestCommonDivisor.
  rewrite euclid_is_gcd, gcd_returns by lia.
  rewrite Z.gcd_abs_l, Z.gcd_abs_r. reflexivity.
Qed.

Lemma checkSpecialCases_coprime (fuel : nat) (x y : Z) :
  0 < x -> 0 < y -> (Z.to_nat y < fuel)%nat -> Z.gcd x y = 1 ->
  Fixed.checkSpecialCases fuel x y
  = Some {| Fixed.isSpecialCase := false; Fixed.message := [] |}.
Proof.
  intros Hx Hy Hfuel Hg. unfold Fixed.checkSpecialCases.
  destruct (Z.eqb_spec x 0); [lia |]. destruct (Z.eqb_spec y 0); [lia |].
  simpl. rewrite gcd_returns by lia. simpl. rewrite Hg. reflexivity.
Qed.

Lemma checkSpecialCases_not_coprime (fuel : nat) (x y : Z) :
  0 < x -> 0 < y -> (Z.to_nat y < fuel)%nat -> Z.gcd x y <> 1 ->
  Fixed.checkSpecialCases fuel x y
  = Some {| Fixed.isSpecialCase := true;
            Fixed.message := [NotCoprime x y (Z.gcd x y)] |}.
Proof.
  intros Hx Hy Hfuel Hg. unfold Fixed.checkSpecialCases.
  destruct (Z.eqb_spec x 0); [lia |]. destruct (Z.eqb_spec y 0); [lia |].
  simpl. rewrite gcd_returns by lia. simpl.
  destruct (Z.eqb_spec (Z.gcd x y) 1); [contradiction |]. reflexivity.
Qed.

End EuclidFacts.

(** ** The coprimality gate *)

(** C3.  When [gcd (base, modulus) = g > 1], every variant reports that the
    pair is not coprime, with that [g], and does nothing else: the reports of
    [inverseModFull] hold the opening line and the gcd message, no [Step],
    and the answer 0; [computeModularInverse] answers failure, whatever the
    options, with no inverse and no search details. *)
Theorem not_coprime_gate (fuel : nat) (base modulus g : Z) (o : Humanized.options) :
  0 < base -> 0 < modulus -> (Z.to_nat modulus < fuel)%nat ->
  Z.gcd base modulus = g -> 1 < g ->
  Fixed.inverseModFull fuel base modulus
  = Some {| Fixed.result := [Calculating base modulus; NotCoprime base modulus g];
            Fixed.z := 0 |}
  /\ Backtrack.inverseModFull fuel base modulus
     = Some {| Backtrack.result :=
                 [Calculating base modulus; NotCoprime base modulus g];
               Backtrack.z := 0 |}
  /\ Humanized.computeModularInverse fuel base modulus o
     = Some {| Humanized.success := false;
               Humanized.answerInverse := None;
               Humanized.answerMethod := Humanized.none;
               Humanized.answerDetails := None;
               Humanized.answerReason :=
                 Some (Humanized.NoInverseExists base modulus g) |}.
Proof.
  intros Hb Hm Hfuel Hg H1. subst g.
  assert (Hne : Z.gcd base modulus <> 1) by lia.
  split; [| split].
  - unfold Fixed.inverseModFull.
    rewrite checkSpecialCases_not_coprime by assumption. reflexivity.
  - unfold Backtrack.inverseModFull, Backtrack.checkSpecialCases.
    rewrite checkSpecialCases_not_coprime by assumption. reflexivity.
  - unfold Humanized.computeModularInverse.
    destruct (Z.leb_spec modulus 0); [lia |].
    rewrite computeGreatestCommonDivisor_returns by lia. simpl.
    destruct (Z.eqb_spec (Z.gcd base modulus) 1); [contradiction |]. reflexivity.
Qed.

Lemma not_coprime_gate_witness :
  Fixed.inverseModFull 7 4 6
  = Some {| Fixed.result := [Calculating 4 6; NotCoprime 4 6 2]; Fixed.z := 0 |}
  /\ Backtrack.inverseModFull 7 4 6
     = Some {| Backtrack.result := [Calculating 4 6; NotCoprime 4 6 2];
               Backtrack.z := 0 |}
  /\ Humanized.computeModularInverse 7 4 6 Humanized.noOptions
     = Some {| Humanized.success := false;
               Humanized.answerInverse := None;
               Humanized.answerMethod := Humanized.none;
               Humanized.answerDetails := None;
               Humanized.answerReason := Some (Humanized.NoInverseExists 4 6 2) |}.
Proof.
  apply (not_coprime_gate 7 4 6 2 Humanized.noOptions).
  - lia.
  - lia.
  - apply Nat.ltb_lt. reflexivity.
  - reflexivity.
  - lia.
Defined.

(** ** Runs on concrete inputs *)

(** C1.  [inverseModFull (51, 421)] reaches remainder 1 after twelve steps
    and reports success, but the inverse it returns is wrong.  The exact
    product of the twelve multipliers is above 2^53; [z *= valueK] rounds it,
    and the rounded product is 412 modulo 421, where the exact one is 388,
    the inverse of 51. *)
Theorem fixed_inverse_invalid_51_421 :
  Fixed.inverseModFull 500 51 421
  = Some {| Fixed.result :=
              [Calculating 51 421;
               Step 1 421 51 9 38; Step 2 421 38 12 35; Step 3 421 35 13 34;
               Step 4 421 34 13 21; Step 5 421 21 21 20; Step 6 421 20 22 19;
               Step 7 421 19 23 16; Step 8 421 16 27 11; Step 9 421 11 39 8;
               Step 10 421 8 53 3; Step 11 421 3 141 2; Step 12 421 2 211 1;
               Product 412;
               FinalValues 51 421
                 [9; 12; 13; 13; 21; 22; 23; 27; 39; 53; 141; 211]
                 [38; 35; 34; 21; 20; 19; 16; 11; 8; 3; 2; 1] 412;
               Validation 412 51 421 false];
            Fixed.z := 412 |}
  /\ (412 * 51) mod 421 <> 1
  /\ 2 ^ 53 < fold_left Z.mul [9; 12; 13; 13; 21; 22; 23; 27; 39; 53; 141; 211] 1
  /\ fold_left Z.mul [9; 12; 13; 13; 21; 22; 23; 27; 39; 53; 141; 211] 1 mod 421 = 388
  /\ (388 * 51) mod 421 = 1.
Proof.
  repeat split; try (vm_compute; reflexivity).
  vm_compute. discriminate.
Qed.

(** C10.  [inverseMod (119, 1261)] returns 0 although 119 and 1261 are
    coprime and the search reached remainder 1: the rounded product of the
    ten multipliers is a multiple of 1261.  The answer 0 does not tell a
    failed search from a successful one. *)
Theorem fixed_zero_on_success_119_1261 :
  Fixed.inverseModFull 1500 119 1261
  = Some {| Fixed.result :=
              [Calculating 119 1261;
               Step 1 1261 119 11 48; Step 2 1261 48 27 35; Step 3 1261 35 37 34;
               Step 4 1261 34 38 31; Step 5 1261 31 41 10; Step 6 1261 10 127 9;
               Step 7 1261 9 141 8; Step 8 1261 8 158 3; Step 9 1261 3 421 2;
               Step 10 1261 2 631 1;
               Product 0;
               FinalValues 119 1261
                 [11; 27; 37; 38; 41; 127; 141; 158; 421; 631]
                 [48; 35; 34; 31; 10; 9; 8; 3; 2; 1] 0;
               Validation 0 119 1261 false];
            Fixed.z := 0 |}
  /\ Fixed.inverseMod 1500 119 1261 = Some 0
  /\ Z.gcd 119 1261 = 1
  /\ fold_left Z.mul [11; 27; 37; 38; 41; 127; 141; 158; 421; 631] 1 mod 1261 = 657
  /\ (657 * 119) mod 1261 = 1.
Proof.
  repeat split; vm_compute; reflexivity.
Qed.

(** C4.  On (5, 12) the fixed variant runs into remainder 0 and answers 0;
    the depth-first search of the humanized variant finds the inverse 5;
    the parity-backtracking variant stops at a remainder that does not
    decrease (3 after 3), makes no backtrack, and answers 0, noting in its
    report that the extended Euclidean inverse is 5. *)
Theorem five_mod_twelve :
  Fixed.inverseModFull 20 5 12
  = Some {| Fixed.result :=
              [Calculating 5 12; Step 1 12 5 3 3; Step 2 12 3 4 0; ReachedZero;
               FailedToFind (Some 0); FinalValues 5 12 [3; 4] [3; 0] 0;
               Validation 0 5 12 false];
            Fixed.z := 0 |}
  /\ Humanized.computeModularInverse 20 5 12 Humanized.noOptions
     = Some {| Humanized.success := true;
               Humanized.answerInverse := Some 5;
               Humanized.answerMethod := Humanized.heuristic;
               Humanized.answerDetails :=
                 Some {| Humanized.detailMultipliers := [5];
                         Humanized.detailRemainders := [5; 1];
                         Humanized.detailExploredNodes := 3 |};
               Humanized.answerReason := None |}
  /\ Backtrack.inverseModFull 20 5 12
     = Some {| Backtrack.result :=
                 [Calculating 5 12; Step 1 12 5 3 3; Step 2 12 3 5 3;
                  NotDecreasing; FailedToFind (Some 3); CorrectInverse 5;
                  FinalValues 5 12 [3; 5] [3; 3] 0; Validation 0 5 12 false];
               Backtrack.z := 0 |}.
Proof.
  repeat split; vm_compute; reflexivity.
Qed.

(** C2, as stated, fails: 7 and 12 are coprime, and [computeModularInverse],
    which has no mode that falls back on the extended Euclidean algorithm,
    answers failure after exploring three nodes.  [Backtrack.inverseModFull]
    computes the extended Euclidean inverse 7 only for a note in its report
    and answers 0. *)
Lemma no_guaranteed_mode_7_12 :
  Z.gcd 7 12 = 1
  /\ Humanized.computeModularInverse 20 7 12 Humanized.noOptions
     = Some {| Humanized.success := false;
               Humanized.answerInverse := None;
               Humanized.answerMethod := Humanized.none;
               Humanized.answerDetails := None;
               Humanized.answerReason := Some Humanized.SearchFailed |}
  /\ Backtrack.inverseModFull 20 7 12
     = Some {| Backtrack.result :=
                 [Calculating 7 12; Step 1 12 7 2 2; Step 2 12 2 7 2;
                  NotDecreasing; FailedToFind (Some 2); CorrectInverse 7;
                  FinalValues 7 12 [2; 7] [2; 2] 0; Validation 0 7 12 false];
               Backtrack.z := 0 |}.
Proof.
  repeat split; vm_compute; reflexivity.
Qed.

(** C5, as stated, fails: on (5, 12) the second multiplier of the fixed
    variant is 12 / 3 = 4, the divides-evenly branch, not
    floor (12 / 3) + 1 = 5. *)
Lemma fixed_divides_evenly_5_12 :
  exists res : Fixed.outcome,
    Fixed.inverseModFull 20 5 12 = Some res
    /\ In (Step 2 12 3 4 0) (Fixed.result res)
    /\ 4 = Num.floorDiv 12 3
    /\ 4 <> Num.floorDiv 12 3 + 1.
Proof.
  eexists. split; [vm_compute; reflexivity |].
  split; [simpl; tauto |]. split; [reflexivity |]. vm_compute. discriminate.
Qed.

(** C6, as stated, fails: the trace of the fixed variant for (3, 7) has two
    multipliers and two remainders, and its first remainder is 2, the result
    of the first multiplier, not the seed 3. *)
Lemma fixed_trace_3_7 :
  exists res : Fixed.outcome,
    Fixed.inverseModFull 20 3 7 = Some res
    /\ In (FinalValues 3 7 [3; 4] [2; 1] 5) (Fixed.result res)
    /\ length [2; 1] = length [3; 4]
    /\ 3 mod 7 <> 2.
Proof.
  eexists. split; [vm_compute; reflexivity |].
  split; [simpl; tauto |]. split; [reflexivity |]. vm_compute. discriminate.
Qed.


(** ** The depth-first search of the humanized variant *)

Section DfsFacts.

Variable s : Humanized.settings.
Variable modulus : Z.
Hypothesis progress : Humanized.progressRequired s = true.


Lemma tryOffsets_path
    (rec : Z -> Z -> list Z -> list Z -> Z -> option (option Humanized.path * Z))
    (cur depth : Z) (ks rs : list Z) :
  (forall next d ks1 rs1 e p e',
      rec next d ks1 rs1 e = Some (Some p, e') -> pathExtends s modulus next ks1 rs1 p) ->
  forall (offs : list Z) (e : Z) (p : Humanized.path) (e' : Z),
    incl offs (Humanized.multiplierOffsets s) ->
    Humanized.tryOffsets rec s modulus cur depth ks rs
      (Humanized.ceilDiv modulus cur) offs e = Some (Some p, e') ->
    pathExtends s modulus cur ks rs p.
Proof.
  intros Hrec. induction offs as [| offset offs IH]; intros e p e' Hincl Hrun.
  - simpl in Hrun. discriminate.
  - assert (Hin : In offset (Humanized.multiplierOffsets s))
      by (apply Hincl; left; reflexivity).
    assert (Hincl' : incl offs (Humanized.multiplierOffsets s))
      by (intros v Hv; apply Hincl; right; exact Hv).
    simpl in Hrun.
    destruct (Z.leb_spec (Humanized.ceilDiv modulus cur + offset) 0) as [| Hpos];
      [eapply IH; eassumption |].
    destruct (Z.eqb_spec
                (Num.rem (Num.mul cur (Humanized.ceilDiv modulus cur + offset)) modulus)
                0) as [| Hnz];
      [eapply IH; eassumption |].
    rewrite progress in Hrun. simpl in Hrun.
    destruct (Z.leb_spec cur
                (Num.rem (Num.mul cur (Humanized.ceilDiv modulus cur + offset)) modulus))
      as [| Hlt];
      [eapply IH; eassumption |].
    destruct (rec _ _ _ _ _) as [[[q |] e1] |] eqn:Hsub; simpl in Hrun.
    + injection Hrun as <- <-.
      destruct (Hrec _ _ _ _ _ _ _ Hsub) as (ks' & rs' & Hk & Hr & Hd).
      unfold pathExtends.
      exists (Humanized.ceilDiv modulus cur + offset :: ks'),
        (Num.rem (Num.mul cur (Humanized.ceilDiv modulus cur + offset)) modulus :: rs').
      rewrite Hk, Hr, <- !app_assoc. simpl.
      split; [reflexivity |]. split; [reflexivity |].
      apply descends_step; auto.
    + eapply IH; eassumption.
    + discriminate.
Qed.

Lemma dfs_path (fuel : nat) :
  forall cur depth ks rs e p e',
    Humanized.dfs fuel s modulus cur depth ks rs e = Some (Some p, e') ->
    pathExtends s modulus cur ks rs p.
Proof.
  induction fuel as [| fuel IH]; intros cur depth ks rs e p e' Hrun;
    [discriminate |].
  simpl in Hrun.
  destruct (Humanized.maxNodes s <=? e); [discriminate |].
  destruct (Z.eqb_spec cur 1) as [-> | Hne].
  - injection Hrun as <- <-. exists [], []. rewrite !app_nil_r. simpl.
    split; [reflexivity |]. split; [reflexivity |]. constructor.
  - destruct (Humanized.maxDepth s <=? depth); [discriminate |].
    eapply tryOffsets_path; [exact IH | apply incl_refl | exact Hrun].
Qed.

Lemma tryOffsets_returns
    (rec : Z -> Z -> list Z -> list Z -> Z -> option (option Humanized.path * Z))
    (cur depth : Z) (ks rs : list Z) (bm : Z) :
  (forall next ks1 rs1 e, exists out, rec next (depth + 1) ks1 rs1 e = Some out) ->
  forall (offs : list Z) (e : Z),
    exists out, Humanized.tryOffsets rec s modulus cur depth ks rs bm offs e = Some out.
Proof.
  intros Hrec. induction offs as [| offset offs IH]; intros e; simpl.
  - eexists. reflexivity.
  - destruct (bm + offset <=? 0); [apply IH |].
    destruct (Num.rem (Num.mul cur (bm + offset)) modulus =? 0); [apply IH |].
    destruct (Humanized.progressRequired s
              && (cur <=? Num.rem (Num.mul cur (bm + offset)) modulus));
      [apply IH |].
    destruct (Hrec (Num.rem (Num.mul cur (bm + offset)) modulus)
                (ks ++ [bm + offset])
                (rs ++ [Num.rem (Num.mul cur (bm + offset)) modulus]) e)
      as [[[q |] e1] ->]; simpl.
    + eexists. reflexivity.
    + apply IH.
Qed.

(** The depth budget bounds the recursion: with more fuel than the depth
    still allowed, [dfs] returns. *)
Lemma dfs_returns (fuel : nat) :
  forall cur depth ks rs e,
    (Z.to_nat (Humanized.maxDepth s - depth) < fuel)%nat ->
    exists out, Humanized.dfs fuel s modulus cur depth ks rs e = Some out.
Proof.
  induction fuel as [| fuel IH]; intros cur depth ks rs e Hfuel; [lia |].
  simpl.
  destruct (Humanized.maxNodes s <=? e); [eexists; reflexivity |].
  destruct (cur =? 1); [eexists; reflexivity |].
  destruct (Z.leb_spec (Humanized.maxDepth s) depth); [eexists; reflexivity |].
  apply tryOffsets_returns. intros next ks1 rs1 e1. apply IH. lia.
Qed.

Lemma tryOffsets_nodes
    (rec : Z -> Z -> list Z -> list Z -> Z -> option (option Humanized.path * Z))
    (cur depth : Z) (ks rs : list Z) (bm : Z) :
  (forall next d ks1 rs1 e out e',
      rec next d ks1 rs1 e = Some (out, e') ->
      e <= e' <= Z.max e (Humanized.maxNodes s)) ->
  forall (offs : list Z) (e : Z) out e',
    Humanized.tryOffsets rec s modulus cur depth ks rs bm offs e = Some (out, e') ->
    e <= e' <= Z.max e (Humanized.maxNodes s).
Proof.
  intros Hrec. induction offs as [| offset offs IH]; intros e out e' Hrun;
    simpl in Hrun.
  - injection Hrun as <- <-. lia.
  - destruct (bm + offset <=? 0); [eapply IH; eassumption |].
    destruct (Num.rem (Num.mul cur (bm + offset)) modulus =? 0);
      [eapply IH; eassumption |].
    destruct (Humanized.progressRequired s
              && (cur <=? Num.rem (Num.mul cur (bm + offset)) modulus));
      [eapply IH; eassumption |].
    destruct (rec _ _ _ _ _) as [[[q |] e1] |] eqn:Hsub; simpl in Hrun.
    + injection Hrun as <- <-. eapply Hrec; eassumption.
    + pose proof (Hrec _ _ _ _ _ _ _ Hsub) as H1.
      pose proof (IH _ _ _ Hrun) as H2. lia.
    + discriminate.
Qed.

(** The node budget bounds the search: the counter of explored nodes never
    passes [maxNodes]. *)
Lemma dfs_nodes (fuel : nat) :
  forall cur depth ks rs e out e',
    Humanized.dfs fuel s modulus cur depth ks rs e = Some (out, e') ->
    e <= e' <= Z.max e (Humanized.maxNodes s).
Proof.
  induction fuel as [| fuel IH]; intros cur depth ks rs e out e' Hrun;
    [discriminate |].
  simpl in Hrun.
  destruct (Z.leb_spec (Humanized.maxNodes s) e).
  - injection Hrun as <- <-. lia.
  - destruct (cur =? 1); [injection Hrun as <- <-; lia |].
    destruct (Humanized.maxDepth s <=? depth); [injection Hrun as <- <-; lia |].
    pose proof (tryOffsets_nodes _ _ _ _ _ _ IH _ _ _ _ Hrun). lia.
Qed.

End DfsFacts.

(** ** Descents *)

Section DescentFacts.

Variable s : Humanized.settings.
Variable modulus : Z.
Hypothesis modulus_pos : 0 < modulus.

Lemma descends_length (cur : Z) (ks rs : list Z) :
  descends s modulus cur ks rs -> length ks = length rs.
Proof. induction 1; simpl; congruence. Qed.


Lemma descends_range (cur : Z) (ks rs : list Z) :
  descends s modulus cur ks rs -> 0 <= cur -> inRange modulus rs.
Proof.
  induction 1 as [| cur offset next ks rs Hin Hpos Hnext Hnz Hlt Hd IH];
    intros Hcur; [constructor |].
  assert (Hr : 0 <= next < modulus).
  { subst next. apply rem_range; [apply mul_nonneg; lia | assumption]. }
  constructor; [exact Hr | apply IH; lia].
Qed.



(** [ceilDiv] is the rule [ceilRule]. *)
Lemma ceilDiv_rule (n d : Z) : 0 < d -> Humanized.ceilDiv n d = ceilRule n d.
Proof.
  intros Hd. unfold Humanized.ceilDiv, Num.floorDiv, ceilRule.
  pose proof (Z.div_mod n d ltac:(lia)) as Hdm.
  pose proof (Z.mod_pos_bound n d Hd) as Hmb.
  destruct (Z.eqb_spec (n mod d) 0) as [H0 | H0].
  - symmetry. apply (Z.div_unique _ _ _ (d - 1)); lia.
  - symmetry. apply (Z.div_unique _ _ _ (n mod d - 1)); lia.
Qed.

Lemma descends_offsetRule (cur : Z) (ks rs : list Z) :
  descends s modulus cur ks rs -> 0 < cur ->
  followsOffsetRule (Humanized.multiplierOffsets s) modulus cur ks rs.
Proof.
  induction 1 as [| cur offset next ks rs Hin Hpos Hnext Hnz Hlt Hd IH];
    intros Hcur; simpl; [exact I |].
  split.
  - exists offset. rewrite ceilDiv_rule by assumption. auto.
  - apply IH.
    assert (0 <= next < modulus); [| lia].
    subst next. apply rem_range; [apply mul_nonneg; lia | assumption].
Qed.

(** [((base % modulus) + modulus) % modulus] is [base mod modulus]. *)
Lemma normalizedBase_mod (base : Z) :
  Num.rem (Num.rem base modulus + modulus) modulus = base mod modulus.
Proof.
  unfold Num.rem.
  pose proof (Z.rem_bound_abs base modulus ltac:(lia)) as Habs.
  pose proof (Z.quot_rem' base modulus) as Hqr.
  rewrite Z.rem_mod_nonneg by lia.
  replace (Z.rem base modulus + modulus)
    with (base + (1 - Z.quot base modulus) * modulus) by lia.
  apply Z.mod_add. lia.
Qed.

End DescentFacts.

(** ** What [findInverseWithBacktracking] returns *)

Section SearchFacts.

Variable modulus : Z.
Hypothesis modulus_pos : 0 < modulus.

Lemma settingsOf_progress (o : Humanized.options) :
  Humanized.progressRequired (Humanized.settingsOf o) = true.
Proof. reflexivity. Qed.

(** The three ways out of [findInverseWithBacktracking]: the base is a
    multiple of the modulus, the base is 1 modulo the modulus, or the
    depth-first search ran, and then either failed or found a descent. *)
Lemma findInverse_cases (fuel : nat) (base : Z) (o : Humanized.options)
    (res : Humanized.search) :
  Humanized.findInverseWithBacktracking fuel base modulus o = Some res ->
  (base mod modulus = 0
   /\ res = {| Humanized.found := false; Humanized.inverse := 0;
               Humanized.multipliers := []; Humanized.remainders := [0];
               Humanized.exploredNodes := 0 |})
  \/ (base mod modulus = 1
      /\ res = {| Humanized.found := true; Humanized.inverse := 1;
                  Humanized.multipliers := [1]; Humanized.remainders := [1];
                  Humanized.exploredNodes := 1 |})
  \/ (base mod modulus <> 0 /\ base mod modulus <> 1
      /\ ((Humanized.found res = false /\ Humanized.inverse res = 0
           /\ Humanized.multipliers res = []
           /\ Humanized.remainders res = [base mod modulus])
          \/ (Humanized.found res = true
              /\ Humanized.inverse res
                 = fold_left (fun inverse multiplier =>
                                Num.rem (Num.mul inverse multiplier) modulus)
                             (Humanized.multipliers res) 1
              /\ exists rs,
                  Humanized.remainders res = base mod modulus :: rs
                  /\ descends (Humanized.settingsOf o) modulus (base mod modulus)
                       (Humanized.multipliers res) rs))).
Proof.
  unfold Humanized.findInverseWithBacktracking.
  rewrite normalizedBase_mod by assumption.
  destruct (Z.eqb_spec (base mod modulus) 0) as [H0 | H0].
  { intros [= <-]. left. split; [assumption | reflexivity]. }
  destruct (Z.eqb_spec (base mod modulus) 1) as [H1 | H1].
  { intros [= <-]. right; left. split; [assumption | reflexivity]. }
  destruct (Humanized.dfs _ _ _ _ _ _ _ _) as [[[p |] e] |] eqn:Hdfs;
    simpl; intros [= <-]; right; right; split; try assumption; split;
    try assumption.
  - right. simpl.
    destruct (dfs_path _ modulus (settingsOf_progress o) _ _ _ _ _ _ _ _ Hdfs)
      as (ks' & rs' & Hk & Hr & Hd).
    simpl in Hk, Hr.
    split; [reflexivity |]. split; [reflexivity |].
    exists rs'. split; [exact Hr |]. rewrite Hk. exact Hd.
  - left. simpl. repeat split.
Qed.

Lemma findInverse_returns (fuel : nat) (base : Z) (o : Humanized.options) :
  (Z.to_nat (Humanized.maxDepth (Humanized.settingsOf o)) < fuel)%nat ->
  exists res, Humanized.findInverseWithBacktracking fuel base modulus o = Some res.
Proof.
  intros Hfuel. unfold Humanized.findInverseWithBacktracking.
  destruct (_ =? 0); [eexists; reflexivity |].
  destruct (_ =? 1); [eexists; reflexivity |].
  destruct (dfs_returns (Humanized.settingsOf o) modulus fuel
              (Num.rem (Num.rem base modulus + modulus) modulus) 0 []
              [Num.rem (Num.rem base modulus + modulus) modulus] 0)
    as [[[p |] e] ->]; [rewrite Z.sub_0_r; exact Hfuel | |];
    simpl; eexists; reflexivity.
Qed.

End SearchFacts.



(** ** Arrays *)

Section ArrayFacts.

Lemma len_app (a b : list Z) : len (a ++ b) = len a + len b.
Proof. unfold len. rewrite length_app. lia. Qed.

Lemma len_nonneg (a : list Z) : 0 <= len a.
Proof. unfold len. lia. Qed.

(** Reading the slot that [push] has just filled. *)
Lemma get_pushed (a : list Z) (v : Z) : get (a ++ [v]) (len a) = Some v.
Proof.
  unfold get, len. destruct (Z.ltb_spec (Z.of_nat (length a)) 0); [lia |].
  rewrite Nat2Z.id, nth_error_app2 by lia.
  rewrite Nat.sub_diag. reflexivity.
Qed.

Lemma get_last_pushed (a : list Z) (v : Z) :
  get (a ++ [v]) (len (a ++ [v]) - 1) = Some v.
Proof.
  rewrite len_app. change (len [v]) with 1.
  replace (len a + 1 - 1) with (len a) by lia. apply get_pushed.
Qed.

Lemma get_in (a : list Z) (i v : Z) : get a i = Some v -> In v a.
Proof.
  unfold get. destruct (i <? 0); [discriminate |]. apply nth_error_In.
Qed.

End ArrayFacts.

(** ** The loop of the fixed variant *)

Section FixedFacts.

Variable y : Z.
Hypothesis y_pos : 0 < y.

Lemma fixed_multiplier_is_ceilRule (prevR : Z) (ks : list Z) :
  1 < prevR ->
  (if Num.rem y prevR =? 0
   then ks ++ [Num.floorDiv y prevR]
   else ks ++ [Num.floorDiv y prevR + 1])
  = ks ++ [ceilRule y prevR].
Proof.
  intros Hp. unfold ceilRule, Num.floorDiv. rewrite rem_mod by lia.
  destruct (y mod prevR =? 0); reflexivity.
Qed.

Lemma ceilRule_nonneg (prevR : Z) : 0 < prevR -> 0 <= ceilRule y prevR.
Proof.
  intros Hp. unfold ceilRule.
  pose proof (Z.div_pos y prevR ltac:(lia) Hp).
  destruct (y mod prevR =? 0); lia.
Qed.

Lemma fixed_loop_spec (fuel : nat) :
  forall st st' : Fixed.state,
    fixedInv y st ->
    Fixed.loop fuel y st = Some st' ->
    length (Fixed.k st') = length (Fixed.r st')
    /\ inRange y (Fixed.r st')
    /\ Forall notFinalValues (Fixed.log st')
    /\ exists ks rs,
        Fixed.k st' = Fixed.k st ++ ks
        /\ Fixed.r st' = Fixed.r st ++ rs
        /\ forall prev, get (Fixed.r st) (Fixed.n st - 1) = Some prev ->
                        followsRule y prev ks rs.
Proof.
  induction fuel as [| fuel IH]; intros st st' Hinv Hrun; [discriminate |].
  destruct Hinv as (Hlen & Hn & Hrange & Hlog).
  assert (Hstop : st' = st ->
                  length (Fixed.k st') = length (Fixed.r st')
                  /\ inRange y (Fixed.r st')
                  /\ Forall notFinalValues (Fixed.log st')
                  /\ exists ks rs,
                      Fixed.k st' = Fixed.k st ++ ks
                      /\ Fixed.r st' = Fixed.r st ++ rs
                      /\ forall prev, get (Fixed.r st) (Fixed.n st - 1) = Some prev ->
                                      followsRule y prev ks rs).
  { intros ->. repeat split; try assumption.
    exists [], []. rewrite !app_nil_r. repeat split. }
  simpl in Hrun.
  destruct (get (Fixed.r st) (Fixed.n st - 1)) as [prevR |] eqn:Hprev;
    [| injection Hrun as <-; apply Hstop; reflexivity].
  destruct (Z.ltb_spec 1 prevR) as [Hp | Hp]; simpl in Hrun;
    [| injection Hrun as <-; apply Hstop; reflexivity].
  destruct (Fixed.n st <? Fixed.maxIterations); simpl in Hrun;
    [| injection Hrun as <-; apply Hstop; reflexivity].
  clear Hstop.
  rewrite fixed_multiplier_is_ceilRule in Hrun by assumption.
  assert (Hk : get (Fixed.k st ++ [ceilRule y prevR]) (Fixed.n st)
               = Some (ceilRule y prevR)).
  { rewrite Hn. replace (len (Fixed.r st)) with (len (Fixed.k st))
      by (unfold len; congruence).
    apply get_pushed. }
  rewrite Hk in Hrun. simpl in Hrun.
  set (kn := ceilRule y prevR) in *.
  set (newR := Num.rem (Num.mul prevR kn) y) in *.
  assert (HnewR : 0 <= newR < y).
  { apply rem_range; [| assumption].
    apply mul_nonneg; [lia | apply ceilRule_nonneg; lia]. }
  assert (Hlen' : length (Fixed.k st ++ [kn]) = length (Fixed.r st ++ [newR]))
    by (rewrite !length_app; simpl; lia).
  assert (Hrange' : inRange y (Fixed.r st ++ [newR]))
    by (apply Forall_app; split; [assumption | repeat constructor; lia]).
  assert (Hone : forall prev, Some prevR = Some prev -> followsRule y prev [kn] [newR])
    by (intros prev [= <-]; simpl; auto).
  destruct (newR =? 0).
  { injection Hrun as <-. simpl. repeat split; try assumption.
    - repeat (apply Forall_app; split; try assumption); repeat constructor.
    - exists [kn], [newR]. auto. }
  destruct (prevR <=? newR).
  { injection Hrun as <-. simpl. repeat split; try assumption.
    - repeat (apply Forall_app; split; try assumption); repeat constructor.
    - exists [kn], [newR]. auto. }
  apply IH in Hrun.
  - simpl in Hrun. destruct Hrun as (Hl & Hr & Hlg & ks & rs & Hks & Hrs & Hrule).
    repeat split; try assumption.
    exists (kn :: ks), (newR :: rs).
    rewrite Hks, Hrs, <- !app_assoc. simpl.
    split; [reflexivity |]. split; [reflexivity |].
    intros prev [= <-]. split; [reflexivity |]. split; [reflexivity |].
    apply Hrule. rewrite Hn.
    replace (len (Fixed.r st) + 1 - 1) with (len (Fixed.r st)) by lia.
    apply get_pushed.
  - unfold fixedInv. simpl. repeat split; try assumption.
    + rewrite len_app. change (len [newR]) with 1. lia.
    + apply Forall_app; split; [assumption | repeat constructor].
Qed.

Lemma checkSpecialCases_message (fuel : nat) (x : Z) (sp : Fixed.special) :
  Fixed.checkSpecialCases fuel x y = Some sp ->
  Forall notFinalValues (Fixed.message sp).
Proof.
  unfold Fixed.checkSpecialCases.
  destruct ((x =? 0) || (y =? 0)).
  - intros [= <-]. simpl.
    destruct (x =? 0); destruct (y =? 0); repeat constructor.
  - destruct (Fixed.gcd fuel x y) as [g |]; simpl; [| discriminate].
    destruct (negb (g =? 1)); intros [= <-]; repeat constructor.
Qed.

(** The trace that [inverseModFull] reports: as many multipliers as
    remainders, the first multiplier is [floor (y / (x mod y)) + 1], the later
    ones follow [ceilRule], and the remainders are in range. *)
Lemma fixed_trace (fuel : nat) (x : Z) (res : Fixed.outcome) (k r : list Z) (z : Z) :
  0 < x ->
  Fixed.inverseModFull fuel x y = Some res ->
  In (FinalValues x y k r z) (Fixed.result res) ->
  length r = length k
  /\ inRange y r
  /\ (exists ks r1 rs,
         k = (y / (x mod y) + 1) :: ks
         /\ r = r1 :: rs
         /\ r1 = Num.rem (Num.mul (x mod y) (y / (x mod y) + 1)) y
         /\ followsRule y r1 ks rs)
  /\ z = match get r (len r - 1) with
         | Some 1 => Fixed.productMod k y
         | _ => 0
         end
  /\ Fixed.z res = z
  /\ 0 < x mod y.
Proof.
  intros Hx. unfold Fixed.inverseModFull.
  destruct (Fixed.checkSpecialCases fuel x y) as [sp |] eqn:Hsp; simpl;
    [| discriminate].
  pose proof (checkSpecialCases_message _ _ _ Hsp) as Hmsg.
  destruct (Fixed.isSpecialCase sp).
  { intros [= <-]. simpl. intros [H | H]; [discriminate |].
    rewrite Forall_forall in Hmsg. destruct (Hmsg _ H). }
  destruct (Num.rem x y =? 0) eqn:Hcx.
  { intros [= <-]. simpl. intros [H | [H | []]]; discriminate. }
  assert (Hrem : Num.rem x y = x mod y) by (apply rem_mod; lia).
  assert (Hcur : 0 < x mod y).
  { pose proof (Z.mod_pos_bound x y y_pos). apply Z.eqb_neq in Hcx. lia. }
  rewrite Hrem in *. unfold Num.floorDiv.
  set (k1 := y / (x mod y) + 1).
  assert (Hk1 : 0 <= k1).
  { unfold k1. pose proof (Z.div_pos y (x mod y) ltac:(lia) Hcur). lia. }
  change (get [k1] 0) with (Some k1). simpl bind at 1.
  set (r1 := Num.rem (Num.mul (x mod y) k1) y).
  change (get [r1] 0) with (Some r1). simpl bind at 1.
  assert (Hr1 : 0 <= r1 < y)
    by (apply rem_range; [apply mul_nonneg; lia | assumption]).
  destruct (Fixed.loop fuel y _) as [st |] eqn:Hloop; simpl; [| discriminate].
  apply fixed_loop_spec in Hloop.
  2:{ unfold fixedInv. simpl. repeat split; repeat constructor; lia. }
  simpl in Hloop.
  destruct Hloop as (Hlen & Hrange & Hlog & ks & rs & Hks & Hrs & Hrule).
  intros [= <-]. simpl. intros Hin.
  assert (Heq : FinalValues x y k r z
                = FinalValues x y (Fixed.k st) (Fixed.r st)
                    match get (Fixed.r st) (len (Fixed.r st) - 1) with
                    | Some 1 => Fixed.productMod (Fixed.k st) y
                    | _ => 0
                    end).
  { destruct (get (Fixed.r st) (len (Fixed.r st) - 1)) as [[| [| |] |] |];
      apply in_app_or in Hin; destruct Hin as [Hin | Hin];
      try (apply in_app_or in Hin; destruct Hin as [Hin | Hin]);
      try (rewrite Forall_forall in Hlog; destruct (Hlog _ Hin));
      simpl in Hin; repeat (destruct Hin as [Hin | Hin]; try discriminate);
      try contradiction; symmetry; exact Hin. }
  injection Heq as -> -> ->.
  split; [congruence |]. split; [assumption |].
  split; [| split; [reflexivity | split; [reflexivity | assumption]]].
  exists ks, r1, rs. rewrite Hks, Hrs. simpl.
  split; [reflexivity |]. split; [reflexivity |]. split; [reflexivity |].
  apply Hrule. reflexivity.
Qed.

(** The iteration cap bounds the loop: with more fuel than the iterations
    still allowed, the loop returns. *)
Lemma fixed_loop_returns (fuel : nat) :
  forall st : Fixed.state,
    Fixed.n st = len (Fixed.k st) ->
    (Z.to_nat (Fixed.maxIterations - Fixed.n st) < fuel)%nat ->
    exists st', Fixed.loop fuel y st = Some st'.
Proof.
  induction fuel as [| fuel IH]; intros st Hn Hfuel; [lia |].
  simpl.
  destruct (get (Fixed.r st) (Fixed.n st - 1)) as [prevR |];
    [| eexists; reflexivity].
  destruct (1 <? prevR); simpl; [| eexists; reflexivity].
  destruct (Z.ltb_spec (Fixed.n st) Fixed.maxIterations); simpl;
    [| eexists; reflexivity].
  assert (Hget : forall v, get (Fixed.k st ++ [v]) (Fixed.n st) = Some v)
    by (intros v; rewrite Hn; apply get_pushed).
  destruct (Num.rem y prevR =? 0); rewrite Hget; simpl;
    (destruct (_ =? 0); [eexists; reflexivity |]);
    (destruct (prevR <=? _); [eexists; reflexivity |]);
    (apply IH; cbn [Fixed.n Fixed.k];
     [rewrite len_app; unfold len at 2; simpl; lia | lia]).
Qed.

Lemma fixed_returns (fuel : nat) (x : Z) :
  0 < x -> (Z.to_nat (Z.max y Fixed.maxIterations) < fuel)%nat ->
  exists res, Fixed.inverseModFull fuel x y = Some res.
Proof.
  intros Hx Hfuel. unfold Fixed.inverseModFull.
  destruct (Z.eq_dec (Z.gcd x y) 1) as [Hg | Hg].
  - rewrite checkSpecialCases_coprime by lia. simpl.
    destruct (Num.rem x y =? 0); [eexists; reflexivity |].
    change (get [?v] 0) with (Some v). simpl bind at 1.
    change (get [?v] 0) with (Some v). simpl bind at 1.
    match goal with
    | |- context [Fixed.loop fuel y ?st] =>
        destruct (fixed_loop_returns fuel st) as [st' ->];
        [reflexivity | simpl; unfold Fixed.maxIterations in *; lia |]
    end.
    simpl. eexists. reflexivity.
  - rewrite checkSpecialCases_not_coprime by lia. simpl. eexists. reflexivity.
Qed.

End FixedFacts.


(** ** The multiplier rule and the shape of the traces *)

(** C5, amended.  For a modulus up to 2^52, where the sums of the code are
    exact: the fixed variant computes its first multiplier as
    [floor (modulus / r) + 1] for the seed [r = base mod modulus]; each later
    multiplier is [ceilRule]: [modulus / r] when the current remainder [r]
    divides the modulus, [floor (modulus / r) + 1] otherwise.  In a path
    that the humanized search returns, with configured offsets up to 2^52,
    each multiplier is [ceilRule] of the current remainder plus one of the
    configured offsets; a base that is 1 modulo the modulus is left out: it
    is answered without a search, with the multiplier 1. *)
Theorem multiplier_rule (fuel : nat) (base modulus : Z) (o : Humanized.options) :
  0 < base -> 0 < modulus <= 2 ^ 52 ->
  safeOffsets (Humanized.settingsOf o) ->
  (Z.to_nat (Z.max modulus Fixed.maxIterations) < fuel)%nat ->
  (Z.to_nat (Humanized.maxDepth (Humanized.settingsOf o)) < fuel)%nat ->
  (exists res : Fixed.outcome,
      Fixed.inverseModFull fuel base modulus = Some res
      /\ forall (k r : list Z) (z : Z),
          In (FinalValues base modulus k r z) (Fixed.result res) ->
          exists ks r1 rs,
            k = (modulus / (base mod modulus) + 1) :: ks
            /\ r = r1 :: rs
            /\ r1 = Num.rem (Num.mul (base mod modulus)
                                (modulus / (base mod modulus) + 1)) modulus
            /\ followsRule modulus r1 ks rs)
  /\ (exists res : Humanized.search,
         Humanized.findInverseWithBacktracking fuel base modulus o = Some res
         /\ (Humanized.found res = true ->
             base mod modulus <> 1 ->
             exists rs,
               Humanized.remainders res = base mod modulus :: rs
               /\ followsOffsetRule
                    (Humanized.multiplierOffsets (Humanized.settingsOf o))
                    modulus (base mod modulus) (Humanized.multipliers res) rs)).
Proof.
  intros Hb [Hm _] _ Hfuel Hdepth. split.
  - destruct (fixed_returns modulus Hm fuel base Hb Hfuel) as [res Hrun].
    exists res. split; [exact Hrun |]. intros k r z Hin.
    destruct (fixed_trace modulus Hm fuel base res k r z Hb Hrun Hin)
      as (_ & _ & H & _ & _ & _). exact H.
  - destruct (findInverse_returns modulus fuel base o Hdepth) as [res Hrun].
    exists res. split; [exact Hrun |]. intros Hfound Hne.
    destruct (findInverse_cases modulus Hm fuel base o res Hrun)
      as [[_ ->] | [[H1 _] | (H0 & _ & [[Hf _] | (_ & _ & rs & Hr & Hd)])]];
      try discriminate; try contradiction; try congruence.
    exists rs. split; [exact Hr |].
    apply descends_offsetRule; try assumption.
    pose proof (Z.mod_pos_bound base modulus Hm). lia.
Qed.

Lemma multiplier_rule_witness :
  (exists res : Fixed.outcome,
      Fixed.inverseModFull 101 5 12 = Some res
      /\ forall (k r : list Z) (z : Z),
          In (FinalValues 5 12 k r z) (Fixed.result res) ->
          exists ks r1 rs,
            k = (12 / (5 mod 12) + 1) :: ks
            /\ r = r1 :: rs
            /\ r1 = Num.rem (Num.mul (5 mod 12) (12 / (5 mod 12) + 1)) 12
            /\ followsRule 12 r1 ks rs)
  /\ (exists res : Humanized.search,
         Humanized.findInverseWithBacktracking 101 5 12 Humanized.noOptions
         = Some res
         /\ (Humanized.found res = true ->
             5 mod 12 <> 1 ->
             exists rs,
               Humanized.remainders res = 5 mod 12 :: rs
               /\ followsOffsetRule
                    (Humanized.multiplierOffsets
                       (Humanized.settingsOf Humanized.noOptions))
                    12 (5 mod 12) (Humanized.multipliers res) rs)).
Proof.
  apply (multiplier_rule 101 5 12 Humanized.noOptions).
  - lia.
  - lia.
  - repeat constructor; discriminate.
  - apply Nat.ltb_lt. reflexivity.
  - apply Nat.ltb_lt. reflexivity.
Defined.

(** C6, amended.  For a modulus up to 2^52, where the sums of the code are
    exact: in every result of the humanized search the remainders lie in
    [[0, modulus)], and unless the base is 1 modulo the modulus the
    remainder sequence is one longer than the multiplier sequence and starts
    with the seed [base mod modulus].  The trace that the fixed variant
    reports does not hold the seed: it has exactly as many remainders as
    multipliers, all in [[0, modulus)]. *)
Theorem trace_shape (fuel : nat) (base modulus : Z) (o : Humanized.options) :
  0 < base -> 0 < modulus <= 2 ^ 52 ->
  (Z.to_nat (Z.max modulus Fixed.maxIterations) < fuel)%nat ->
  (Z.to_nat (Humanized.maxDepth (Humanized.settingsOf o)) < fuel)%nat ->
  (exists res : Humanized.search,
      Humanized.findInverseWithBacktracking fuel base modulus o = Some res
      /\ inRange modulus (Humanized.remainders res)
      /\ (base mod modulus <> 1 ->
          length (Humanized.remainders res) = S (length (Humanized.multipliers res))
          /\ hd_error (Humanized.remainders res) = Some (base mod modulus)))
  /\ (exists res : Fixed.outcome,
         Fixed.inverseModFull fuel base modulus = Some res
         /\ forall (k r : list Z) (z : Z),
             In (FinalValues base modulus k r z) (Fixed.result res) ->
             length r = length k /\ inRange modulus r).
Proof.
  intros Hb [Hm _] Hfuel Hdepth.
  pose proof (Z.mod_pos_bound base modulus Hm) as Hmod. split.
  - destruct (findInverse_returns modulus fuel base o Hdepth) as [res Hrun].
    exists res. split; [exact Hrun |].
    destruct (findInverse_cases modulus Hm fuel base o res Hrun)
      as [[H0 ->] | [[H1 ->] | (H0 & H1 & [(_ & _ & Hk & Hr) | (_ & _ & rs & Hr & Hd)])]];
      simpl.
    + split; [repeat constructor; lia |]. intros _. rewrite H0. auto.
    + split; [repeat constructor; lia |]. intros Hne. contradiction.
    + rewrite Hk, Hr. simpl. split; [repeat constructor; lia |]. auto.
    + rewrite Hr. simpl. split.
      * constructor; [lia |]. eapply descends_range; try eassumption. lia.
      * intros _. rewrite (descends_length _ _ _ _ _ Hd). auto.
  - destruct (fixed_returns modulus Hm fuel base Hb Hfuel) as [res Hrun].
    exists res. split; [exact Hrun |]. intros k r z Hin.
    destruct (fixed_trace modulus Hm fuel base res k r z Hb Hrun Hin)
      as (Hlen & Hrange & _ & _ & _ & _). auto.
Qed.

Lemma trace_shape_witness :
  (exists res : Humanized.search,
      Humanized.findInverseWithBacktracking 101 3 7 Humanized.noOptions = Some res
      /\ inRange 7 (Humanized.remainders res)
      /\ (3 mod 7 <> 1 ->
          length (Humanized.remainders res) = S (length (Humanized.multipliers res))
          /\ hd_error (Humanized.remainders res) = Some (3 mod 7)))
  /\ (exists res : Fixed.outcome,
         Fixed.inverseModFull 101 3 7 = Some res
         /\ forall (k r : list Z) (z : Z),
             In (FinalValues 3 7 k r z) (Fixed.result res) ->
             length r = length k /\ inRange 7 r).
Proof.
  apply (trace_shape 101 3 7 Humanized.noOptions).
  - lia.
  - lia.
  - apply Nat.ltb_lt. reflexivity.
  - apply Nat.ltb_lt. reflexivity.
Defined.

(** ** Validity of the humanized search on safe integers *)

Section ValidityFacts.

Variable s : Humanized.settings.
Variable modulus : Z.
Hypothesis modulus_lo : 1 < modulus.
Hypothesis modulus_hi : modulus <= 2 ^ 26.
Hypothesis offsets_small : smallOffsets s.

Lemma ceilDiv_le (cur : Z) : 0 < cur -> Humanized.ceilDiv modulus cur <= modulus.
Proof.
  intros Hc. unfold Humanized.ceilDiv, Num.floorDiv.
  apply Z.lt_succ_r. apply Z.div_lt_upper_bound; nia.
Qed.

(** Along a descent no product is rounded, so the multipliers multiply the
    starting remainder to 1 modulo the modulus. *)
Lemma descends_product (cur : Z) (ks rs : list Z) :
  descends s modulus cur ks rs -> 0 < cur < modulus ->
  (cur * product ks) mod modulus = 1
  /\ Forall (fun m => 0 < m <= 2 ^ 27) ks.
Proof.
  induction 1 as [| cur offset next ks rs Hin Hpos Hnext Hnz Hlt Hd IH];
    intros Hcur.
  - simpl. split; [apply Z.mod_small; lia | constructor].
  - assert (Hoff : offset <= 2 ^ 26).
    { unfold smallOffsets in offsets_small.
      rewrite Forall_forall in offsets_small. auto. }
    pose proof (ceilDiv_le cur ltac:(lia)) as Hceil.
    set (m := Humanized.ceilDiv modulus cur + offset) in *.
    assert (Hm : 0 < m <= 2 ^ 27) by lia.
    assert (Hexact : Num.mul cur m = cur * m) by (apply mul_exact; nia).
    assert (Hnext' : next = (cur * m) mod modulus).
    { rewrite Hnext, Hexact. apply rem_mod; nia. }
    assert (Hrange : 0 <= next < modulus)
      by (rewrite Hnext'; apply Z.mod_pos_bound; lia).
    destruct (IH ltac:(lia)) as [Hprod Hall].
    split; [| constructor; assumption].
    simpl. replace (cur * (m * product ks)) with (cur * m * product ks) by ring.
    rewrite <- Z.mul_mod_idemp_l by lia. rewrite <- Hnext'. exact Hprod.
Qed.

(** The running inverse [inverse = (inverse * multiplier) % modulus] is the
    exact product modulo the modulus. *)
Lemma running_inverse (ks : list Z) :
  Forall (fun m => 0 < m <= 2 ^ 27) ks ->
  forall a, 0 <= a < modulus ->
    fold_left (fun inverse multiplier =>
                 Num.rem (Num.mul inverse multiplier) modulus) ks a
    = (a * product ks) mod modulus.
Proof.
  induction 1 as [| m ks Hm Hall IH]; intros a Ha; simpl.
  - rewrite Z.mul_1_r. symmetry. apply Z.mod_small. assumption.
  - assert (Hexact : Num.mul a m = a * m) by (apply mul_exact; nia).
    rewrite Hexact, rem_mod by nia.
    rewrite IH by (apply Z.mod_pos_bound; lia).
    rewrite Z.mul_mod_idemp_l by lia. f_equal. ring.
Qed.

(** A successful search returns an inverse of the base. *)
Lemma found_inverse_valid (fuel : nat) (base : Z) (o : Humanized.options)
    (res : Humanized.search) :
  s = Humanized.settingsOf o ->
  Humanized.findInverseWithBacktracking fuel base modulus o = Some res ->
  Humanized.found res = true ->
  (Humanized.inverse res * base) mod modulus = 1.
Proof.
  intros Hs Hrun Hfound.
  pose proof (Z.mod_pos_bound base modulus ltac:(lia)) as Hmod.
  destruct (findInverse_cases modulus ltac:(lia) fuel base o res Hrun)
    as [[_ ->] | [[H1 ->] | (H0 & H1 & [[Hf _] | (_ & Hinv & rs & Hr & Hd)])]];
    try discriminate; try congruence.
  - cbn [Humanized.inverse]. rewrite Z.mul_1_l. exact H1.
  - rewrite <- Hs in Hd.
    destruct (descends_product _ _ _ Hd ltac:(lia)) as [Hprod Hall].
    rewrite Hinv, running_inverse by (assumption || lia).
    rewrite Z.mul_1_l, Z.mul_mod_idemp_l, <- Z.mul_mod_idemp_r by lia.
    rewrite Z.mul_comm. exact Hprod.
Qed.

End ValidityFacts.

(** C2, amended.  For every coprime pair with [1 < modulus <= 2^26] (and
    offsets of at most 2^26) the entry point [computeModularInverse], whose
    only mode is the heuristic search, returns: either success, by the
    heuristic method, with an inverse that satisfies
    [(inverse * base) mod modulus = 1], or, when the bounded search finds
    nothing, the failure [SearchFailed] with no inverse.  There is no
    fallback on the extended Euclidean algorithm. *)
Theorem heuristic_only_entry_point (fuel : nat) (base modulus : Z)
    (o : Humanized.options) :
  1 < modulus -> modulus <= 2 ^ 26 ->
  smallOffsets (Humanized.settingsOf o) ->
  Z.gcd base modulus = 1 ->
  (Z.to_nat modulus < fuel)%nat ->
  (Z.to_nat (Humanized.maxDepth (Humanized.settingsOf o)) < fuel)%nat ->
  exists ans : Humanized.answer,
    Humanized.computeModularInverse fuel base modulus o = Some ans
    /\ ((Humanized.success ans = true
         /\ Humanized.answerMethod ans = Humanized.heuristic
         /\ exists inverse,
             Humanized.answerInverse ans = Some inverse
             /\ (inverse * base) mod modulus = 1)
        \/ ans = {| Humanized.success := false;
                    Humanized.answerInverse := None;
                    Humanized.answerMethod := Humanized.none;
                    Humanized.answerDetails := None;
                    Humanized.answerReason := Some Humanized.SearchFailed |}).
Proof.
  intros Hlo Hhi Hoff Hg Hfuel Hdepth.
  unfold Humanized.computeModularInverse.
  destruct (Z.leb_spec modulus 0); [lia |].
  rewrite computeGreatestCommonDivisor_returns by lia. simpl.
  rewrite Hg. simpl.
  destruct (findInverse_returns modulus fuel base o Hdepth) as [res Hrun].
  rewrite Hrun. simpl.
  destruct (Humanized.found res) eqn:Hfound.
  - eexists. split; [reflexivity |]. left. simpl.
    split; [reflexivity |]. split; [reflexivity |].
    exists (Humanized.inverse res). split; [reflexivity |].
    eapply found_inverse_valid; try eassumption. reflexivity.
  - eexists. split; [reflexivity |]. right. reflexivity.
Qed.

Lemma heuristic_only_entry_point_witness :
  exists ans : Humanized.answer,
    Humanized.computeModularInverse 65 31 37 Humanized.noOptions = Some ans
    /\ ((Humanized.success ans = true
         /\ Humanized.answerMethod ans = Humanized.heuristic
         /\ exists inverse,
             Humanized.answerInverse ans = Some inverse
             /\ (inverse * 31) mod 37 = 1)
        \/ ans = {| Humanized.success := false;
                    Humanized.answerInverse := None;
                    Humanized.answerMethod := Humanized.none;
                    Humanized.answerDetails := None;
                    Humanized.answerReason := Some Humanized.SearchFailed |}).
Proof.
  apply (heuristic_only_entry_point 65 31 37 Humanized.noOptions).
  - lia.
  - lia.
  - repeat constructor; lia.
  - reflexivity.
  - apply Nat.ltb_lt. reflexivity.
  - apply Nat.ltb_lt. reflexivity.
Defined.

(** ** The parity-aware backtrack *)

Section BacktrackFacts.

Lemma get_set_nth (a : list Z) (i : nat) (v : Z) :
  (i < length a)%nat -> get (set_nth a i v) (Z.of_nat i) = Some v.
Proof.
  intros Hi. unfold get. destruct (Z.ltb_spec (Z.of_nat i) 0) as [Hneg | _]; [lia |].
  rewrite Nat2Z.id. revert i Hi.
  induction a as [| h t IH]; intros [| i] Hi; simpl in *; try lia.
  - reflexivity.
  - apply IH. lia.
Qed.

Lemma length_set_nth (a : list Z) (i : nat) (v : Z) :
  length (set_nth a i v) = length a.
Proof.
  revert i. induction a as [| h t IH]; intros [| i]; simpl; auto.
Qed.

(** [findEarliestOddKIndex] returns -1 when no multiplier is odd, and
    otherwise the index of an odd multiplier before which none is odd. *)
Lemma findFrom_spec (kList : list Z) :
  forall i : Z,
    0 <= i ->
    (Backtrack.findFrom i kList = -1 /\ Forall (fun v => ~ isOdd v) kList)
    \/ (exists (j : nat) (v : Z),
           Backtrack.findFrom i kList = i + Z.of_nat j
           /\ nth_error kList j = Some v
           /\ isOdd v
           /\ Forall (fun v => ~ isOdd v) (firstn j kList)).
Proof.
  induction kList as [| ki kList IH]; intros i Hi; simpl.
  - left. split; [reflexivity | constructor].
  - destruct (Z.eqb_spec (Num.rem ki 2) 1) as [Hodd | Heven].
    + right. exists 0%nat, ki. simpl. repeat split; try lia; auto.
    + destruct (IH (i + 1) ltac:(lia)) as [[Hnone Hall] | (j & v & Hj & Hv & Hodd & Hbefore)].
      * left. split; [exact Hnone | constructor; assumption].
      * right. exists (S j), v. simpl. repeat split; try assumption; [lia |].
        constructor; assumption.
Qed.

(** [recalcRemaindersWithGivenK], when it does not run into a zero, keeps
    the length of the list it is given, never lowers a multiplier, and
    returns the remainders that the multipliers it leaves in the list
    produce. *)
Lemma recalcFrom_spec (fuel : nat) (y : Z) (kRest : list Z) :
  forall (i prev : Z) (kDone r : list Z) (log : list line) (rc : Backtrack.recalc),
    Backtrack.recalcFrom fuel y i prev kDone kRest r log = Some rc ->
    Backtrack.failedAtZero rc = false ->
    exists ks,
      Backtrack.kListOf rc = kDone ++ ks
      /\ Forall2 Z.le kRest ks
      /\ Backtrack.rOf rc = r ++ remaindersFrom y prev ks.
Proof.
  induction kRest as [| ki kRest IH]; intros i prev kDone r log rc Hrun Hok;
    simpl in Hrun.
  - injection Hrun as <-. exists []. simpl. rewrite !app_nil_r. auto.
  - destruct (Backtrack.normalizeKForBounds fuel prev y ki) as [k |] eqn:Hnorm;
      simpl in Hrun; [| discriminate].
    assert (Hle : ki <= k).
    { clear - Hnorm. revert ki Hnorm.
      induction fuel as [| fuel IHf]; intros ki Hnorm; simpl in Hnorm;
        [discriminate |].
      destruct (Num.mul ki prev <=? y).
      - apply IHf in Hnorm. lia.
      - injection Hnorm as <-. lia. }
    destruct (Num.rem (Num.mul prev k) y =? 0).
    + injection Hrun as <-. simpl in Hok. discriminate.
    + destruct (IH _ _ _ _ _ _ Hrun Hok) as (ks & Hk & Hall & Hr).
      exists (k :: ks). rewrite Hk, Hr, <- !app_assoc. simpl.
      repeat split; auto.
Qed.

Lemma recalc_spec (fuel : nat) (x y : Z) (kList : list Z) (rc : Backtrack.recalc) :
  Backtrack.recalcRemaindersWithGivenK fuel x y kList = Some rc ->
  Backtrack.failedAtZero rc = false ->
  Forall2 Z.le kList (Backtrack.kListOf rc)
  /\ Backtrack.rOf rc = remaindersFrom y (Num.rem x y) (Backtrack.kListOf rc).
Proof.
  unfold Backtrack.recalcRemaindersWithGivenK.
  destruct (Num.rem x y =? 0).
  - intros [= <-]. simpl. discriminate.
  - intros Hrun Hok.
    destruct (recalcFrom_spec _ _ _ _ _ _ _ _ _ Hrun Hok) as (ks & Hk & Hall & Hr).
    simpl in Hk, Hr. rewrite Hk, Hr. auto.
Qed.

(** A run that ends on a zero remainder answers 0. *)
Lemma finish_after_zero (fuel : nat) (x y : Z) (st : Backtrack.state)
    (res : Backtrack.outcome) :
  get (Backtrack.r st) (len (Backtrack.r st) - 1) = Some 0 ->
  Backtrack.finish fuel x y st = Some res ->
  Backtrack.z res = 0.
Proof.
  intros Hlast. unfold Backtrack.finish. rewrite Hlast.
  destruct (Backtrack.extendedGcd fuel x y) as [eg |]; simpl; [| discriminate].
  intros [= <-]. reflexivity.
Qed.

End BacktrackFacts.

Lemma slice0_set_nth (a : list Z) (i : nat) (v w : Z) :
  nth_error a i = Some w ->
  slice0 (set_nth a i v) (Z.of_nat i + 1) = slice0 a (Z.of_nat i) ++ [v].
Proof.
  unfold slice0. replace (Z.to_nat (Z.of_nat i + 1)) with (S i) by lia.
  rewrite Nat2Z.id. revert i.
  induction a as [| h t IH]; intros [| i] Hi; simpl in *; try discriminate.
  - reflexivity.
  - f_equal. apply IH. exact Hi.
Qed.

(** What the parity block of the loop body is written to do, from any state
    of the loop in which [chooseK] hands it a zero remainder under an even
    modulus, after an even remainder, with the backtrack counter below its
    cap: if the multiplier sequence holds an odd multiplier, the earliest one
    is raised by 2, the multipliers up to and including it are kept, and the
    remainders are recomputed from the seed with that prefix (whose
    multipliers [normalizeKForBounds] may raise); unless the recomputation
    itself runs into a zero, the loop goes on from the recomputed prefix
    with the counter incremented.  If no multiplier is odd, the loop is left
    on the zero remainder.  In a run from positive inputs [chooseK] never
    hands over a zero remainder ([chooseK_never_zero] below), so that no run
    comes to this block. *)
Theorem parity_backtrack_step (fuel : nat) (x y prevR kn : Z)
    (adjusted : list line) (st : Backtrack.state) :
  Backtrack.chooseK fuel prevR y = Some (kn, 0, adjusted) ->
  Num.rem y 2 = 0 -> Num.rem prevR 2 = 0 ->
  Backtrack.backtrackCount st < Backtrack.maxBacktracks ->
  0 <= prevR -> 0 <= y -> (Z.to_nat y < fuel)%nat ->
  (0 <= Backtrack.findEarliestOddKIndex (Backtrack.k st ++ [kn]) ->
   exists kidx : Z,
     get (Backtrack.k st ++ [kn])
         (Backtrack.findEarliestOddKIndex (Backtrack.k st ++ [kn])) = Some kidx
     /\ isOdd kidx
     /\ Forall (fun v => ~ isOdd v)
          (slice0 (Backtrack.k st ++ [kn])
             (Backtrack.findEarliestOddKIndex (Backtrack.k st ++ [kn])))
     /\ forall rc : Backtrack.recalc,
         Backtrack.recalcRemaindersWithGivenK fuel x y
           (slice0 (Backtrack.k st ++ [kn])
              (Backtrack.findEarliestOddKIndex (Backtrack.k st ++ [kn]))
            ++ [kidx + 2]) = Some rc ->
         Backtrack.failedAtZero rc = false ->
         Backtrack.loopBody fuel x y prevR st
         = Some (Backtrack.Continue
                   {| Backtrack.k := Backtrack.kListOf rc;
                      Backtrack.r := Backtrack.rOf rc;
                      Backtrack.n := len (Backtrack.rOf rc);
                      Backtrack.backtrackCount := Backtrack.backtrackCount st + 1;
                      Backtrack.log :=
                        (Backtrack.log st ++ adjusted
                           ++ [Step (Backtrack.n st + 1) y prevR kn 0])
                        ++ [BacktrackParity (Backtrack.backtrackCount st + 1)
                              (Backtrack.findEarliestOddKIndex
                                 (Backtrack.k st ++ [kn]) + 1)
                              (kidx + 2)]
                        ++ Backtrack.resultLogAppend rc |})
         /\ len (Backtrack.kListOf rc)
            = Backtrack.findEarliestOddKIndex (Backtrack.k st ++ [kn]) + 1
         /\ Forall2 Z.le
              (slice0 (Backtrack.k st ++ [kn])
                 (Backtrack.findEarliestOddKIndex (Backtrack.k st ++ [kn]))
               ++ [kidx + 2])
              (Backtrack.kListOf rc)
         /\ Backtrack.rOf rc
            = remaindersFrom y (Num.rem x y) (Backtrack.kListOf rc))
  /\ (Backtrack.findEarliestOddKIndex (Backtrack.k st ++ [kn]) < 0 ->
      exists st' : Backtrack.state,
        Backtrack.loopBody fuel x y prevR st = Some (Backtrack.Break st')
        /\ Backtrack.k st' = Backtrack.k st ++ [kn]
        /\ Backtrack.r st' = Backtrack.r st ++ [0]
        /\ Backtrack.backtrackCount st' = Backtrack.backtrackCount st
        /\ Backtrack.log st'
           = (Backtrack.log st ++ adjusted
                ++ [Step (Backtrack.n st + 1) y prevR kn 0]) ++ [ReachedZero]
        /\ forall (fuel' : nat) (res : Backtrack.outcome),
            Backtrack.finish fuel' x y st' = Some res -> Backtrack.z res = 0).
Proof.
  intros Hchoose Hy Hp Hcount Hp0 Hy0 Hfuel.
  set (k' := Backtrack.k st ++ [kn]).
  unfold Backtrack.findEarliestOddKIndex.
  assert (Hbody :
            Backtrack.loopBody fuel x y prevR st
            = (parity <- Backtrack.parityBacktrack fuel x y prevR 0
                           {| Backtrack.k := k';
                              Backtrack.r := Backtrack.r st ++ [0];
                              Backtrack.n := Backtrack.n st;
                              Backtrack.backtrackCount := Backtrack.backtrackCount st;
                              Backtrack.log :=
                                Backtrack.log st ++ adjusted
                                  ++ [Step (Backtrack.n st + 1) y prevR kn 0] |} ;;
               match parity with
               | Some c => Some c
               | None =>
                   general <- Backtrack.gcdBacktrack fuel x y prevR 0
                                {| Backtrack.k := k';
                                   Backtrack.r := Backtrack.r st ++ [0];
                                   Backtrack.n := Backtrack.n st;
                                   Backtrack.backtrackCount :=
                                     Backtrack.backtrackCount st;
                                   Backtrack.log :=
                                     Backtrack.log st ++ adjusted
                                       ++ [Step (Backtrack.n st + 1) y prevR kn 0] |} ;;
                   match general with
                   | Some c => Some c
                   | None =>
                       Some (Backtrack.Break
                               {| Backtrack.k := k';
                                  Backtrack.r := Backtrack.r st ++ [0];
                                  Backtrack.n := Backtrack.n st;
                                  Backtrack.backtrackCount :=
                                    Backtrack.backtrackCount st;
                                  Backtrack.log :=
                                    (Backtrack.log st ++ adjusted
                                       ++ [Step (Backtrack.n st + 1) y prevR kn 0])
                                    ++ [ReachedZero] |})
                   end
               end)).
  { unfold Backtrack.loopBody. rewrite Hchoose. reflexivity. }
  rewrite Hbody. clear Hbody.
  unfold Backtrack.parityBacktrack, Backtrack.gcdBacktrack.
  cbn [Backtrack.k Backtrack.r Backtrack.n Backtrack.backtrackCount Backtrack.log].
  rewrite Hy, Hp. change (0 =? 0) with true. cbn [andb].
  destruct (Z.ltb_spec (Backtrack.backtrackCount st) Backtrack.maxBacktracks)
    as [_ | Hge]; [| lia].
  unfold Backtrack.findEarliestOddKIndex.
  destruct (findFrom_spec k' 0 ltac:(lia))
    as [[Hnone Hall] | (j & v & Hj & Hv & Hodd & Hbefore)].
  - rewrite Hnone. split; [intros H; lia | intros _].
    change (0 <=? -1) with false. cbn [bind].
    unfold Backtrack.gcd. rewrite gcd_returns by lia. cbn [bind].
    destruct ((1 <? Z.gcd prevR y) && true); cbn [bind];
      (eexists; split; [reflexivity |]; cbn;
       repeat split;
       intros fuel' res Hfin; eapply finish_after_zero; [| exact Hfin];
       cbn; apply get_last_pushed).
  - rewrite Hj. simpl (0 + Z.of_nat j). split; [intros _ | intros H; lia].
    assert (Hget : get k' (Z.of_nat j) = Some v).
    { unfold get. destruct (Z.ltb_spec (Z.of_nat j) 0); [lia |].
      rewrite Nat2Z.id. exact Hv. }
    assert (Hlt : (j < length k')%nat) by (apply nth_error_Some; congruence).
    exists v. split; [exact Hget |]. split; [exact Hodd |].
    split; [unfold slice0; rewrite Nat2Z.id; exact Hbefore |].
    intros rc Hrc Hok.
    destruct (Z.leb_spec 0 (Z.of_nat j)) as [_ | Hneg]; [| lia].
    rewrite Hget. cbn [bind]. rewrite Nat2Z.id.
    rewrite (slice0_set_nth k' j (v + 2) v Hv), Hrc. cbn [bind].
    rewrite get_set_nth by exact Hlt. cbn [bind]. rewrite Hok.
    destruct (recalc_spec _ _ _ _ _ Hrc Hok) as [Hle Hr].
    split; [reflexivity |]. split; [| split; assumption].
    unfold len. rewrite <- (Forall2_length Hle), length_app.
    unfold slice0. rewrite Nat2Z.id, length_firstn. simpl. lia.
Qed.

Lemma parity_backtrack_step_witness :
  (0 <= Backtrack.findEarliestOddKIndex (Backtrack.k trapState ++ [2]) ->
   exists kidx : Z,
     get (Backtrack.k trapState ++ [2])
         (Backtrack.findEarliestOddKIndex (Backtrack.k trapState ++ [2])) = Some kidx
     /\ isOdd kidx
     /\ Forall (fun v => ~ isOdd v)
          (slice0 (Backtrack.k trapState ++ [2])
             (Backtrack.findEarliestOddKIndex (Backtrack.k trapState ++ [2])))
     /\ forall rc : Backtrack.recalc,
         Backtrack.recalcRemaindersWithGivenK 20 5 12
           (slice0 (Backtrack.k trapState ++ [2])
              (Backtrack.findEarliestOddKIndex (Backtrack.k trapState ++ [2]))
            ++ [kidx + 2]) = Some rc ->
         Backtrack.failedAtZero rc = false ->
         Backtrack.loopBody 20 5 12 12 trapState
         = Some (Backtrack.Continue
                   {| Backtrack.k := Backtrack.kListOf rc;
                      Backtrack.r := Backtrack.rOf rc;
                      Backtrack.n := len (Backtrack.rOf rc);
                      Backtrack.backtrackCount := Backtrack.backtrackCount trapState + 1;
                      Backtrack.log :=
                        (Backtrack.log trapState ++ []
                           ++ [Step (Backtrack.n trapState + 1) 12 12 2 0])
                        ++ [BacktrackParity (Backtrack.backtrackCount trapState + 1)
                              (Backtrack.findEarliestOddKIndex
                                 (Backtrack.k trapState ++ [2]) + 1)
                              (kidx + 2)]
                        ++ Backtrack.resultLogAppend rc |})
         /\ len (Backtrack.kListOf rc)
            = Backtrack.findEarliestOddKIndex (Backtrack.k trapState ++ [2]) + 1
         /\ Forall2 Z.le
              (slice0 (Backtrack.k trapState ++ [2])
                 (Backtrack.findEarliestOddKIndex (Backtrack.k trapState ++ [2]))
               ++ [kidx + 2])
              (Backtrack.kListOf rc)
         /\ Backtrack.rOf rc
            = remaindersFrom 12 (Num.rem 5 12) (Backtrack.kListOf rc))
  /\ (Backtrack.findEarliestOddKIndex (Backtrack.k trapState ++ [2]) < 0 ->
      exists st' : Backtrack.state,
        Backtrack.loopBody 20 5 12 12 trapState = Some (Backtrack.Break st')
        /\ Backtrack.k st' = Backtrack.k trapState ++ [2]
        /\ Backtrack.r st' = Backtrack.r trapState ++ [0]
        /\ Backtrack.backtrackCount st' = Backtrack.backtrackCount trapState
        /\ Backtrack.log st'
           = (Backtrack.log trapState ++ []
                ++ [Step (Backtrack.n trapState + 1) 12 12 2 0]) ++ [ReachedZero]
        /\ forall (fuel' : nat) (res : Backtrack.outcome),
            Backtrack.finish fuel' 5 12 st' = Some res -> Backtrack.z res = 0).
Proof.
  apply (parity_backtrack_step 20 5 12 12 2 [] trapState).
  - vm_compute. reflexivity.
  - reflexivity.
  - reflexivity.
  - vm_compute. reflexivity.
  - lia.
  - lia.
  - apply Nat.ltb_lt. reflexivity.
Defined.

(** ** Termination of the parity-backtracking variant *)

Section BacktrackTermination.

Variable y : Z.
Hypothesis y_pos : 0 < y.

Lemma mul_above (k r : Z) : 0 < r -> 2 * y < k -> y < Num.mul k r.
Proof.
  intros Hr Hk. unfold Num.mul.
  pose proof (fl53_lower (k * r) ltac:(nia)). nia.
Qed.

(** [normalizeKForBounds] stops at the latest when [k] passes [2 * y]. *)
Lemma normalize_returns (fuel : nat) (rValue : Z) :
  0 < rValue ->
  forall k : Z,
    (Z.to_nat (2 * y + 1 - k) < fuel)%nat ->
    exists k', Backtrack.normalizeKForBounds fuel rValue y k = Some k' /\ k <= k'.
Proof.
  intros Hr. induction fuel as [| fuel IH]; intros k Hfuel; [lia |].
  simpl. destruct (Z.leb_spec (Num.mul k rValue) y) as [Hle | Hgt].
  - destruct (Z_le_gt_dec k (2 * y)) as [Hk | Hk].
    + destruct (IH (k + 1) ltac:(lia)) as (k' & -> & Hk').
      exists k'. split; [reflexivity | lia].
    + pose proof (mul_above k rValue Hr ltac:(lia)). lia.
  - exists k. split; [reflexivity | lia].
Qed.

Lemma recalcFrom_returns (fuel : nat) (kRest : list Z) :
  (Z.to_nat (2 * y + 1) < fuel)%nat ->
  Forall (fun v => 0 <= v) kRest ->
  forall (i prev : Z) (kDone r : list Z) (log : list line),
    0 < prev ->
    Forall (fun v => 0 <= v) kDone ->
    exists rc,
      Backtrack.recalcFrom fuel y i prev kDone kRest r log = Some rc
      /\ Forall (fun v => 0 <= v) (Backtrack.kListOf rc).
Proof.
  intros Hfuel. induction 1 as [| ki kRest Hki Hrest IH];
    intros i prev kDone r log Hprev Hdone; simpl.
  - eexists. split; [reflexivity | exact Hdone].
  - destruct (normalize_returns fuel prev Hprev ki ltac:(lia)) as (k & -> & Hk).
    simpl.
    assert (Hrem : 0 <= Num.rem (Num.mul prev k) y < y)
      by (apply rem_range; [apply mul_nonneg; lia | assumption]).
    destruct (Z.eqb_spec (Num.rem (Num.mul prev k) y) 0) as [H0 | H0].
    + eexists. split; [reflexivity |]. simpl.
      apply Forall_app. split; [assumption |]. constructor; [lia | assumption].
    + apply IH; [lia |].
      apply Forall_app. split; [assumption |]. repeat constructor. lia.
Qed.

Lemma recalc_returns (fuel : nat) (x : Z) (kList : list Z) :
  0 < x ->
  (Z.to_nat (2 * y + 1) < fuel)%nat ->
  Forall (fun v => 0 <= v) kList ->
  exists rc,
    Backtrack.recalcRemaindersWithGivenK fuel x y kList = Some rc
    /\ Forall (fun v => 0 <= v) (Backtrack.kListOf rc).
Proof.
  intros Hx Hfuel Hk. unfold Backtrack.recalcRemaindersWithGivenK.
  pose proof (rem_range x y ltac:(lia) y_pos) as Hrem.
  destruct (Z.eqb_spec (Num.rem x y) 0) as [H0 | H0].
  - eexists. split; [reflexivity | exact Hk].
  - apply recalcFrom_returns; try assumption; [lia | constructor].
Qed.

Lemma tweakFrom_nonneg (tweaks : nat) :
  forall tweak prevR currentK adjustedK adjustedR,
    0 <= tweak -> 0 <= currentK ->
    Backtrack.tweakFrom tweaks tweak prevR y currentK = Some (adjustedK, adjustedR) ->
    0 <= adjustedK.
Proof.
  induction tweaks as [| tweaks IH];
    intros tweak prevR currentK adjustedK adjustedR Ht Hk Hrun;
    simpl in Hrun; [discriminate |].
  destruct (_ && _).
  - injection Hrun as <- <-. lia.
  - eapply IH; [| | exact Hrun]; lia.
Qed.

Lemma chooseK_returns (fuel : nat) (prevR : Z) :
  1 < prevR ->
  (Z.to_nat (2 * y + 1) < fuel)%nat ->
  exists kn tentativeR adjusted,
    Backtrack.chooseK fuel prevR y = Some (kn, tentativeR, adjusted) /\ 0 <= kn.
Proof.
  intros Hp Hfuel. unfold Backtrack.chooseK, Backtrack.computeNextK.
  assert (Hdiv : 0 <= Num.floorDiv y prevR)
    by (unfold Num.floorDiv; apply Z.div_pos; lia).
  destruct (normalize_returns fuel prevR ltac:(lia) (Num.floorDiv y prevR + 1)
              ltac:(lia)) as (kn & -> & Hkn).
  simpl.
  assert (Htrap : exists trapped,
             (if (Num.rem (Num.mul prevR kn) y =? 0)
                 || (prevR <=? Num.rem (Num.mul prevR kn) y)
              then Some true
              else g <- Backtrack.gcd fuel prevR y ;;
                   Some ((1 <? g) && (Num.rem y 2 =? 0)))
             = Some trapped).
  { destruct (_ || _); [eexists; reflexivity |].
    unfold Backtrack.gcd. rewrite gcd_returns by lia. eexists. reflexivity. }
  destruct Htrap as [trapped ->]. simpl.
  destruct trapped.
  - destruct (Backtrack.tryLocalAdjustK prevR y kn) as [[adjustedK adjustedR] |] eqn:Hadj.
    + do 3 eexists. split; [reflexivity |].
      unfold Backtrack.tryLocalAdjustK in Hadj.
      eapply tweakFrom_nonneg; [| | exact Hadj]; lia.
    + do 3 eexists. split; [reflexivity | lia].
  - do 3 eexists. split; [reflexivity | lia].
Qed.

Lemma Forall_set_nth (P : Z -> Prop) (a : list Z) (i : nat) (v : Z) :
  Forall P a -> P v -> Forall P (set_nth a i v).
Proof.
  intros Ha Hv. revert i. induction Ha as [| h t Hh Ht IH]; intros [| i]; simpl;
    constructor; auto.
Qed.

Lemma Forall_slice0 (P : Z -> Prop) (a : list Z) (n : Z) :
  Forall P a -> Forall P (slice0 a n).
Proof.
  intros Ha. unfold slice0. generalize (Z.to_nat n) as m.
  induction Ha as [| h t Hh Ht IH]; intros [| m]; simpl; constructor; auto.
Qed.

(** Lines 198-218 and 225-238: what both backtrack blocks do once they are
    entered and an odd multiplier is looked for. *)
Lemma backtrack_block_returns (fuel : nat) (x : Z) (st : Backtrack.state)
    (mkLine : Z -> Z -> Z -> line) (keepOnZero : bool) :
  0 < x ->
  (Z.to_nat (2 * y + 1) < fuel)%nat ->
  backtrackInv st ->
  Backtrack.backtrackCount st < Backtrack.maxBacktracks ->
  exists out,
    (let idx := Backtrack.findEarliestOddKIndex (Backtrack.k st) in
     if 0 <=? idx then
       let backtrackCount := Backtrack.backtrackCount st + 1 in
       kidx <- get (Backtrack.k st) idx ;;
       let k := set_nth (Backtrack.k st) (Z.to_nat idx) (kidx + 2) in
       let kPrefix := slice0 k (idx + 1) in
       rc <- Backtrack.recalcRemaindersWithGivenK fuel x y kPrefix ;;
       kidx' <- get k idx ;;
       let log := Backtrack.log st ++ [mkLine backtrackCount (idx + 1) kidx']
                    ++ Backtrack.resultLogAppend rc in
       if Backtrack.failedAtZero rc && keepOnZero then
         Some (Some (Backtrack.Continue
                       {| Backtrack.k := k; Backtrack.r := Backtrack.rOf rc;
                          Backtrack.n := len (Backtrack.rOf rc);
                          Backtrack.backtrackCount := backtrackCount;
                          Backtrack.log := log |}))
       else
         Some (Some (Backtrack.Continue
                       {| Backtrack.k := Backtrack.kListOf rc;
                          Backtrack.r := Backtrack.rOf rc;
                          Backtrack.n := len (Backtrack.rOf rc);
                          Backtrack.backtrackCount := backtrackCount;
                          Backtrack.log := log |}))
     else Some None) = Some out
    /\ backtracked st out.
Proof.
  intros Hx Hfuel Hinv Hcount. cbv zeta.
  unfold Backtrack.findEarliestOddKIndex.
  destruct (findFrom_spec (Backtrack.k st) 0 ltac:(lia))
    as [[-> _] | (j & v & -> & Hv & _ & _)].
  - change (0 <=? -1) with false. exists None. split; [reflexivity | exact I].
  - simpl (0 + Z.of_nat j).
    destruct (Z.leb_spec 0 (Z.of_nat j)) as [_ | Hneg]; [| lia].
    assert (Hget : get (Backtrack.k st) (Z.of_nat j) = Some v).
    { unfold get. destruct (Z.ltb_spec (Z.of_nat j) 0); [lia |].
      rewrite Nat2Z.id. exact Hv. }
    assert (Hlt : (j < length (Backtrack.k st))%nat)
      by (apply nth_error_Some; congruence).
    assert (Hv0 : 0 <= v).
    { unfold backtrackInv in Hinv. rewrite Forall_forall in Hinv.
      apply Hinv. eapply nth_error_In. exact Hv. }
    rewrite Hget. cbn [bind]. rewrite Nat2Z.id.
    assert (Hset : Forall (fun v => 0 <= v) (set_nth (Backtrack.k st) j (v + 2)))
      by (apply Forall_set_nth; [exact Hinv | lia]).
    destruct (recalc_returns fuel x
                (slice0 (set_nth (Backtrack.k st) j (v + 2)) (Z.of_nat j + 1))
                Hx Hfuel)
      as (rc & -> & Hrc).
    { apply Forall_slice0. exact Hset. }
    cbn [bind]. rewrite get_set_nth by exact Hlt. cbn [bind].
    destruct (Backtrack.failedAtZero rc && keepOnZero);
      eexists; (split; [reflexivity |]); simpl;
      (split; [assumption |]); (split; [assumption |]);
      (split; [reflexivity | apply len_nonneg]).
Qed.

Lemma parityBacktrack_returns (fuel : nat) (x prevR newR : Z) (st : Backtrack.state) :
  0 < x ->
  (Z.to_nat (2 * y + 1) < fuel)%nat ->
  backtrackInv st ->
  exists out,
    Backtrack.parityBacktrack fuel x y prevR newR st = Some out
    /\ backtracked st out.
Proof.
  intros Hx Hfuel Hinv. unfold Backtrack.parityBacktrack.
  destruct (Z.ltb_spec (Backtrack.backtrackCount st) Backtrack.maxBacktracks)
    as [Hcount | Hcount].
  - destruct ((newR =? 0) && (Num.rem y 2 =? 0) && (Num.rem prevR 2 =? 0)); simpl.
    + destruct (backtrack_block_returns fuel x st BacktrackParity true
                  Hx Hfuel Hinv Hcount) as (out & Hout & Hb).
      cbv zeta in Hout. exists out. split; [| exact Hb].
      rewrite <- Hout.
      destruct (0 <=? Backtrack.findEarliestOddKIndex (Backtrack.k st));
        [| reflexivity].
      destruct (get (Backtrack.k st) _) as [kidx |]; [| reflexivity]. cbn [bind].
      destruct (Backtrack.recalcRemaindersWithGivenK _ _ _ _) as [rc |];
        [| reflexivity]. cbn [bind].
      destruct (get _ _) as [kidx' |]; [| reflexivity]. cbn [bind].
      rewrite andb_true_r. reflexivity.
    + exists None. split; [reflexivity | exact I].
  - rewrite andb_false_r. exists None. split; [reflexivity | exact I].
Qed.

Lemma gcdBacktrack_returns (fuel : nat) (x prevR newR : Z) (st : Backtrack.state) :
  0 < x -> 0 <= prevR ->
  (Z.to_nat (2 * y + 1) < fuel)%nat ->
  backtrackInv st ->
  exists out,
    Backtrack.gcdBacktrack fuel x y prevR newR st = Some out
    /\ backtracked st out.
Proof.
  intros Hx Hp Hfuel Hinv. unfold Backtrack.gcdBacktrack, Backtrack.gcd.
  destruct (newR =? 0); cbn [bind].
  - rewrite gcd_returns by lia. cbn [bind].
    destruct (Z.ltb_spec (Backtrack.backtrackCount st) Backtrack.maxBacktracks)
      as [Hcount | Hcount].
    + destruct (1 <? Z.gcd prevR y); simpl.
      * destruct (backtrack_block_returns fuel x st BacktrackGcd false
                    Hx Hfuel Hinv Hcount) as (out & Hout & Hb).
        cbv zeta in Hout. exists out. split; [| exact Hb].
        rewrite <- Hout.
        destruct (0 <=? Backtrack.findEarliestOddKIndex (Backtrack.k st));
          [| reflexivity].
        destruct (get (Backtrack.k st) _) as [kidx |]; [| reflexivity]. cbn [bind].
        destruct (Backtrack.recalcRemaindersWithGivenK _ _ _ _) as [rc |];
          [| reflexivity]. cbn [bind].
        destruct (get _ _) as [kidx' |]; [| reflexivity]. cbn [bind].
        rewrite andb_false_r. reflexivity.
      * exists None. split; [reflexivity | exact I].
    + rewrite andb_false_r. exists None. split; [reflexivity | exact I].
  - exists None. split; [reflexivity | exact I].
Qed.

(** One run of the loop body returns; when it goes round again it has used
    up an iteration or a backtrack. *)
Lemma loopBody_returns (fuel : nat) (x prevR : Z) (st : Backtrack.state) :
  0 < x -> 1 < prevR ->
  (Z.to_nat (2 * y + 1) < fuel)%nat ->
  backtrackInv st ->
  Backtrack.n st < Backtrack.maxIterations ->
  exists c,
    Backtrack.loopBody fuel x y prevR st = Some c
    /\ match c with
       | Backtrack.Continue st' =>
           backtrackInv st' /\ backtrackMeasure st' < backtrackMeasure st
       | Backtrack.Break _ => True
       end.
Proof.
  intros Hx Hp Hfuel Hinv Hn. unfold Backtrack.loopBody.
  destruct (chooseK_returns fuel prevR Hp Hfuel)
    as (kn & tentativeR & adjusted & -> & Hkn).
  cbn [bind].
  set (st1 := {| Backtrack.k := Backtrack.k st ++ [kn];
                 Backtrack.r := Backtrack.r st ++ [tentativeR];
                 Backtrack.n := Backtrack.n st;
                 Backtrack.backtrackCount := Backtrack.backtrackCount st;
                 Backtrack.log :=
                   Backtrack.log st ++ adjusted
                     ++ [Step (Backtrack.n st + 1) y prevR kn tentativeR] |}).
  assert (Hinv1 : backtrackInv st1).
  { unfold backtrackInv, st1. simpl. apply Forall_app.
    split; [exact Hinv | repeat constructor; exact Hkn]. }
  assert (Hback : forall out st',
             backtracked st1 out -> out = Some (Backtrack.Continue st') ->
             backtrackInv st' /\ backtrackMeasure st' < backtrackMeasure st).
  { intros out st' Hb ->. simpl in Hb. destruct Hb as (Hi & Hc & Hc' & Hn').
    split; [exact Hi |]. unfold backtrackMeasure. rewrite Hc'.
    unfold st1 in *. cbn [Backtrack.backtrackCount] in *.
    unfold Backtrack.maxBacktracks, Backtrack.maxIterations in *. lia. }
  destruct (parityBacktrack_returns fuel x prevR tentativeR st1 Hx Hfuel Hinv1)
    as (parity & -> & Hparity).
  cbn [bind].
  destruct parity as [[st' | st'] |].
  - eexists. split; [reflexivity |]. eapply Hback; [exact Hparity | reflexivity].
  - destruct Hparity.
  - destruct (gcdBacktrack_returns fuel x prevR tentativeR st1 Hx ltac:(lia)
                Hfuel Hinv1) as (general & -> & Hgeneral).
    cbn [bind].
    destruct general as [[st' | st'] |].
    + eexists. split; [reflexivity |]. eapply Hback; [exact Hgeneral | reflexivity].
    + destruct Hgeneral.
    + destruct (tentativeR =? 0); [eexists; split; [reflexivity | exact I] |].
      destruct (prevR <=? tentativeR); [eexists; split; [reflexivity | exact I] |].
      eexists. split; [reflexivity |]. split; [exact Hinv1 |].
      unfold backtrackMeasure, st1. cbn [Backtrack.backtrackCount Backtrack.n].
      unfold Backtrack.maxBacktracks, Backtrack.maxIterations in *. lia.
Qed.

(** The loop returns once the fuel exceeds what the iteration cap and the
    backtrack cap leave it to spend. *)
Lemma backtrack_loop_returns (fuel inner : nat) (x : Z) :
  0 < x ->
  (Z.to_nat (2 * y + 1) < inner)%nat ->
  forall st : Backtrack.state,
    backtrackInv st ->
    (Z.to_nat (backtrackMeasure st) < fuel)%nat ->
    exists st', Backtrack.loop fuel inner x y st = Some st'.
Proof.
  intros Hx Hinner. induction fuel as [| fuel IH]; intros st Hinv Hfuel; [lia |].
  simpl.
  destruct (get (Backtrack.r st) (Backtrack.n st - 1)) as [prevR |];
    [| eexists; reflexivity].
  destruct (Z.ltb_spec 1 prevR) as [Hp | Hp]; simpl; [| eexists; reflexivity].
  destruct (Z.ltb_spec (Backtrack.n st) Backtrack.maxIterations) as [Hn | Hn];
    simpl; [| eexists; reflexivity].
  destruct (loopBody_returns inner x prevR st Hx Hp Hinner Hinv Hn)
    as (c & -> & Hc).
  cbn [bind]. destruct c as [st' | st']; [| eexists; reflexivity].
  destruct Hc as [Hinv' Hless]. apply IH; [exact Hinv' |].
  assert (0 <= backtrackMeasure st').
  { unfold backtrackMeasure, Backtrack.maxIterations. lia. }
  lia.
Qed.

Lemma extendedGcd_returns (fuel : nat) :
  forall a b : Z, 0 <= a -> 0 <= b -> (Z.to_nat b < fuel)%nat ->
                  exists eg, Backtrack.extendedGcd fuel a b = Some eg.
Proof.
  induction fuel as [| fuel IH]; intros a b Ha Hb Hfuel; [lia |].
  simpl. destruct (Z.eqb_spec b 0) as [-> | Hb0]; [eexists; reflexivity |].
  assert (Hr : 0 <= Num.rem a b < b) by (apply rem_range; lia).
  destruct (IH b (Num.rem a b) ltac:(lia) ltac:(lia) ltac:(lia)) as [eg ->].
  simpl. eexists. reflexivity.
Qed.

Lemma finish_returns (fuel : nat) (x : Z) (st : Backtrack.state) :
  0 < x -> (Z.to_nat y < fuel)%nat ->
  exists res, Backtrack.finish fuel x y st = Some res.
Proof.
  intros Hx Hfuel. unfold Backtrack.finish.
  destruct (extendedGcd_returns fuel x y ltac:(lia) ltac:(lia) Hfuel) as [eg Heg].
  destruct (get (Backtrack.r st) (len (Backtrack.r st) - 1)) as [[| [| |] |] |];
    try rewrite Heg; simpl; eexists; reflexivity.
Qed.

(** [inverseModFull] of the parity-backtracking variant returns for every
    pair of positive integers. *)
Lemma backtrack_returns (fuel : nat) (x : Z) :
  0 < x ->
  (Z.to_nat (Z.max (2 * y + 1)
               ((Backtrack.maxBacktracks + 1) * (Backtrack.maxIterations + 1)))
   < fuel)%nat ->
  exists res, Backtrack.inverseModFull fuel x y = Some res.
Proof.
  intros Hx Hfuel. unfold Backtrack.inverseModFull, Backtrack.checkSpecialCases.
  destruct (Z.eq_dec (Z.gcd x y) 1) as [Hg | Hg].
  - rewrite checkSpecialCases_coprime by lia. simpl.
    pose proof (rem_range x y ltac:(lia) y_pos) as Hrem.
    destruct (Z.eqb_spec (Num.rem x y) 0) as [H0 | H0]; [eexists; reflexivity |].
    assert (Hdiv : 0 <= Num.floorDiv y (Num.rem x y))
      by (unfold Num.floorDiv; apply Z.div_pos; lia).
    set (k1 := if Num.mul (Num.floorDiv y (Num.rem x y)) (Num.rem x y) <=? y
               then Num.floorDiv y (Num.rem x y) + 1
               else Num.floorDiv y (Num.rem x y)).
    assert (Hk1 : 0 <= k1) by (unfold k1; destruct (_ <=? _); lia).
    destruct (normalize_returns fuel (Num.rem x y) ltac:(lia) k1 ltac:(lia))
      as (k1' & -> & Hk1').
    cbn [bind].
    destruct (_ =? 0); [eexists; reflexivity |].
    match goal with
    | |- context [Backtrack.loop fuel fuel x y ?st] =>
        destruct (backtrack_loop_returns fuel fuel x Hx ltac:(lia) st) as [st' ->]
    end.
    + unfold backtrackInv. simpl. repeat constructor. lia.
    + unfold backtrackMeasure. simpl.
      unfold Backtrack.maxBacktracks, Backtrack.maxIterations in *. lia.
    + cbn [bind]. apply finish_returns; [assumption | lia].
  - rewrite checkSpecialCases_not_coprime by lia. simpl. eexists. reflexivity.
Qed.

End BacktrackTermination.

(** ** Termination *)





(** ** The fixed variant where its product is exact *)

Section FixedValidity.

Variable y : Z.
Hypothesis y_lo : 1 < y.
Hypothesis y_hi : y <= 2 ^ 52.

Lemma ceilRule_product (prev : Z) :
  0 <= prev < y ->
  1 <= ceilRule y prev /\ 0 <= prev * ceilRule y prev < y + prev.
Proof.
  intros Hp. unfold ceilRule.
  destruct (Z.eq_dec prev 0) as [-> | Hne].
  - rewrite Z.mod_0_r, Z.div_0_r.
    destruct (Z.eqb_spec y 0); lia.
  - pose proof (Z.div_mod y prev Hne) as Hdm.
    pose proof (Z.mod_pos_bound y prev ltac:(lia)) as Hmb.
    assert (1 <= y / prev) by (apply Z.div_le_lower_bound; lia).
    destruct (Z.eqb_spec (y mod prev) 0); nia.
Qed.

(** Along the trace no product [prevR * k] is rounded: the last remainder is
    the first one times the exact product of the multipliers, modulo [y]. *)
Lemma followsRule_product (ks : list Z) :
  forall (prev : Z) (rs : list Z) (l : Z),
    followsRule y prev ks rs ->
    0 <= prev < y ->
    get (prev :: rs) (len (prev :: rs) - 1) = Some l ->
    Forall (fun ki => 1 <= ki) ks /\ (prev * product ks) mod y = l.
Proof.
  induction ks as [| ki ks IH]; intros prev rs l Hrule Hp Hl.
  - destruct rs; [| destruct Hrule]. simpl in Hl.
    injection Hl as <-. simpl. rewrite Z.mul_1_r.
    split; [constructor | apply Z.mod_small; assumption].
  - destruct rs as [| ri rs]; [destruct Hrule |].
    destruct Hrule as (Hki & Hri & Hrule).
    destruct (ceilRule_product prev Hp) as [Hk1 Hprod]. rewrite <- Hki in *.
    assert (Hexact : Num.mul prev ki = prev * ki) by (apply mul_exact; lia).
    assert (Hri' : ri = (prev * ki) mod y)
      by (rewrite Hri, Hexact; apply rem_mod; lia).
    assert (Hrange : 0 <= ri < y)
      by (rewrite Hri'; apply Z.mod_pos_bound; lia).
    assert (Hl' : get (ri :: rs) (len (ri :: rs) - 1) = Some l).
    { revert Hl. unfold get, len. simpl length.
      destruct (Z.ltb_spec (Z.of_nat (S (S (length rs))) - 1) 0); [lia |].
      destruct (Z.ltb_spec (Z.of_nat (S (length rs)) - 1) 0); [lia |].
      replace (Z.to_nat (Z.of_nat (S (S (length rs))) - 1))
        with (S (Z.to_nat (Z.of_nat (S (length rs)) - 1))) by lia.
      simpl. auto. }
    destruct (IH ri rs l Hrule Hrange Hl') as [Hall Hprod'].
    split; [constructor; assumption |].
    simpl. replace (prev * (ki * product ks)) with (prev * ki * product ks) by ring.
    rewrite <- Z.mul_mod_idemp_l by lia. rewrite <- Hri'. exact Hprod'.
Qed.

Lemma product_pos (ks : list Z) : Forall (fun ki => 1 <= ki) ks -> 1 <= product ks.
Proof. induction 1; simpl; nia. Qed.

(** [z *= valueK] is exact as long as the whole product is a safe integer. *)
Lemma running_product (ks : list Z) :
  Forall (fun ki => 1 <= ki) ks ->
  forall a, 1 <= a -> a * product ks <= 2 ^ 53 ->
            fold_left (fun z valueK => Num.mul z valueK) ks a = a * product ks.
Proof.
  induction 1 as [| ki ks Hki Hall IH]; intros a Ha Hbound; simpl.
  - ring.
  - pose proof (product_pos ks Hall) as Hpos. simpl in Hbound.
    rewrite mul_exact by nia.
    rewrite IH by nia. ring.
Qed.

(** X1.  With a modulus up to 2^52 and a product of the multipliers up to 2^53,
    the fixed variant answers a non-zero valid inverse exactly when its
    search ends at remainder 1, and 0 otherwise. *)
Lemma fixed_valid_when_exact (fuel : nat) (x : Z) (res : Fixed.outcome)
    (k r : list Z) (z : Z) :
  0 < x ->
  Fixed.inverseModFull fuel x y = Some res ->
  In (FinalValues x y k r z) (Fixed.result res) ->
  product k <= 2 ^ 53 ->
  z = Fixed.z res
  /\ (get r (len r - 1) = Some 1 ->
      z = product k mod y /\ (z * x) mod y = 1 /\ z <> 0)
  /\ (get r (len r - 1) <> Some 1 -> z = 0).
Proof.
  intros Hx Hrun Hin Hexact.
  destruct (fixed_trace y ltac:(lia) fuel x res k r z Hx Hrun Hin)
    as (Hlen & Hrange & (ks & r1 & rs & Hk & Hr & Hr1 & Hrule) & Hzdef & Hz & Hcur).
  pose proof (Z.mod_pos_bound x y ltac:(lia)) as Hmod.
  split; [symmetry; exact Hz |]. split.
  - intros Hlast. rewrite Hlast in Hzdef.
    set (k1 := y / (x mod y) + 1) in *.
    assert (Hk1 : 1 <= k1 /\ 0 <= (x mod y) * k1 <= y + (x mod y)).
    { unfold k1.
      pose proof (Z.div_mod y (x mod y) ltac:(lia)).
      pose proof (Z.mod_pos_bound y (x mod y) ltac:(lia)).
      assert (0 <= y / (x mod y)) by (apply Z.div_pos; lia). nia. }
    assert (Hr1' : r1 = ((x mod y) * k1) mod y).
    { rewrite Hr1, mul_exact by lia. apply rem_mod; lia. }
    assert (Hr1range : 0 <= r1 < y)
      by (rewrite Hr1'; apply Z.mod_pos_bound; lia).
    rewrite Hr in Hlast.
    destruct (followsRule_product ks r1 rs 1 Hrule Hr1range Hlast)
      as [Hall Hprod].
    pose proof (product_pos ks Hall) as Hpos.
    assert (Hzval : z = product k mod y).
    { rewrite Hzdef. unfold Fixed.productMod. rewrite Hk in *.
      rewrite running_product; [| constructor; [lia | assumption] | lia |];
        [| rewrite Z.mul_1_l; exact Hexact].
      rewrite Z.mul_1_l. apply rem_mod; [| lia].
      simpl. nia. }
    assert (Hvalid : (z * x) mod y = 1).
    { rewrite Hzval, Z.mul_mod_idemp_l, <- Z.mul_mod_idemp_r by lia.
      rewrite Hk. simpl.
      replace (k1 * product ks * (x mod y)) with ((x mod y) * k1 * product ks)
        by ring.
      rewrite <- Z.mul_mod_idemp_l by lia. rewrite <- Hr1'. exact Hprod. }
    split; [exact Hzval |]. split; [exact Hvalid |].
    intros H0. rewrite H0 in Hvalid. simpl in Hvalid.
    rewrite Z.mod_0_l in Hvalid by lia. discriminate.
  - intros Hlast. rewrite Hzdef.
    destruct (get r (len r - 1)) as [[| [| |] |] |]; try reflexivity.
    contradiction Hlast. reflexivity.
Qed.

End FixedValidity.

(** ** The backtracks of the parity-backtracking variant are never taken *)

Section BacktrackUnreachable.

Variable y : Z.
Hypothesis y_lo : 1 < y.
Hypothesis y_hi : y <= 2 ^ 52.

Lemma normalize_ge (fuel : nat) (rValue : Z) :
  forall k k' : Z,
    Backtrack.normalizeKForBounds fuel rValue y k = Some k' -> k <= k'.
Proof.
  induction fuel as [| fuel IH]; intros k k' Hrun; simpl in Hrun; [discriminate |].
  destruct (Num.mul k rValue <=? y).
  - apply IH in Hrun. lia.
  - injection Hrun as <-. lia.
Qed.

Lemma tweakFrom_nonzero (tweaks : nat) :
  forall tweak prevR currentK adjustedK adjustedR,
    0 <= prevR -> 0 <= currentK + tweak ->
    Backtrack.tweakFrom tweaks tweak prevR y currentK = Some (adjustedK, adjustedR) ->
    0 < adjustedR < prevR.
Proof.
  induction tweaks as [| tweaks IH];
    intros tweak prevR currentK adjustedK adjustedR Hp Hk Hrun;
    simpl in Hrun; [discriminate |].
  destruct (Z.eqb_spec (Num.rem (Num.mul prevR (currentK + tweak)) y) 0) as [H0 | H0];
    simpl in Hrun.
  - eapply IH; [| | exact Hrun]; lia.
  - destruct (Z.ltb_spec (Num.rem (Num.mul prevR (currentK + tweak)) y) prevR)
      as [Hlt | Hge].
    + injection Hrun as <- <-.
      pose proof (rem_range (Num.mul prevR (currentK + tweak)) y
                    ltac:(apply mul_nonneg; lia) ltac:(lia)). lia.
    + eapply IH; [| | exact Hrun]; lia.
Qed.

(** The multiplier [floor (y / prevR) + 1] takes [prevR] just above [y], so
    the next remainder is never 0: the dead end that the backtracks wait for
    does not arise. *)
Lemma chooseK_never_zero (fuel : nat) (prevR kn tentativeR : Z)
    (adjusted : list line) :
  1 < prevR < y ->
  Backtrack.chooseK fuel prevR y = Some (kn, tentativeR, adjusted) ->
  0 < tentativeR <= prevR
  /\ Forall (fun l => ~ isBacktrackLine l) adjusted.
Proof.
  intros Hp. unfold Backtrack.chooseK, Backtrack.computeNextK, Num.floorDiv.
  pose proof (Z.div_mod y prevR ltac:(lia)) as Hdm.
  pose proof (Z.mod_pos_bound y prevR ltac:(lia)) as Hmb.
  assert (Hq : 1 <= y / prevR) by (apply Z.div_le_lower_bound; lia).
  set (k0 := y / prevR + 1) in *.
  assert (Hexact : Num.mul k0 prevR = k0 * prevR) by (apply mul_exact; nia).
  assert (Hexact' : Num.mul prevR k0 = prevR * k0) by (apply mul_exact; nia).
  destruct fuel as [| fuel]; simpl; [discriminate |].
  rewrite Hexact. destruct (Z.leb_spec (k0 * prevR) y) as [Hle | _]; [nia |].
  simpl. rewrite Hexact'.
  assert (Hrem : Num.rem (prevR * k0) y = prevR * k0 - y).
  { rewrite rem_mod by nia. symmetry.
    apply (Z.mod_unique_pos _ _ 1); nia. }
  rewrite Hrem.
  assert (Hcont : forall trapped : bool,
             (if trapped
              then match Backtrack.tryLocalAdjustK prevR y k0 with
                   | Some (adjustedK, adjustedR) =>
                       Some (adjustedK, adjustedR,
                             [AdjustedLocally adjustedK adjustedR])
                   | None => Some (k0, prevR * k0 - y, [])
                   end
              else Some (k0, prevR * k0 - y, []))
             = Some (kn, tentativeR, adjusted) ->
             0 < tentativeR <= prevR
             /\ Forall (fun l => ~ isBacktrackLine l) adjusted).
  { intros [|].
    - destruct (Backtrack.tryLocalAdjustK prevR y k0)
        as [[adjustedK adjustedR] |] eqn:Hadj.
      + intros [= <- <- <-]. unfold Backtrack.tryLocalAdjustK in Hadj.
        apply tweakFrom_nonzero in Hadj; [| lia | lia].
        split; [lia |]. repeat constructor. simpl. tauto.
      + intros [= <- <- <-]. split; [nia | constructor].
    - intros [= <- <- <-]. split; [nia | constructor]. }
  match goal with
  | |- bind ?t _ = _ -> _ => destruct t as [trapped |]
  end; cbn [bind]; [apply Hcont | discriminate].
Qed.

Lemma loopBody_never_backtracks (fuel : nat) (x prevR : Z) (st : Backtrack.state)
    (c : Backtrack.control) :
  1 < prevR < y ->
  neverBacktracked y st ->
  Backtrack.loopBody fuel x y prevR st = Some c ->
  match c with
  | Backtrack.Continue st' | Backtrack.Break st' => neverBacktracked y st'
  end.
Proof.
  intros Hp (Hcount & Hlog & Hr). unfold Backtrack.loopBody.
  destruct (Backtrack.chooseK fuel prevR y) as [[[kn tentativeR] adjusted] |] eqn:Hchoose;
    cbn [bind]; [| discriminate].
  destruct (chooseK_never_zero _ _ _ _ _ Hp Hchoose) as [Htr Hadj].
  unfold Backtrack.parityBacktrack, Backtrack.gcdBacktrack.
  destruct (Z.eqb_spec tentativeR 0) as [H0 | _]; [lia |]. cbn [andb bind].
  assert (Hlog' : Forall (fun l => ~ isBacktrackLine l)
                    (Backtrack.log st ++ adjusted
                       ++ [Step (Backtrack.n st + 1) y prevR kn tentativeR])).
  { repeat (apply Forall_app; split); try assumption.
    repeat constructor. simpl. tauto. }
  assert (Hr' : Forall (fun v => 0 < v < y) (Backtrack.r st ++ [tentativeR])).
  { apply Forall_app. split; [assumption |]. repeat constructor; lia. }
  destruct (prevR <=? tentativeR); intros [= <-];
    unfold neverBacktracked; cbn [Backtrack.backtrackCount Backtrack.log Backtrack.r];
    repeat split; try assumption.
  apply Forall_app. split; [assumption |]. repeat constructor. simpl. tauto.
Qed.

Lemma loop_never_backtracks (fuel inner : nat) (x : Z) :
  forall st st' : Backtrack.state,
    neverBacktracked y st ->
    Backtrack.loop fuel inner x y st = Some st' ->
    neverBacktracked y st'.
Proof.
  induction fuel as [| fuel IH]; intros st st' Hinv Hrun; [discriminate |].
  simpl in Hrun.
  destruct (get (Backtrack.r st) (Backtrack.n st - 1)) as [prevR |] eqn:Hprev;
    [| injection Hrun as <-; exact Hinv].
  destruct (Z.ltb_spec 1 prevR) as [Hp | Hp]; simpl in Hrun;
    [| injection Hrun as <-; exact Hinv].
  destruct (Backtrack.n st <? Backtrack.maxIterations); simpl in Hrun;
    [| injection Hrun as <-; exact Hinv].
  assert (Hrange : 0 < prevR < y).
  { destruct Hinv as (_ & _ & Hr). rewrite Forall_forall in Hr.
    apply Hr. eapply get_in. exact Hprev. }
  destruct (Backtrack.loopBody inner x y prevR st) as [c |] eqn:Hbody;
    cbn [bind] in Hrun; [| discriminate].
  pose proof (loopBody_never_backtracks inner x prevR st c
                (conj Hp (proj2 Hrange)) Hinv Hbody) as Hc.
  destruct c as [st1 | st1].
  - eapply IH; eassumption.
  - injection Hrun as <-. exact Hc.
Qed.

(** X2.  In no run on a modulus up to 2^52 does the parity-backtracking variant
    backtrack: its report never holds a backtrack line. *)
Lemma backtrack_never_backtracks (fuel : nat) (x : Z) (res : Backtrack.outcome) :
  0 < x ->
  Backtrack.inverseModFull fuel x y = Some res ->
  Forall (fun l => ~ isBacktrackLine l) (Backtrack.result res).
Proof.
  intros Hx. unfold Backtrack.inverseModFull, Backtrack.checkSpecialCases.
  destruct (Fixed.checkSpecialCases fuel x y) as [sp |] eqn:Hsp; cbn [bind];
    [| discriminate].
  destruct (Fixed.isSpecialCase sp) eqn:Hspecial.
  { intros [= <-]. simpl. constructor; [simpl; tauto |].
    revert Hsp. unfold Fixed.checkSpecialCases.
    destruct ((x =? 0) || (y =? 0)).
    - intros [= <-]. simpl.
      destruct (x =? 0); destruct (y =? 0); repeat constructor; simpl; tauto.
    - destruct (Fixed.gcd fuel x y) as [g |]; simpl; [| discriminate].
      destruct (negb (g =? 1)); intros [= <-]; repeat constructor; simpl; tauto. }
  pose proof (rem_range x y ltac:(lia) ltac:(lia)) as Hrem.
  destruct (Z.eqb_spec (Num.rem x y) 0) as [H0 | H0].
  { intros [= <-]. simpl. repeat constructor; simpl; tauto. }
  assert (Hdiv : 0 <= Num.floorDiv y (Num.rem x y))
    by (unfold Num.floorDiv; apply Z.div_pos; lia).
  destruct (Backtrack.normalizeKForBounds fuel (Num.rem x y) y _) as [k1 |] eqn:Hnorm;
    cbn [bind]; [| discriminate].
  assert (Hk1 : 0 <= k1).
  { apply normalize_ge in Hnorm. destruct (_ <=? _) in Hnorm; lia. }
  pose proof (rem_range (Num.mul (Num.rem x y) k1) y
                ltac:(apply mul_nonneg; lia) ltac:(lia)) as Hr1.
  destruct (Z.eqb_spec (Num.rem (Num.mul (Num.rem x y) k1) y) 0) as [Hz | Hz].
  { intros [= <-]. simpl. repeat constructor; simpl; tauto. }
  destruct (Backtrack.loop fuel fuel x y _) as [st |] eqn:Hloop; cbn [bind];
    [| discriminate].
  apply loop_never_backtracks in Hloop.
  - destruct Hloop as (_ & Hlog & _). unfold Backtrack.finish.
    destruct (get (Backtrack.r st) (len (Backtrack.r st) - 1)) as [[| [| |] |] |];
      cbn [bind];
      try (destruct (Backtrack.extendedGcd fuel x y) as [eg |]; cbn [bind];
           [| discriminate]);
      intros [= <-]; cbn [Backtrack.result];
      repeat (apply Forall_app; split); try assumption;
      try (destruct (Backtrack.gcdOf eg =? 1));
      repeat constructor; simpl; tauto.
  - unfold neverBacktracked. cbn [Backtrack.backtrackCount Backtrack.log Backtrack.r].
    split; [reflexivity |]. split; [repeat constructor; simpl; tauto |].
    repeat constructor; lia.
Qed.

End BacktrackUnreachable.

(** ** Beyond the safe range of the humanized variant *)

(** X4.  Above 2^26 the running inverse [(inverse * multiplier) % modulus] of the
    humanized variant can leave the safe integers as well: for the coprime
    pair (157727468, 210496177) the search succeeds and the inverse it
    returns is not one. *)
Lemma humanized_inverse_invalid_above_bound :
  Z.gcd 157727468 210496177 = 1
  /\ 2 ^ 26 < 210496177
  /\ Humanized.modularInverse 100 157727468 210496177 Humanized.noOptions
     = Some (Some 92989735)
  /\ (92989735 * 157727468) mod 210496177 <> 1.
Proof.
  repeat split; try (vm_compute; reflexivity).
  vm_compute. discriminate.
Qed.

Lemma fixed_valid_when_exact_witness :
  5 = Fixed.z
        {| Fixed.result :=
             [Calculating 3 7; Step 1 7 3 3 2; Step 2 7 2 4 1; Product 5;
              FinalValues 3 7 [3; 4] [2; 1] 5; Validation 5 3 7 true];
           Fixed.z := 5 |}
  /\ (get [2; 1] (len [2; 1] - 1) = Some 1 ->
      5 = product [3; 4] mod 7 /\ (5 * 3) mod 7 = 1 /\ 5 <> 0)
  /\ (get [2; 1] (len [2; 1] - 1) <> Some 1 -> 5 = 0).
Proof.
  apply (fixed_valid_when_exact 7 ltac:(lia) ltac:(lia) 20 3).
  - lia.
  - vm_compute. reflexivity.
  - simpl. tauto.
  - vm_compute. discriminate.
Defined.

Lemma backtrack_never_backtracks_witness :
  Forall (fun l => ~ isBacktrackLine l)
    (Backtrack.result
       {| Backtrack.result :=
            [Calculating 5 12; Step 1 12 5 3 3; Step 2 12 3 5 3;
             NotDecreasing; FailedToFind (Some 3); CorrectInverse 5;
             FinalValues 5 12 [3; 5] [3; 3] 0; Validation 0 5 12 false];
          Backtrack.z := 0 |}).
Proof.
  apply (backtrack_never_backtracks 12 ltac:(lia) ltac:(lia) 20 5).
  - lia.
  - vm_compute. reflexivity.
Defined.

(** X3.  On safe integers up to 2^26 every successful result of the humanized
    search carries a valid inverse. *)
Theorem humanized_valid_on_safe_integers (fuel : nat) (base modulus : Z)
    (o : Humanized.options) (res : Humanized.search) :
  1 < modulus -> modulus <= 2 ^ 26 ->
  smallOffsets (Humanized.settingsOf o) ->
  Humanized.findInverseWithBacktracking fuel base modulus o = Some res ->
  Humanized.found res = true ->
  (Humanized.inverse res * base) mod modulus = 1.
Proof.
  intros Hlo Hhi Hoff Hrun Hfound.
  eapply found_inverse_valid; try eassumption. reflexivity.
Qed.

Lemma humanized_valid_on_safe_integers_witness :
  (Humanized.inverse
     {| Humanized.found := true; Humanized.inverse := 6;
        Humanized.multipliers := [2; 2; 3; 19];
        Humanized.remainders := [31; 25; 13; 2; 1];
        Humanized.exploredNodes := 5 |} * 31) mod 37 = 1.
Proof.
  apply (humanized_valid_on_safe_integers 65 31 37 Humanized.noOptions).
  - lia.
  - lia.
  - repeat constructor; lia.
  - vm_compute. reflexivity.
  - reflexivity.
Defined.

(** * Further properties of the three variants *)

(** ** Euclid's loop on signed arguments *)

Lemma gcd_signed (fuel : nat) :
  forall a b : Z, (Z.to_nat (Z.abs b) < fuel)%nat ->
    exists g, Fixed.gcd fuel a b = Some g /\ Z.abs g = Z.gcd a b.
Proof.
  induction fuel as [| fuel IH]; intros a b Hfuel; [lia |].
  simpl. destruct (Z.eqb_spec b 0) as [-> | Hb0].
  - exists a. split; [reflexivity |]. rewrite Z.gcd_0_r. reflexivity.
  - assert (Hr : Z.abs (Num.rem a b) < Z.abs b)
      by (unfold Num.rem; apply Z.rem_bound_abs; assumption).
    destruct (IH b (Num.rem a b) ltac:(lia)) as (g & Hg & Habs).
    exists g. split; [exact Hg |]. rewrite Habs.
    unfold Num.rem. rewrite (Z.gcd_comm b), Z.gcd_rem by assumption.
    apply Z.gcd_comm.
Qed.

(** X5.  [gcd], the same loop in the fixed and in the parity-backtracking
    variant, returns for any two integers a number whose absolute value is
    their greatest common divisor, and for non-negative arguments the
    greatest common divisor itself.  (With a negative argument the result
    can be negative: [gcd (4, -6)] is -2.) *)
Theorem gcd_of_integers (fuel : nat) (a b : Z) :
  (Z.to_nat (Z.abs b) < fuel)%nat ->
  exists g, Fixed.gcd fuel a b = Some g
            /\ Backtrack.gcd fuel a b = Some g
            /\ Z.abs g = Z.gcd a b
            /\ (0 <= a -> 0 <= b -> g = Z.gcd a b).
Proof.
  intros Hfuel. destruct (gcd_signed fuel a b Hfuel) as (g & Hg & Habs).
  exists g. repeat split; try assumption.
  intros Ha Hb. rewrite gcd_returns in Hg by lia. congruence.
Qed.

Lemma gcd_of_integers_witness :
  exists g, Fixed.gcd 10 4 (-6) = Some g
            /\ Backtrack.gcd 10 4 (-6) = Some g
            /\ Z.abs g = Z.gcd 4 (-6)
            /\ (0 <= 4 -> 0 <= -6 -> g = Z.gcd 4 (-6)).
Proof.
  apply (gcd_of_integers 10 4 (-6)). apply Nat.ltb_lt. reflexivity.
Defined.

(** X6.  [computeGreatestCommonDivisor] returns the greatest common divisor
    of any two integers, negative ones included, and never a negative
    number. *)
Theorem computeGreatestCommonDivisor_is_gcd (fuel : nat) (a b : Z) :
  (Z.to_nat (Z.abs b) < fuel)%nat ->
  Humanized.computeGreatestCommonDivisor fuel a b = Some (Z.gcd a b)
  /\ 0 <= Z.gcd a b.
Proof.
  intros Hfuel. split; [apply computeGreatestCommonDivisor_returns; assumption |].
  apply Z.gcd_nonneg.
Qed.

Lemma computeGreatestCommonDivisor_is_gcd_witness :
  Humanized.computeGreatestCommonDivisor 10 (-4) 6 = Some (Z.gcd (-4) 6)
  /\ 0 <= Z.gcd (-4) 6.
Proof.
  apply (computeGreatestCommonDivisor_is_gcd 10 (-4) 6).
  apply Nat.ltb_lt. reflexivity.
Defined.

(** ** Ceiling division *)

(** X7.  For a non-negative numerator and a positive denominator whose sum
    is at most 2^53, so that [numerator + denominator - 1] is formed
    exactly, [ceilDiv] is the ceiling of the quotient:
    [denominator * ceilDiv] is the first multiple of the denominator that is
    not below the numerator. *)
Theorem ceilDiv_is_ceiling (numerator denominator : Z) :
  0 <= numerator -> 0 < denominator ->
  numerator + denominator <= 2 ^ 53 ->
  numerator <= denominator * Humanized.ceilDiv numerator denominator
            < numerator + denominator.
Proof.
  intros _ Hd _. unfold Humanized.ceilDiv, Num.floorDiv.
  pose proof (Z.div_mod (numerator + denominator - 1) denominator ltac:(lia)) as Hdm.
  pose proof (Z.mod_pos_bound (numerator + denominator - 1) denominator Hd) as Hmb.
  lia.
Qed.

Lemma ceilDiv_is_ceiling_witness :
  12 <= 5 * Humanized.ceilDiv 12 5 < 12 + 5.
Proof.
  apply (ceilDiv_is_ceiling 12 5); lia.
Defined.

(** ** The extended Euclidean algorithm *)

Lemma extendedGcd_spec (fuel : nat) :
  forall a b : Z,
    0 <= a <= 2 ^ 52 -> 0 <= b <= 2 ^ 52 -> (Z.to_nat b < fuel)%nat ->
    exists eg,
      Backtrack.extendedGcd fuel a b = Some eg
      /\ Backtrack.gcdOf eg = Z.gcd a b
      /\ a * Backtrack.coefX eg + b * Backtrack.coefY eg = Backtrack.gcdOf eg
      /\ Z.abs (Backtrack.coefX eg) <= Z.max 1 b
      /\ Z.abs (Backtrack.coefY eg) <= Z.max 1 a
      /\ (b = 0 -> Backtrack.coefX eg = 1 /\ Backtrack.coefY eg = 0).
Proof.
  induction fuel as [| fuel IH]; intros a b Ha Hb Hfuel; [lia |].
  simpl. destruct (Z.eqb_spec b 0) as [-> | Hb0].
  - eexists. split; [reflexivity |]. simpl.
    rewrite Z.gcd_0_r, Z.abs_eq by lia. repeat split; lia.
  - assert (Hrem : Num.rem a b = a mod b) by (apply rem_mod; lia).
    pose proof (Z.mod_pos_bound a b ltac:(lia)) as Hr.
    pose proof (Z.div_mod a b Hb0) as Hdm.
    assert (Hq : 0 <= a / b) by (apply Z.div_pos; lia).
    rewrite Hrem.
    destruct (IH b (a mod b) ltac:(lia) ltac:(lia) ltac:(lia))
      as (eg & -> & Hg & Hbez & Hx & Hy & Hzero).
    cbn [bind]. eexists. split; [reflexivity |].
    cbn [Backtrack.coefX Backtrack.coefY Backtrack.gcdOf].
    unfold Num.floorDiv.
    assert (Hexact : Num.mul (a / b) (Backtrack.coefY eg) = a / b * Backtrack.coefY eg).
    { apply mul_exact.
      assert (Z.abs (a / b * Backtrack.coefY eg) <= 2 ^ 52); [| lia].
      rewrite Z.abs_mul, (Z.abs_eq (a / b)) by lia. nia. }
    rewrite Hexact.
    split; [rewrite Hg, Z.gcd_comm, Z.gcd_mod, Z.gcd_comm by lia; reflexivity |].
    split; [rewrite <- Hbez; nia |].
    split; [lia |].
    split; [| intros; lia].
    destruct (Z.eq_dec (a mod b) 0) as [H0 | H0].
    + destruct (Hzero H0) as [-> ->]. lia.
    + assert (Z.abs (a / b * Backtrack.coefY eg) <= a / b * b)
        by (rewrite Z.abs_mul, (Z.abs_eq (a / b)) by lia; nia).
      lia.
Qed.

(** X8.  On non-negative arguments up to 2^52 [extendedGcd] returns the
    greatest common divisor together with Bezout coefficients,
    [a * x + b * y = gcd]: no product of the recursion is rounded. *)
Theorem extendedGcd_bezout (fuel : nat) (a b : Z) :
  0 <= a <= 2 ^ 52 -> 0 <= b <= 2 ^ 52 -> (Z.to_nat b < fuel)%nat ->
  exists eg,
    Backtrack.extendedGcd fuel a b = Some eg
    /\ Backtrack.gcdOf eg = Z.gcd a b
    /\ a * Backtrack.coefX eg + b * Backtrack.coefY eg = Z.gcd a b.
Proof.
  intros Ha Hb Hfuel.
  destruct (extendedGcd_spec fuel a b Ha Hb Hfuel) as (eg & Hrun & Hg & Hbez & _).
  exists eg. rewrite <- Hg. auto.
Qed.

Lemma extendedGcd_bezout_witness :
  exists eg,
    Backtrack.extendedGcd 20 5 12 = Some eg
    /\ Backtrack.gcdOf eg = Z.gcd 5 12
    /\ 5 * Backtrack.coefX eg + 12 * Backtrack.coefY eg = Z.gcd 5 12.
Proof.
  apply (extendedGcd_bezout 20 5 12); [lia | lia |].
  apply Nat.ltb_lt. reflexivity.
Defined.

(** ** The multiplier bounds of the parity-backtracking variant *)

Lemma fl53_nonpos (n : Z) : n <= 0 -> Num.fl53 n <= 0.
Proof.
  intros Hn. unfold Num.fl53. destruct (Z.ltb_spec n 0) as [Hneg | Hge].
  - pose proof (round53_lower (- n) ltac:(lia)). lia.
  - replace n with 0 by lia. vm_compute. discriminate.
Qed.

(** The test [k * rValue <= y] is not affected by rounding. *)
Lemma mul_le_iff (k r y : Z) :
  0 <= y <= 2 ^ 52 -> Num.mul k r <= y <-> k * r <= y.
Proof.
  intros Hy. unfold Num.mul.
  destruct (Z_le_gt_dec (k * r) (2 ^ 53)) as [Hle | Hgt].
  - destruct (Z_le_gt_dec (- 2 ^ 53) (k * r)) as [Hlo | Hlo].
    + rewrite fl53_exact by lia. reflexivity.
    + pose proof (fl53_nonpos (k * r) ltac:(lia)). lia.
  - pose proof (fl53_lower (k * r) ltac:(lia)). lia.
Qed.

Lemma normalize_closed (fuel : nat) (rValue y : Z) :
  0 < rValue -> 0 <= y <= 2 ^ 52 ->
  forall k : Z,
    (Z.to_nat (y / rValue + 1 - k) < fuel)%nat ->
    Backtrack.normalizeKForBounds fuel rValue y k
    = Some (Z.max k (y / rValue + 1)).
Proof.
  intros Hr Hy.
  pose proof (Z.div_mod y rValue ltac:(lia)) as Hdm.
  pose proof (Z.mod_pos_bound y rValue Hr) as Hmb.
  induction fuel as [| fuel IH]; intros k Hfuel; [lia |].
  simpl. destruct (Z.leb_spec (Num.mul k rValue) y) as [Hle | Hgt].
  - apply mul_le_iff in Hle; [| assumption].
    assert (k <= y / rValue) by nia.
    rewrite IH by lia. f_equal. lia.
  - assert (~ k * rValue <= y) by (rewrite <- mul_le_iff by assumption; lia).
    f_equal. nia.
Qed.

(** X9.  For a positive remainder, a modulus up to 2^52 and a first
    candidate [initialK] of at least 1, as its callers pass it (the loop
    then counts [k++] below 2^53, exactly), [normalizeKForBounds] returns
    the larger of [initialK] and [floor (y / rValue) + 1], which is the
    least [k >= initialK] with [y < k * rValue]. *)
Theorem normalizeKForBounds_least (fuel : nat) (rValue y initialK : Z) :
  0 < rValue -> 0 <= y <= 2 ^ 52 -> 1 <= initialK ->
  (Z.to_nat (y / rValue + 1 - initialK) < fuel)%nat ->
  exists k,
    Backtrack.normalizeKForBounds fuel rValue y initialK = Some k
    /\ k = Z.max initialK (y / rValue + 1)
    /\ y < k * rValue
    /\ forall j, initialK <= j -> y < j * rValue -> k <= j.
Proof.
  intros Hr Hy _ Hfuel.
  pose proof (Z.div_mod y rValue ltac:(lia)) as Hdm.
  pose proof (Z.mod_pos_bound y rValue Hr) as Hmb.
  exists (Z.max initialK (y / rValue + 1)).
  split; [apply normalize_closed; assumption |].
  split; [reflexivity |]. split; [nia |].
  intros j Hj Hlt. assert (y / rValue + 1 <= j) by nia. lia.
Qed.

Lemma normalizeKForBounds_least_witness :
  exists k,
    Backtrack.normalizeKForBounds 10 5 12 1 = Some k
    /\ k = Z.max 1 (12 / 5 + 1)
    /\ 12 < k * 5
    /\ forall j, 1 <= j -> 12 < j * 5 -> k <= j.
Proof.
  apply (normalizeKForBounds_least 10 5 12 1); [lia | lia | lia |].
  apply Nat.ltb_lt. reflexivity.
Defined.

Lemma computeNextK_closed (fuel : nat) (rValue y : Z) :
  0 < rValue -> 0 <= y <= 2 ^ 52 -> (0 < fuel)%nat ->
  Backtrack.computeNextK fuel rValue y = Some (y / rValue + 1).
Proof.
  intros Hr Hy Hfuel. unfold Backtrack.computeNextK, Num.floorDiv.
  rewrite normalize_closed by (try assumption; lia). f_equal. lia.
Qed.

(** X10.  [computeNextK] returns [floor (y / rValue) + 1].  Its product
    with the remainder lies above [y] and at most at [y + rValue], and it
    reaches [y + rValue] exactly when the remainder divides [y]: the strict
    upper bound [< y + r] that every [Step] line prints does not hold
    then. *)
Theorem computeNextK_bounds (fuel : nat) (rValue y : Z) :
  0 < rValue -> 0 <= y <= 2 ^ 52 -> (0 < fuel)%nat ->
  exists k,
    Backtrack.computeNextK fuel rValue y = Some k
    /\ k = y / rValue + 1
    /\ y < rValue * k <= y + rValue
    /\ (rValue * k = y + rValue <-> y mod rValue = 0).
Proof.
  intros Hr Hy Hfuel.
  pose proof (Z.div_mod y rValue ltac:(lia)) as Hdm.
  pose proof (Z.mod_pos_bound y rValue Hr) as Hmb.
  exists (y / rValue + 1).
  split; [apply computeNextK_closed; assumption |]. split; [reflexivity |].
  split; [nia |]. split; intros H; nia.
Qed.

Lemma computeNextK_bounds_witness :
  exists k,
    Backtrack.computeNextK 1 3 12 = Some k
    /\ k = 12 / 3 + 1
    /\ 12 < 3 * k <= 12 + 3
    /\ (3 * k = 12 + 3 <-> 12 mod 3 = 0).
Proof.
  apply (computeNextK_bounds 1 3 12); lia.
Defined.

(** ** Looking for an odd multiplier *)

(** X11.  [findEarliestOddKIndex] returns -1 exactly when no multiplier has
    [k % 2 === 1], and otherwise the index, within the list, of the first
    multiplier that has. *)
Theorem findEarliestOddKIndex_spec (kList : list Z) :
  (Backtrack.findEarliestOddKIndex kList = -1
   /\ Forall (fun v => Num.rem v 2 <> 1) kList)
  \/ (exists v,
         0 <= Backtrack.findEarliestOddKIndex kList < len kList
         /\ get kList (Backtrack.findEarliestOddKIndex kList) = Some v
         /\ Num.rem v 2 = 1
         /\ Forall (fun v => Num.rem v 2 <> 1)
              (slice0 kList (Backtrack.findEarliestOddKIndex kList))).
Proof.
  unfold Backtrack.findEarliestOddKIndex.
  destruct (findFrom_spec kList 0 ltac:(lia))
    as [[Hnone Hall] | (j & v & Hj & Hv & Hodd & Hbefore)].
  - left. split; assumption.
  - right. exists v. rewrite Hj. simpl (0 + _).
    assert (Hlt : (j < length kList)%nat)
      by (apply nth_error_Some; congruence).
    split; [unfold len; lia |].
    split; [unfold get; destruct (Z.ltb_spec (Z.of_nat j) 0); [lia |];
            rewrite Nat2Z.id; assumption |].
    split; [exact Hodd |].
    unfold slice0. rewrite Nat2Z.id. exact Hbefore.
Qed.

(** ** Local adjustment *)

Lemma tweakFrom_spec (tweaks : nat) :
  forall tweak prevR y currentK,
    match Backtrack.tweakFrom tweaks tweak prevR y currentK with
    | Some (adjustedK, adjustedR) =>
        exists t,
          tweak <= t < tweak + Z.of_nat tweaks
          /\ adjustedK = currentK + t
          /\ adjustedR = Num.rem (Num.mul prevR adjustedK) y
          /\ adjustedR <> 0 /\ adjustedR < prevR
          /\ forall t', tweak <= t' < t ->
               Num.rem (Num.mul prevR (currentK + t')) y = 0
               \/ prevR <= Num.rem (Num.mul prevR (currentK + t')) y
    | None =>
        forall t', tweak <= t' < tweak + Z.of_nat tweaks ->
          Num.rem (Num.mul prevR (currentK + t')) y = 0
          \/ prevR <= Num.rem (Num.mul prevR (currentK + t')) y
    end.
Proof.
  induction tweaks as [| tweaks IH]; intros tweak prevR y currentK.
  - simpl. intros t' Ht'. lia.
  - cbn [Backtrack.tweakFrom].
    set (c := Num.rem (Num.mul prevR (currentK + tweak)) y).
    destruct (Z.eqb_spec c 0) as [H0 | H0]; cbn [negb andb].
    + specialize (IH (tweak + 1) prevR y currentK).
      destruct (Backtrack.tweakFrom tweaks (tweak + 1) prevR y currentK)
        as [[adjustedK adjustedR] |].
      * destruct IH as (t & Ht & Hk & Hr & Hnz & Hlt & Hbefore).
        exists t. repeat split; try assumption; try lia.
        intros t' Ht'. destruct (Z.eq_dec t' tweak) as [-> | Hne];
          [left; exact H0 | apply Hbefore; lia].
      * intros t' Ht'. destruct (Z.eq_dec t' tweak) as [-> | Hne];
          [left; exact H0 | apply IH; lia].
    + destruct (Z.ltb_spec c prevR) as [Hlt | Hge].
      * exists tweak. repeat split; try assumption; try lia.
      * specialize (IH (tweak + 1) prevR y currentK).
        destruct (Backtrack.tweakFrom tweaks (tweak + 1) prevR y currentK)
          as [[adjustedK adjustedR] |].
        -- destruct IH as (t & Ht & Hk & Hr & Hnz & Hlt & Hbefore).
           exists t. repeat split; try assumption; try lia.
           intros t' Ht'. destruct (Z.eq_dec t' tweak) as [-> | Hne];
             [right; exact Hge | apply Hbefore; lia].
        -- intros t' Ht'. destruct (Z.eq_dec t' tweak) as [-> | Hne];
             [right; exact Hge | apply IH; lia].
Qed.

(** X12.  For a positive modulus, a remainder and a multiplier that are
    not negative and at most 2^52, so that [currentK + tweak] is exact:
    [tryLocalAdjustK] returns the first of [currentK + 1], ...,
    [currentK + 5] whose remainder is neither 0 nor at least [prevR],
    together with that remainder, and [null] exactly when none of the five
    qualifies. *)
Theorem tryLocalAdjustK_spec (prevR y currentK : Z) :
  0 < y -> 0 <= prevR <= 2 ^ 52 -> 0 <= currentK <= 2 ^ 52 ->
  match Backtrack.tryLocalAdjustK prevR y currentK with
  | Some (adjustedK, adjustedR) =>
      exists tweak,
        1 <= tweak <= 5
        /\ adjustedK = currentK + tweak
        /\ adjustedR = Num.rem (Num.mul prevR adjustedK) y
        /\ adjustedR <> 0 /\ adjustedR < prevR
        /\ forall t, 1 <= t < tweak ->
             Num.rem (Num.mul prevR (currentK + t)) y = 0
             \/ prevR <= Num.rem (Num.mul prevR (currentK + t)) y
  | None =>
      forall t, 1 <= t <= 5 ->
        Num.rem (Num.mul prevR (currentK + t)) y = 0
        \/ prevR <= Num.rem (Num.mul prevR (currentK + t)) y
  end.
Proof.
  intros _ _ _. unfold Backtrack.tryLocalAdjustK.
  pose proof (tweakFrom_spec (Z.to_nat Backtrack.maxTweak) 1 prevR y currentK) as H.
  destruct (Backtrack.tweakFrom _ 1 prevR y currentK) as [[adjustedK adjustedR] |].
  - destruct H as (t & Ht & Hrest). exists t.
    split; [change (Z.of_nat (Z.to_nat Backtrack.maxTweak)) with 5 in Ht; lia |].
    exact Hrest.
  - intros t Ht. apply H.
    change (Z.of_nat (Z.to_nat Backtrack.maxTweak)) with 5. lia.
Qed.

Lemma tryLocalAdjustK_spec_witness :
  match Backtrack.tryLocalAdjustK 6 20 4 with
  | Some (adjustedK, adjustedR) =>
      exists tweak,
        1 <= tweak <= 5
        /\ adjustedK = 4 + tweak
        /\ adjustedR = Num.rem (Num.mul 6 adjustedK) 20
        /\ adjustedR <> 0 /\ adjustedR < 6
        /\ forall t, 1 <= t < tweak ->
             Num.rem (Num.mul 6 (4 + t)) 20 = 0
             \/ 6 <= Num.rem (Num.mul 6 (4 + t)) 20
  | None =>
      forall t, 1 <= t <= 5 ->
        Num.rem (Num.mul 6 (4 + t)) 20 = 0
        \/ 6 <= Num.rem (Num.mul 6 (4 + t)) 20
  end.
Proof.
  apply (tryLocalAdjustK_spec 6 20 4); lia.
Defined.

(** ** Recalculating the remainders *)

Lemma normalize_stops (fuel : nat) (rValue y : Z) :
  forall k k' : Z,
    Backtrack.normalizeKForBounds fuel rValue y k = Some k' ->
    (Num.mul k' rValue <=? y) = false.
Proof.
  induction fuel as [| fuel IH]; intros k k' Hrun; [discriminate |].
  simpl in Hrun. destruct (Num.mul k rValue <=? y) eqn:Hle.
  - eapply IH. exact Hrun.
  - injection Hrun as <-. exact Hle.
Qed.

Lemma normalize_fixpoint (fuel : nat) (rValue y : Z) (k k' : Z) :
  Backtrack.normalizeKForBounds fuel rValue y k = Some k' ->
  Backtrack.normalizeKForBounds fuel rValue y k' = Some k'.
Proof.
  intros Hrun. pose proof (normalize_stops _ _ _ _ _ Hrun) as Hstop.
  destruct fuel as [| fuel]; [discriminate |].
  simpl. rewrite Hstop. reflexivity.
Qed.

Lemma recalcFrom_idempotent (fuel : nat) (y : Z) (kRest : list Z) :
  forall (i prev : Z) (kDone r : list Z) (log : list line) (rc : Backtrack.recalc),
    Backtrack.recalcFrom fuel y i prev kDone kRest r log = Some rc ->
    exists ks,
      Backtrack.kListOf rc = kDone ++ ks
      /\ length ks = length kRest
      /\ Forall2 Z.le kRest ks
      /\ Backtrack.recalcFrom fuel y i prev kDone ks r log = Some rc.
Proof.
  induction kRest as [| ki kRest IH]; intros i prev kDone r log rc Hrun;
    simpl in Hrun.
  - injection Hrun as <-. exists []. simpl. rewrite app_nil_r. auto.
  - destruct (Backtrack.normalizeKForBounds fuel prev y ki) as [k |] eqn:Hnorm;
      cbn [bind] in Hrun; [| discriminate].
    assert (Hle : ki <= k).
    { clear - Hnorm. revert ki Hnorm.
      induction fuel as [| fuel IHf]; intros ki Hnorm; simpl in Hnorm;
        [discriminate |].
      destruct (Num.mul ki prev <=? y).
      - apply IHf in Hnorm. lia.
      - injection Hnorm as <-. lia. }
    pose proof (normalize_fixpoint _ _ _ _ _ Hnorm) as Hfix.
    destruct (Num.rem (Num.mul prev k) y =? 0) eqn:Hz.
    + injection Hrun as <-. exists (k :: kRest). cbn [Backtrack.kListOf].
      split; [reflexivity |]. split; [reflexivity |].
      split; [constructor; [exact Hle |];
              clear; induction kRest; constructor; [lia | assumption] |].
      simpl. rewrite Hfix. cbn [bind]. rewrite Hz. reflexivity.
    + destruct (IH _ _ _ _ _ _ Hrun) as (ks & Hk & Hlen & Hall & Hagain).
      exists (k :: ks). rewrite Hk, <- app_assoc. simpl.
      split; [reflexivity |]. split; [lia |].
      split; [constructor; assumption |].
      rewrite Hfix. cbn [bind]. rewrite Hz. exact Hagain.
Qed.

(** X13.  [recalcRemaindersWithGivenK] keeps the length of the multiplier
    list it is given, never lowers a multiplier, and is idempotent: called
    again on the list it leaves behind, it returns the same remainders, log
    and flag, and leaves the list as it is. *)
Theorem recalc_idempotent (fuel : nat) (x y : Z) (kList : list Z)
    (rc : Backtrack.recalc) :
  Backtrack.recalcRemaindersWithGivenK fuel x y kList = Some rc ->
  length (Backtrack.kListOf rc) = length kList
  /\ Forall2 Z.le kList (Backtrack.kListOf rc)
  /\ Backtrack.recalcRemaindersWithGivenK fuel x y (Backtrack.kListOf rc) = Some rc.
Proof.
  unfold Backtrack.recalcRemaindersWithGivenK.
  destruct (Num.rem x y =? 0).
  - intros [= <-]. simpl. repeat split.
    clear. induction kList; constructor; [lia | assumption].
  - intros Hrun.
    destruct (recalcFrom_idempotent _ _ _ _ _ _ _ _ _ Hrun)
      as (ks & Hk & Hlen & Hall & Hagain).
    simpl in Hk. rewrite Hk. auto.
Qed.

Lemma recalc_idempotent_witness :
  length (Backtrack.kListOf
            {| Backtrack.rOf := [3; 6];
               Backtrack.resultLogAppend := [Step 1 12 5 3 3; Step 2 12 3 6 6];
               Backtrack.failedAtZero := false;
               Backtrack.kListOf := [3; 6] |}) = length [1; 6]
  /\ Forall2 Z.le [1; 6] [3; 6]
  /\ Backtrack.recalcRemaindersWithGivenK 20 5 12 [3; 6]
     = Some {| Backtrack.rOf := [3; 6];
               Backtrack.resultLogAppend := [Step 1 12 5 3 3; Step 2 12 3 6 6];
               Backtrack.failedAtZero := false;
               Backtrack.kListOf := [3; 6] |}.
Proof.
  apply (recalc_idempotent 20 5 12 [1; 6]). vm_compute. reflexivity.
Defined.

Lemma strictlyDecreasing_snoc (r : list Z) (prevR newR : Z) :
  strictlyDecreasing r ->
  get r (len r - 1) = Some prevR ->
  newR < prevR ->
  strictlyDecreasing (r ++ [newR]).
Proof.
  intros Hdec Hlast Hlt i a b Ha Hb.
  unfold get, len in Hlast.
  destruct (Z.ltb_spec (Z.of_nat (length r) - 1) 0) as [| Hpos]; [discriminate |].
  destruct (Nat.lt_ge_cases (S i) (length r)) as [Hin | Hout].
  - rewrite nth_error_app1 in Ha, Hb by lia. eapply Hdec; eassumption.
  - assert (HSi : S i = length r).
    { assert (S i < length (r ++ [newR]))%nat
        by (apply nth_error_Some; congruence).
      rewrite length_app in *. simpl in *. lia. }
    rewrite nth_error_app1 in Ha by lia.
    rewrite nth_error_app2, HSi, Nat.sub_diag in Hb by lia.
    simpl in Hb. injection Hb as <-.
    replace (Z.to_nat (Z.of_nat (length r) - 1)) with i in Hlast by lia.
    congruence.
Qed.

Section FixedDescent.

Variable y : Z.
Hypothesis y_lo : 1 < y.
Hypothesis y_hi : y <= 2 ^ 52.

(** One step of the fixed rule: the next remainder is [prevR - y mod prevR],
    or 0 when [prevR] divides [y]. *)
Lemma ceilRule_step (prevR : Z) :
  0 < prevR < y ->
  Num.rem (Num.mul prevR (ceilRule y prevR)) y
  = if y mod prevR =? 0 then 0 else prevR - y mod prevR.
Proof.
  intros Hp. unfold ceilRule.
  pose proof (Z.div_mod y prevR ltac:(lia)) as Hdm.
  pose proof (Z.mod_pos_bound y prevR ltac:(lia)) as Hmb.
  assert (Hq : 1 <= y / prevR) by (apply Z.div_le_lower_bound; lia).
  destruct (Z.eqb_spec (y mod prevR) 0) as [H0 | H0].
  - rewrite mul_exact by nia. rewrite rem_mod by nia.
    replace (prevR * (y / prevR)) with y by lia. apply Z.mod_same. lia.
  - rewrite mul_exact by nia. rewrite rem_mod by nia.
    symmetry. apply (Z.mod_unique_pos _ _ 1); nia.
Qed.

Lemma fixed_loop_descent (fuel : nat) :
  forall st st' : Fixed.state,
    fixedInv y st -> fixedDescent st ->
    Fixed.loop fuel y st = Some st' ->
    strictlyDecreasing (Fixed.r st')
    /\ ~ In NotDecreasing (Fixed.log st')
    /\ len (Fixed.r st') <= Fixed.maxIterations
    /\ (lastIs (Fixed.r st') 0 \/ lastIs (Fixed.r st') 1
        \/ len (Fixed.r st') = Fixed.maxIterations).
Proof.
  induction fuel as [| fuel IH]; intros st st' Hinv Hdesc Hrun; [discriminate |].
  destruct Hinv as (Hlen & Hn & Hrange & Hlog).
  destruct Hdesc as (Hcap & Hdec & Hnd).
  simpl in Hrun.
  destruct (get (Fixed.r st) (Fixed.n st - 1)) as [prevR |] eqn:Hprev.
  2:{ exfalso. revert Hprev. rewrite Hn. unfold get, len.
      destruct (Z.ltb_spec (Z.of_nat (length (Fixed.r st)) - 1) 0); [unfold len in *; lia |].
      intros Hnone. apply nth_error_None in Hnone. unfold len in *. lia. }
  assert (Hp : 0 <= prevR < y).
  { unfold inRange in Hrange. rewrite Forall_forall in Hrange.
    apply Hrange. eapply get_in. exact Hprev. }
  destruct (Z.ltb_spec 1 prevR) as [Hgt | Hle]; simpl in Hrun.
  2:{ injection Hrun as <-. repeat split; try assumption; [lia |].
      rewrite Hn in Hprev. unfold lastIs.
      destruct (Z.eq_dec prevR 0) as [-> | Hne]; [left; exact Hprev |].
      right. left. replace prevR with 1 in Hprev by lia. exact Hprev. }
  destruct (Z.ltb_spec (Fixed.n st) Fixed.maxIterations) as [Hlt | Hge];
    simpl in Hrun.
  2:{ injection Hrun as <-. repeat split; try assumption; [lia |].
      right. right. lia. }
  rewrite (fixed_multiplier_is_ceilRule y ltac:(lia)) in Hrun by assumption.
  assert (Hk : get (Fixed.k st ++ [ceilRule y prevR]) (Fixed.n st)
               = Some (ceilRule y prevR)).
  { rewrite Hn. replace (len (Fixed.r st)) with (len (Fixed.k st))
      by (unfold len; congruence).
    apply get_pushed. }
  rewrite Hk in Hrun. cbn [bind] in Hrun.
  rewrite ceilRule_step in Hrun by lia.
  pose proof (Z.mod_pos_bound y prevR ltac:(lia)) as Hmb.
  set (newR := if y mod prevR =? 0 then 0 else prevR - y mod prevR) in *.
  assert (HnewR : 0 <= newR < prevR).
  { unfold newR. destruct (Z.eqb_spec (y mod prevR) 0); lia. }
  assert (Hdec' : strictlyDecreasing (Fixed.r st ++ [newR])).
  { apply (strictlyDecreasing_snoc _ prevR); [assumption | | lia].
    rewrite <- Hn. exact Hprev. }
  assert (Hlen' : len (Fixed.r st ++ [newR]) = Fixed.n st + 1).
  { rewrite len_app, Hn. reflexivity. }
  assert (Hlast' : lastIs (Fixed.r st ++ [newR]) newR).
  { unfold lastIs. apply get_last_pushed. }
  destruct (Z.eqb_spec newR 0) as [H0 | H0].
  { injection Hrun as <-. cbn [Fixed.r Fixed.log].
    split; [assumption |].
    split.
    { intros Hin. apply in_app_or in Hin. destruct Hin as [Hin | [Hin | []]];
        [| discriminate].
      apply in_app_or in Hin. destruct Hin as [Hin | [Hin | []]];
        [contradiction | discriminate]. }
    split; [lia |]. left. rewrite <- H0. exact Hlast'. }
  destruct (Z.leb_spec prevR newR) as [Hbad | _]; [lia |].
  apply IH in Hrun; [exact Hrun | |].
  - unfold fixedInv. cbn [Fixed.k Fixed.r Fixed.n Fixed.log].
    repeat split.
    + rewrite !length_app. simpl. lia.
    + lia.
    + apply Forall_app. split; [assumption |]. repeat constructor; lia.
    + apply Forall_app. split; [assumption |]. repeat constructor.
  - unfold fixedDescent. cbn [Fixed.k Fixed.r Fixed.n Fixed.log].
    repeat split; try lia; try assumption.
    intros Hin. apply in_app_or in Hin. destruct Hin as [Hin | [Hin | []]];
      [contradiction | discriminate].
Qed.

End FixedDescent.

(** X14.  In the fixed variant, up to a modulus of 2^52, the remainders
    strictly decrease, from a first one that is positive and at most the
    seed [x mod y]; the report therefore never holds the line "remainder
    not decreasing".  A trace has at most 100 remainders and ends at 0 or
    1, unless it has exactly 100. *)
Theorem fixed_remainders_descend (fuel : nat) (x y : Z) (res : Fixed.outcome) :
  0 < x -> 1 < y -> y <= 2 ^ 52 ->
  Fixed.inverseModFull fuel x y = Some res ->
  ~ In NotDecreasing (Fixed.result res)
  /\ forall (k r : list Z) (z : Z),
       In (FinalValues x y k r z) (Fixed.result res) ->
       strictlyDecreasing r
       /\ (exists r1, hd_error r = Some r1 /\ 0 < r1 <= x mod y)
       /\ len r <= Fixed.maxIterations
       /\ (lastIs r 0 \/ lastIs r 1 \/ len r = Fixed.maxIterations).
Proof.
  intros Hx Hlo Hhi. unfold Fixed.inverseModFull.
  destruct (Fixed.checkSpecialCases fuel x y) as [sp |] eqn:Hsp; cbn [bind];
    [| discriminate].
  pose proof (checkSpecialCases_message _ _ _ _ Hsp) as Hmsg.
  destruct (Fixed.isSpecialCase sp) eqn:Hspecial.
  { intros [= <-]. cbn [Fixed.result]. split.
    - intros [H | H]; [discriminate |].
      revert Hsp H. unfold Fixed.checkSpecialCases.
      destruct ((x =? 0) || (y =? 0)).
      + intros [= <-]. simpl.
        destruct (x =? 0); destruct (y =? 0); simpl; intuition discriminate.
      + destruct (Fixed.gcd fuel x y) as [g |]; cbn [bind]; [| discriminate].
        destruct (negb (g =? 1)); intros [= <-]; simpl; intuition discriminate.
    - intros k r z [H | H]; [discriminate |].
      rewrite Forall_forall in Hmsg. destruct (Hmsg _ H). }
  destruct (Num.rem x y =? 0) eqn:Hcx.
  { intros [= <-]. cbn [Fixed.result]. split.
    - simpl. intuition discriminate.
    - intros k r z H. simpl in H. intuition discriminate. }
  assert (Hrem : Num.rem x y = x mod y) by (apply rem_mod; lia).
  assert (Hcur : 0 < x mod y < y).
  { pose proof (Z.mod_pos_bound x y ltac:(lia)). apply Z.eqb_neq in Hcx. lia. }
  rewrite Hrem in *. unfold Num.floorDiv.
  set (cx := x mod y) in *.
  set (k1 := y / cx + 1).
  pose proof (Z.div_mod y cx ltac:(lia)) as Hdm.
  pose proof (Z.mod_pos_bound y cx ltac:(lia)) as Hmb.
  assert (Hq : 1 <= y / cx) by (apply Z.div_le_lower_bound; lia).
  change (get [k1] 0) with (Some k1). cbn [bind].
  set (r1 := Num.rem (Num.mul cx k1) y).
  change (get [r1] 0) with (Some r1). cbn [bind].
  assert (Hr1 : r1 = cx * k1 - y).
  { unfold r1. rewrite mul_exact by (unfold k1; nia).
    rewrite rem_mod by (unfold k1; nia).
    symmetry. apply (Z.mod_unique_pos _ _ 1); unfold k1; nia. }
  assert (Hr1range : 0 < r1 <= cx) by (rewrite Hr1; unfold k1; nia).
  destruct (Fixed.loop fuel y _) as [st |] eqn:Hloop; cbn [bind]; [| discriminate].
  pose proof Hloop as Hspec.
  apply (fixed_loop_spec y ltac:(lia)) in Hspec.
  2:{ unfold fixedInv. simpl. repeat split; repeat constructor; lia. }
  apply (fixed_loop_descent y Hlo Hhi) in Hloop.
  2:{ unfold fixedInv. simpl. repeat split; repeat constructor; lia. }
  2:{ unfold fixedDescent. cbn [Fixed.n Fixed.r Fixed.log].
      split; [unfold Fixed.maxIterations; lia |]. split.
      - intros [| [| i]] a b Ha Hb; simpl in *; discriminate.
      - simpl. intuition discriminate. }
  cbn [Fixed.k Fixed.r Fixed.n Fixed.log] in Hspec.
  destruct Hspec as (_ & _ & Hlog & ks & rs & _ & Hrs & _).
  destruct Hloop as (Hdec & Hnd & Hcap & Hexit).
  intros [= <-]. cbn [Fixed.result]. split.
  - intros Hin. apply in_app_or in Hin. destruct Hin as [Hin | Hin].
    + destruct (get (Fixed.r st) (len (Fixed.r st) - 1)) as [[| [| |] |] |];
        apply in_app_or in Hin; destruct Hin as [Hin | Hin];
        try contradiction;
        simpl in Hin; intuition discriminate.
    + simpl in Hin. intuition discriminate.
  - intros k r z Hin.
    assert (Heq : r = Fixed.r st).
    { apply in_app_or in Hin. destruct Hin as [Hin | Hin].
      - destruct (get (Fixed.r st) (len (Fixed.r st) - 1)) as [[| [| |] |] |];
          apply in_app_or in Hin; destruct Hin as [Hin | Hin];
          try (rewrite Forall_forall in Hlog; destruct (Hlog _ Hin));
          simpl in Hin; intuition discriminate.
      - simpl in Hin. destruct Hin as [Hin | [Hin | []]]; [| discriminate].
        injection Hin as _ Hr _. congruence. }
    subst r. split; [assumption |].
    split; [exists r1; rewrite Hrs; split; [reflexivity | lia] |].
    split; assumption.
Qed.

Lemma fixed_remainders_descend_witness :
  ~ In NotDecreasing
      (Fixed.result
         {| Fixed.result :=
              [Calculating 3 7; Step 1 7 3 3 2; Step 2 7 2 4 1; Product 5;
               FinalValues 3 7 [3; 4] [2; 1] 5; Validation 5 3 7 true];
            Fixed.z := 5 |})
  /\ forall (k r : list Z) (z : Z),
       In (FinalValues 3 7 k r z)
         (Fixed.result
            {| Fixed.result :=
                 [Calculating 3 7; Step 1 7 3 3 2; Step 2 7 2 4 1; Product 5;
                  FinalValues 3 7 [3; 4] [2; 1] 5; Validation 5 3 7 true];
               Fixed.z := 5 |}) ->
       strictlyDecreasing r
       /\ (exists r1, hd_error r = Some r1 /\ 0 < r1 <= 3 mod 7)
       /\ len r <= Fixed.maxIterations
       /\ (lastIs r 0 \/ lastIs r 1 \/ len r = Fixed.maxIterations).
Proof.
  apply (fixed_remainders_descend 20 3 7); try lia.
  vm_compute. reflexivity.
Defined.


Lemma fixed_loop_at_one (fuel : nat) (y : Z) (st : Fixed.state) :
  get (Fixed.r st) (Fixed.n st - 1) = Some 1 ->
  Fixed.loop (S fuel) y st = Some st.
Proof. intros H. simpl. rewrite H. reflexivity. Qed.



(** ** Inverses found in one step *)



(** ** The modulus 1 *)

(** X16.  For the modulus 1 no variant reports an inverse, whatever the
    non-zero base: the fixed and the parity-backtracking variant report
    that the base is a multiple of the modulus and answer 0, and the
    humanized entry point answers that the search failed. *)
Theorem modulus_one (fuel : nat) (x : Z) (o : Humanized.options) :
  x <> 0 -> (1 < fuel)%nat ->
  Fixed.inverseModFull fuel x 1
  = Some {| Fixed.result := [Calculating x 1; MultipleOf x 1]; Fixed.z := 0 |}
  /\ Backtrack.inverseModFull fuel x 1
     = Some {| Backtrack.result := [Calculating x 1; MultipleOf x 1];
               Backtrack.z := 0 |}
  /\ Humanized.computeModularInverse fuel x 1 o
     = Some {| Humanized.success := false; Humanized.answerInverse := None;
               Humanized.answerMethod := Humanized.none;
               Humanized.answerDetails := None;
               Humanized.answerReason := Some Humanized.SearchFailed |}.
Proof.
  intros Hx Hfuel.
  assert (Hrem : forall a, Num.rem a 1 = 0) by (intros a; apply Z.rem_1_r).
  assert (Hgcd : forall a, Fixed.gcd fuel a 1 = Some 1).
  { intros a. destruct fuel as [| [| fuel]]; try lia.
    simpl. rewrite Hrem. reflexivity. }
  assert (Hsp : Fixed.checkSpecialCases fuel x 1
                = Some {| Fixed.isSpecialCase := false; Fixed.message := [] |}).
  { unfold Fixed.checkSpecialCases.
    destruct (Z.eqb_spec x 0); [contradiction |]. simpl.
    rewrite Hgcd. reflexivity. }
  unfold Fixed.inverseModFull, Backtrack.inverseModFull, Backtrack.checkSpecialCases.
  rewrite Hsp. cbn [bind Fixed.isSpecialCase]. rewrite Hrem.
  split; [reflexivity |]. split; [reflexivity |].
  unfold Humanized.computeModularInverse, Humanized.computeGreatestCommonDivisor.
  simpl (1 <=? 0). cbn iota. rewrite euclid_is_gcd.
  change (Z.abs 1) with 1. rewrite Hgcd. cbn [bind].
  unfold Humanized.findInverseWithBacktracking. rewrite Hrem.
  change (Num.rem (0 + 1) 1) with 0. reflexivity.
Qed.

Lemma modulus_one_witness :
  Fixed.inverseModFull 2 7 1
  = Some {| Fixed.result := [Calculating 7 1; MultipleOf 7 1]; Fixed.z := 0 |}
  /\ Backtrack.inverseModFull 2 7 1
     = Some {| Backtrack.result := [Calculating 7 1; MultipleOf 7 1];
               Backtrack.z := 0 |}
  /\ Humanized.computeModularInverse 2 7 1 Humanized.noOptions
     = Some {| Humanized.success := false; Humanized.answerInverse := None;
               Humanized.answerMethod := Humanized.none;
               Humanized.answerDetails := None;
               Humanized.answerReason := Some Humanized.SearchFailed |}.
Proof.
  apply (modulus_one 2 7 Humanized.noOptions); lia.
Defined.

(** ** The checked entry point [runInverseMod] *)

Lemma runInverseMod_check (x y : Z) :
  negb (Fixed.isPositiveInteger x) || negb (Fixed.isPositiveInteger y)
  = negb ((0 <? x) && (0 <? y)).
Proof.
  unfold Fixed.isPositiveInteger. destruct (0 <? x); destruct (0 <? y); reflexivity.
Qed.

(** X17.  On integer arguments up to 2^52, which [parseInt] gives back
    unchanged and on which every loop of the two files returns,
    [runInverseMod], in both files, reports [success: true] exactly when
    both arguments are positive.  Other arguments are refused with the
    error text and [z = 0].  On positive arguments [z] and the text are
    those of [inverseModFull], with or without steps, so that
    [success: true] comes with [z = 0] whenever no inverse was found, for
    instance for every pair that is not coprime. *)
Theorem runInverseMod_success_flag (fuel : nat) (x y : Z) (showSteps : bool) :
  x <= 2 ^ 52 -> y <= 2 ^ 52 ->
  (Z.to_nat (Z.max (2 * y + 1)
               ((Backtrack.maxBacktracks + 1) * (Backtrack.maxIterations + 1)))
   < fuel)%nat ->
  (exists run,
      Fixed.runInverseMod fuel x y showSteps = Some run
      /\ (Fixed.runSuccess run = true <-> 0 < x /\ 0 < y)
      /\ (Fixed.runSuccess run = false ->
          Fixed.runResult run = Fixed.NotPositiveIntegers /\ Fixed.runZ run = 0)
      /\ (Fixed.runSuccess run = true ->
          exists res,
            Fixed.inverseModFull fuel x y = Some res
            /\ Fixed.runZ run = Fixed.z res
            /\ Fixed.runResult run
               = (if showSteps then Fixed.Steps (Fixed.result res)
                  else Fixed.InverseOf x y (Fixed.z res))
            /\ (Z.gcd x y <> 1 -> Fixed.runZ run = 0)))
  /\ (exists run,
         Backtrack.runInverseMod fuel x y showSteps = Some run
         /\ (Fixed.runSuccess run = true <-> 0 < x /\ 0 < y)
         /\ (Fixed.runSuccess run = false ->
             Fixed.runResult run = Fixed.NotPositiveIntegers /\ Fixed.runZ run = 0)
         /\ (Fixed.runSuccess run = true ->
             exists res,
               Backtrack.inverseModFull fuel x y = Some res
               /\ Fixed.runZ run = Backtrack.z res
               /\ Fixed.runResult run
                  = (if showSteps then Fixed.Steps (Backtrack.result res)
                     else Fixed.InverseOf x y (Backtrack.z res))
               /\ (Z.gcd x y <> 1 -> Fixed.runZ run = 0))).
Proof.
  intros _ _ Hfuel.
  unfold Fixed.runInverseMod, Backtrack.runInverseMod, Backtrack.isPositiveInteger.
  rewrite runInverseMod_check.
  destruct (Z.ltb_spec 0 x) as [Hx | Hx]; destruct (Z.ltb_spec 0 y) as [Hy | Hy];
    cbn [andb negb];
    try (split; eexists; (split; [reflexivity |]); cbn [Fixed.runSuccess Fixed.runResult Fixed.runZ];
         (split; [split; [discriminate | lia] |]);
         (split; [auto | discriminate])).
  unfold Backtrack.maxBacktracks, Backtrack.maxIterations in Hfuel.
  destruct (fixed_returns y Hy fuel x Hx) as [fres Hfres];
    [unfold Fixed.maxIterations; lia |].
  destruct (backtrack_returns y Hy fuel x Hx) as [bres Hbres];
    [unfold Backtrack.maxBacktracks, Backtrack.maxIterations; lia |].
  unfold Fixed.inverseMod, Backtrack.inverseMod. rewrite Hfres, Hbres. cbn [bind].
  split.
  - exists (if showSteps
            then {| Fixed.runSuccess := true;
                    Fixed.runResult := Fixed.Steps (Fixed.result fres);
                    Fixed.runZ := Fixed.z fres |}
            else {| Fixed.runSuccess := true;
                    Fixed.runResult := Fixed.InverseOf x y (Fixed.z fres);
                    Fixed.runZ := Fixed.z fres |}).
    split; [destruct showSteps; reflexivity |].
    split; [destruct showSteps; simpl; split; auto |].
    split; [destruct showSteps; discriminate |].
    intros _. exists fres. split; [reflexivity |].
    split; [destruct showSteps; reflexivity |].
    split; [destruct showSteps; reflexivity |].
    intros Hg. revert Hfres. unfold Fixed.inverseModFull.
    rewrite checkSpecialCases_not_coprime by (try assumption; lia).
    cbn [bind Fixed.isSpecialCase]. intros [= <-]. destruct showSteps; reflexivity.
  - exists (if showSteps
            then {| Fixed.runSuccess := true;
                    Fixed.runResult := Fixed.Steps (Backtrack.result bres);
                    Fixed.runZ := Backtrack.z bres |}
            else {| Fixed.runSuccess := true;
                    Fixed.runResult := Fixed.InverseOf x y (Backtrack.z bres);
                    Fixed.runZ := Backtrack.z bres |}).
    split; [destruct showSteps; reflexivity |].
    split; [destruct showSteps; simpl; split; auto |].
    split; [destruct showSteps; discriminate |].
    intros _. exists bres. split; [reflexivity |].
    split; [destruct showSteps; reflexivity |].
    split; [destruct showSteps; reflexivity |].
    intros Hg. revert Hbres.
    unfold Backtrack.inverseModFull, Backtrack.checkSpecialCases.
    rewrite checkSpecialCases_not_coprime by (try assumption; lia).
    cbn [bind Fixed.isSpecialCase]. intros [= <-]. destruct showSteps; reflexivity.
Qed.

Lemma runInverseMod_success_flag_witness :
  (exists run,
      Fixed.runInverseMod 1300 4 6 false = Some run
      /\ (Fixed.runSuccess run = true <-> 0 < 4 /\ 0 < 6)
      /\ (Fixed.runSuccess run = false ->
          Fixed.runResult run = Fixed.NotPositiveIntegers /\ Fixed.runZ run = 0)
      /\ (Fixed.runSuccess run = true ->
          exists res,
            Fixed.inverseModFull 1300 4 6 = Some res
            /\ Fixed.runZ run = Fixed.z res
            /\ Fixed.runResult run
               = (if false then Fixed.Steps (Fixed.result res)
                  else Fixed.InverseOf 4 6 (Fixed.z res))
            /\ (Z.gcd 4 6 <> 1 -> Fixed.runZ run = 0)))
  /\ (exists run,
         Backtrack.runInverseMod 1300 4 6 false = Some run
         /\ (Fixed.runSuccess run = true <-> 0 < 4 /\ 0 < 6)
         /\ (Fixed.runSuccess run = false ->
             Fixed.runResult run = Fixed.NotPositiveIntegers /\ Fixed.runZ run = 0)
         /\ (Fixed.runSuccess run = true ->
             exists res,
               Backtrack.inverseModFull 1300 4 6 = Some res
               /\ Fixed.runZ run = Backtrack.z res
               /\ Fixed.runResult run
                  = (if false then Fixed.Steps (Backtrack.result res)
                     else Fixed.InverseOf 4 6 (Backtrack.z res))
               /\ (Z.gcd 4 6 <> 1 -> Fixed.runZ run = 0))).
Proof.
  apply (runInverseMod_success_flag 1300 4 6 false); [lia | lia |].
  apply Nat.ltb_lt. vm_compute. reflexivity.
Defined.

(** ** The humanized search and the residue of the base *)

(** X18.  For a modulus up to 2^52, where the sum that normalises the base
    is exact, the humanized search sees the base only through its residue:
    two bases congruent modulo the modulus, negative ones included, give
    the same search result and the same answer of [modularInverse]. *)
Theorem search_depends_on_residue (fuel : nat) (base base' modulus : Z)
    (o : Humanized.options) :
  0 < modulus <= 2 ^ 52 -> base mod modulus = base' mod modulus ->
  (Z.to_nat modulus < fuel)%nat ->
  Humanized.findInverseWithBacktracking fuel base modulus o
  = Humanized.findInverseWithBacktracking fuel base' modulus o
  /\ Humanized.modularInverse fuel base modulus o
     = Humanized.modularInverse fuel base' modulus o.
Proof.
  intros [Hm _] Hcong Hfuel.
  assert (Hfind : Humanized.findInverseWithBacktracking fuel base modulus o
                  = Humanized.findInverseWithBacktracking fuel base' modulus o).
  { unfold Humanized.findInverseWithBacktracking.
    rewrite !normalizedBase_mod by assumption. rewrite Hcong. reflexivity. }
  split; [exact Hfind |].
  unfold Humanized.modularInverse, Humanized.computeModularInverse.
  destruct (modulus <=? 0); [reflexivity |].
  rewrite !computeGreatestCommonDivisor_returns by lia.
  assert (Hg : Z.gcd base modulus = Z.gcd base' modulus).
  { rewrite (Z.gcd_comm base), (Z.gcd_comm base').
    rewrite <- (Z.gcd_mod base), <- (Z.gcd_mod base') by lia.
    rewrite Hcong. reflexivity. }
  rewrite Hg, Hfind. cbn [bind].
  destruct (negb (Z.gcd base' modulus =? 1)); [reflexivity |].
  destruct (Humanized.findInverseWithBacktracking fuel base' modulus o) as [heur |];
    [| reflexivity].
  cbn [bind]. destruct (Humanized.found heur); reflexivity.
Qed.

Lemma search_depends_on_residue_witness :
  Humanized.findInverseWithBacktracking 20 (-7) 12 Humanized.noOptions
  = Humanized.findInverseWithBacktracking 20 5 12 Humanized.noOptions
  /\ Humanized.modularInverse 20 (-7) 12 Humanized.noOptions
     = Humanized.modularInverse 20 5 12 Humanized.noOptions.
Proof.
  apply (search_depends_on_residue 20 (-7) 5 12 Humanized.noOptions).
  - lia.
  - reflexivity.
  - apply Nat.ltb_lt. reflexivity.
Defined.

(** ** The depth and the nodes of a path found *)

Section DepthFacts.

Variable s : Humanized.settings.
Variable modulus : Z.

Lemma tryOffsets_depth
    (rec : Z -> Z -> list Z -> list Z -> Z -> option (option Humanized.path * Z))
    (cur depth : Z) (ks rs : list Z) (bm : Z) :
  (forall next ks1 rs1 e p e',
      rec next (depth + 1) ks1 rs1 e = Some (Some p, e') ->
      exists ks', Humanized.pathMultipliers p = ks1 ++ ks'
                  /\ depth + 1 + len ks' <= Humanized.maxDepth s
                  /\ e + len ks' + 1 <= e') ->
  (forall next ks1 rs1 e out e',
      rec next (depth + 1) ks1 rs1 e = Some (out, e') -> e <= e') ->
  forall (offs : list Z) (e : Z) (p : Humanized.path) (e' : Z),
    Humanized.tryOffsets rec s modulus cur depth ks rs bm offs e = Some (Some p, e') ->
    exists ks', Humanized.pathMultipliers p = ks ++ ks'
                /\ depth + len ks' <= Humanized.maxDepth s
                /\ e + len ks' <= e'.
Proof.
  intros Hrec Hmono. induction offs as [| offset offs IH]; intros e p e' Hrun.
  - simpl in Hrun. discriminate.
  - simpl in Hrun.
    destruct (bm + offset <=? 0); [eapply IH; eassumption |].
    destruct (Num.rem (Num.mul cur (bm + offset)) modulus =? 0);
      [eapply IH; eassumption |].
    destruct (Humanized.progressRequired s
              && (cur <=? Num.rem (Num.mul cur (bm + offset)) modulus));
      [eapply IH; eassumption |].
    destruct (rec _ _ _ _ _) as [[[q |] e1] |] eqn:Hsub; cbn [bind] in Hrun.
    + injection Hrun as <- <-.
      destruct (Hrec _ _ _ _ _ _ Hsub) as (ks' & Hk & Hd & He).
      exists ((bm + offset) :: ks'). rewrite Hk, <- app_assoc.
      split; [reflexivity |].
      unfold len in *. simpl length. lia.
    + apply Hmono in Hsub.
      destruct (IH _ _ _ Hrun) as (ks' & Hk & Hd & He).
      exists ks'. repeat split; try assumption. lia.
    + discriminate.
Qed.

Lemma dfs_depth (fuel : nat) :
  forall cur depth ks rs e p e',
    cur <> 1 \/ depth <= Humanized.maxDepth s ->
    Humanized.dfs fuel s modulus cur depth ks rs e = Some (Some p, e') ->
    exists ks', Humanized.pathMultipliers p = ks ++ ks'
                /\ depth + len ks' <= Humanized.maxDepth s
                /\ e + len ks' + 1 <= e'.
Proof.
  induction fuel as [| fuel IH]; intros cur depth ks rs e p e' Hpre Hrun;
    [discriminate |].
  simpl in Hrun.
  destruct (Humanized.maxNodes s <=? e); [discriminate |].
  destruct (Z.eqb_spec cur 1) as [-> | Hne].
  - injection Hrun as <- <-. exists []. rewrite app_nil_r. simpl.
    split; [reflexivity |]. unfold len. simpl. lia.
  - destruct (Z.leb_spec (Humanized.maxDepth s) depth) as [| Hlt]; [discriminate |].
    apply tryOffsets_depth in Hrun.
    + destruct Hrun as (ks' & Hk & Hd & He). exists ks'.
      repeat split; try assumption. lia.
    + intros next ks1 rs1 e0 p0 e0' Hsub.
      eapply IH; [| exact Hsub]. right. lia.
    + intros next ks1 rs1 e0 out e0' Hsub.
      apply dfs_nodes in Hsub. lia.
Qed.

End DepthFacts.

(** X19.  For a modulus up to 2^52, where the sum that normalises the base
    is exact: a successful humanized search returns at least one and at
    most [maxDepth] multipliers and one remainder more, and it has explored
    at least as many nodes as it returns remainders and at most [maxNodes];
    the exception is a base congruent to 1, answered with the multiplier
    list [[1]] without a search, whatever the bounds are. *)
Theorem search_depth_bound (fuel : nat) (base modulus : Z) (o : Humanized.options)
    (res : Humanized.search) :
  0 < modulus <= 2 ^ 52 ->
  Humanized.findInverseWithBacktracking fuel base modulus o = Some res ->
  Humanized.found res = true ->
  (base mod modulus = 1 /\ Humanized.multipliers res = [1])
  \/ (1 < base mod modulus
      /\ 1 <= len (Humanized.multipliers res)
           <= Humanized.maxDepth (Humanized.settingsOf o)
      /\ len (Humanized.remainders res) = len (Humanized.multipliers res) + 1
      /\ len (Humanized.remainders res) <= Humanized.exploredNodes res
           <= Humanized.maxNodes (Humanized.settingsOf o)).
Proof.
  intros [Hm _]. unfold Humanized.findInverseWithBacktracking.
  rewrite normalizedBase_mod by assumption.
  pose proof (Z.mod_pos_bound base modulus Hm) as Hb.
  destruct (Z.eqb_spec (base mod modulus) 0) as [H0 | H0].
  { intros [= <-]. discriminate. }
  destruct (Z.eqb_spec (base mod modulus) 1) as [H1 | H1].
  { intros [= <-] _. left. split; [assumption | reflexivity]. }
  destruct (Humanized.dfs _ _ _ _ _ _ _ _) as [[[p |] e] |] eqn:Hdfs;
    cbn [bind]; intros [= <-]; [| discriminate].
  intros _. right. split; [lia |].
  cbn [Humanized.multipliers Humanized.remainders Humanized.exploredNodes].
  pose proof Hdfs as Hpath. pose proof Hdfs as Hnodes.
  apply dfs_depth in Hdfs; [| left; assumption].
  destruct Hdfs as (ks' & Hk & Hd & He). simpl in Hk.
  apply dfs_nodes in Hnodes.
  apply (dfs_path _ modulus (settingsOf_progress o)) in Hpath.
  destruct Hpath as (ks2 & rs2 & Hk2 & Hr2 & Hdesc).
  simpl in Hk2. rewrite Hk2 in *. subst ks2.
  pose proof (descends_length _ _ _ _ _ Hdesc) as Hlen.
  rewrite Hr2. unfold len in *. rewrite length_app. simpl length.
  assert (Hpos : (0 < length ks')%nat).
  { destruct ks' as [| k0 ks']; [| simpl; lia].
    inversion Hdesc. congruence. }
  repeat split; lia.
Qed.

Lemma search_depth_bound_witness :
  (31 mod 37 = 1
   /\ Humanized.multipliers
        {| Humanized.found := true; Humanized.inverse := 6;
           Humanized.multipliers := [2; 2; 3; 19];
           Humanized.remainders := [31; 25; 13; 2; 1];
           Humanized.exploredNodes := 5 |} = [1])
  \/ (1 < 31 mod 37
      /\ 1 <= len (Humanized.multipliers
                     {| Humanized.found := true; Humanized.inverse := 6;
                        Humanized.multipliers := [2; 2; 3; 19];
                        Humanized.remainders := [31; 25; 13; 2; 1];
                        Humanized.exploredNodes := 5 |})
           <= Humanized.maxDepth (Humanized.settingsOf Humanized.noOptions)
      /\ len (Humanized.remainders
                {| Humanized.found := true; Humanized.inverse := 6;
                   Humanized.multipliers := [2; 2; 3; 19];
                   Humanized.remainders := [31; 25; 13; 2; 1];
                   Humanized.exploredNodes := 5 |})
         = len (Humanized.multipliers
                  {| Humanized.found := true; Humanized.inverse := 6;
                     Humanized.multipliers := [2; 2; 3; 19];
                     Humanized.remainders := [31; 25; 13; 2; 1];
                     Humanized.exploredNodes := 5 |}) + 1
      /\ len (Humanized.remainders
                {| Humanized.found := true; Humanized.inverse := 6;
                   Humanized.multipliers := [2; 2; 3; 19];
                   Humanized.remainders := [31; 25; 13; 2; 1];
                   Humanized.exploredNodes := 5 |})
         <= Humanized.exploredNodes
              {| Humanized.found := true; Humanized.inverse := 6;
                 Humanized.multipliers := [2; 2; 3; 19];
                 Humanized.remainders := [31; 25; 13; 2; 1];
                 Humanized.exploredNodes := 5 |}
         <= Humanized.maxNodes (Humanized.settingsOf Humanized.noOptions)).
Proof.
  apply (search_depth_bound 65 31 37 Humanized.noOptions).
  - lia.
  - vm_compute. reflexivity.
  - reflexivity.
Defined.

(** ** Options that leave nothing to search *)

(** X20.  For a modulus up to 2^52, where the sum that normalises the base
    is exact: with [maxNodes <= 0], with [maxDepth <= 0] or with an empty
    list of offsets, the humanized search fails for every base whose residue
    is above 1; it has then explored no node when [maxNodes <= 0], and
    exactly one otherwise. *)
Theorem nothing_to_search (fuel : nat) (base modulus : Z) (o : Humanized.options) :
  0 < modulus <= 2 ^ 52 -> 1 < base mod modulus -> (0 < fuel)%nat ->
  Humanized.maxNodes (Humanized.settingsOf o) <= 0
  \/ Humanized.maxDepth (Humanized.settingsOf o) <= 0
  \/ Humanized.multiplierOffsets (Humanized.settingsOf o) = [] ->
  Humanized.findInverseWithBacktracking fuel base modulus o
  = Some {| Humanized.found := false; Humanized.inverse := 0;
            Humanized.multipliers := [];
            Humanized.remainders := [base mod modulus];
            Humanized.exploredNodes :=
              if Humanized.maxNodes (Humanized.settingsOf o) <=? 0 then 0 else 1 |}.
Proof.
  intros [Hm _] Hb Hfuel Hopt. unfold Humanized.findInverseWithBacktracking.
  rewrite normalizedBase_mod by assumption.
  destruct (Z.eqb_spec (base mod modulus) 0); [lia |].
  destruct (Z.eqb_spec (base mod modulus) 1); [lia |].
  destruct fuel as [| fuel]; [lia |].
  cbn [Humanized.dfs].
  destruct (Z.leb_spec (Humanized.maxNodes (Humanized.settingsOf o)) 0) as [Hn | Hn];
    [reflexivity |].
  destruct (Z.eqb_spec (base mod modulus) 1); [lia |].
  destruct (Z.leb_spec (Humanized.maxDepth (Humanized.settingsOf o)) 0) as [Hd | Hd];
    [reflexivity |].
  destruct Hopt as [Hopt | [Hopt | Hopt]]; try lia.
  rewrite Hopt. reflexivity.
Qed.

Lemma nothing_to_search_witness :
  Humanized.findInverseWithBacktracking 1 5 12
    {| Humanized.optMaxDepth := None; Humanized.optMaxNodes := None;
       Humanized.optMultiplierOffsets := Some [] |}
  = Some {| Humanized.found := false; Humanized.inverse := 0;
            Humanized.multipliers := [];
            Humanized.remainders := [5 mod 12];
            Humanized.exploredNodes :=
              if Humanized.maxNodes
                   (Humanized.settingsOf
                      {| Humanized.optMaxDepth := None; Humanized.optMaxNodes := None;
                         Humanized.optMultiplierOffsets := Some [] |}) <=? 0
              then 0 else 1 |}.
Proof.
  apply (nothing_to_search 1 5 12).
  - lia.
  - reflexivity.
  - lia.
  - right. right. reflexivity.
Defined.

(** ** The explanation of a run *)



(** X22.  Up to a modulus and a base of 2^26, the inverse that
    [explainHeuristicRun] shows is valid and lies strictly between 0 and the
    modulus, and the value on its validation line is 1 for a non-negative
    base but [1 - modulus] for a negative one. *)
Theorem explanation_validation (fuel : nat) (base modulus : Z)
    (o : Humanized.options) (lines : list Humanized.explained) (inv v : Z) :
  1 < modulus -> modulus <= 2 ^ 26 -> - 2 ^ 26 <= base <= 2 ^ 26 ->
  smallOffsets (Humanized.settingsOf o) ->
  Humanized.explainHeuristicRun fuel base modulus o = Some lines ->
  In (Humanized.ValidationLine inv base modulus v) lines ->
  (inv * base) mod modulus = 1
  /\ 0 < inv < modulus
  /\ v = if 0 <=? base then 1 else 1 - modulus.
Proof.
  intros Hlo Hhi Hbase Hoff. unfold Humanized.explainHeuristicRun.
  destruct (Humanized.computeGreatestCommonDivisor fuel base modulus) as [g |];
    cbn [bind]; [| discriminate].
  destruct (negb (g =? 1)).
  { intros [= <-] [H | []]. discriminate. }
  destruct (Humanized.findInverseWithBacktracking fuel base modulus o)
    as [attempt |] eqn:Hfind; cbn [bind]; [| discriminate].
  destruct (Humanized.found attempt) eqn:Hfound; cbn [negb].
  2:{ intros [= <-] H. simpl in H. intuition discriminate. }
  intros [= <-] H. simpl in H.
  repeat (destruct H as [H | H]; try discriminate); [| contradiction].
  injection H as <- <-.
  pose proof (found_inverse_valid _ modulus Hlo Hhi Hoff fuel base o attempt
                eq_refl Hfind Hfound) as Hvalid.
  assert (Hrange : 0 <= Humanized.inverse attempt < modulus).
  { pose proof (Z.mod_pos_bound base modulus ltac:(lia)) as Hb.
    destruct (findInverse_cases modulus ltac:(lia) fuel base o attempt Hfind)
      as [[_ ->] | [[_ ->] | (Hb0 & _ & [(Hf & _) | (_ & Hinv & rs & _ & Hdesc)])]];
      simpl; try lia; [congruence |].
    destruct (descends_product _ modulus Hlo Hhi Hoff _ _ _ Hdesc ltac:(lia))
      as [_ Hks].
    rewrite Hinv, (running_inverse modulus Hlo Hhi _ Hks) by lia.
    apply Z.mod_pos_bound. lia. }
  assert (Hnz : Humanized.inverse attempt <> 0).
  { intros H0. rewrite H0 in Hvalid. simpl in Hvalid.
    rewrite Z.mod_0_l in Hvalid by lia. discriminate. }
  split; [exact Hvalid |]. split; [lia |].
  set (inv := Humanized.inverse attempt) in *.
  assert (Hexact : Num.mul inv base = inv * base) by (apply mul_exact; nia).
  rewrite Hexact. unfold Num.rem.
  destruct (Z.leb_spec 0 base) as [Hpos | Hneg].
  - rewrite Z.rem_mod_nonneg by nia. exact Hvalid.
  - replace (inv * base) with (- (- (inv * base))) by lia.
    rewrite Z.rem_opp_l', Z.rem_mod_nonneg by nia.
    pose proof (Z.div_mod (inv * base) modulus ltac:(lia)) as Hdm.
    rewrite Hvalid in Hdm.
    assert (Hm1 : modulus - 1 = (- (inv * base)) mod modulus).
    { apply (Z.mod_unique_pos _ _ (- (inv * base / modulus) - 1)); lia. }
    lia.
Qed.

Lemma explanation_validation_witness :
  (5 * -7) mod 12 = 1 /\ 0 < 5 < 12 /\ -11 = if 0 <=? -7 then 1 else 1 - 12.
Proof.
  apply (explanation_validation 65 (-7) 12 Humanized.noOptions
           [Humanized.CalculatingInverse (-7) 12; Humanized.SolutionAfter 3;
            Humanized.RemaindersLine [5; 1]; Humanized.MultipliersLine [5];
            Humanized.InverseLine 12 5; Humanized.ValidationLine 5 (-7) 12 (-11)]).
  - lia.
  - vm_compute. discriminate.
  - lia.
  - repeat constructor; vm_compute; discriminate.
  - vm_compute. reflexivity.
  - simpl. tauto.
Defined.

(** ** The note of the parity-backtracking variant *)

(** [inv = eg.x % y; if (inv < 0) inv += y] is the residue of [eg.x]. *)
Lemma normalized_residue (v y : Z) :
  0 < y ->
  (if Num.rem v y <? 0 then Num.rem v y + y else Num.rem v y) = v mod y.
Proof.
  intros Hy. unfold Num.rem.
  pose proof (Z.rem_bound_abs v y ltac:(lia)) as Habs.
  pose proof (Z.quot_rem' v y) as Hqr.
  destruct (Z.ltb_spec (Z.rem v y) 0) as [Hneg | Hpos].
  - apply (Z.mod_unique_pos _ _ (Z.quot v y - 1)); lia.
  - apply (Z.mod_unique_pos _ _ (Z.quot v y)); lia.
Qed.

(** The first step of the parity-backtracking variant: the multiplier is
    [floor (y / xNorm) + 1] and the remainder is not 0. *)
Lemma backtrack_first_step (fuel : nat) (xNorm y : Z) :
  0 < xNorm < y -> y <= 2 ^ 52 -> (0 < fuel)%nat ->
  Backtrack.normalizeKForBounds fuel xNorm y
    (if Num.mul (Num.floorDiv y xNorm) xNorm <=? y
     then Num.floorDiv y xNorm + 1 else Num.floorDiv y xNorm)
  = Some (y / xNorm + 1)
  /\ Num.rem (Num.mul xNorm (y / xNorm + 1)) y = xNorm - y mod xNorm
  /\ 0 < xNorm - y mod xNorm <= xNorm.
Proof.
  intros Hx Hy Hfuel. unfold Num.floorDiv.
  pose proof (Z.div_mod y xNorm ltac:(lia)) as Hdm.
  pose proof (Z.mod_pos_bound y xNorm ltac:(lia)) as Hmb.
  assert (Hq : 1 <= y / xNorm) by (apply Z.div_le_lower_bound; lia).
  split.
  - rewrite (mul_exact (y / xNorm)) by nia.
    destruct (Z.leb_spec (y / xNorm * xNorm) y); [| nia].
    rewrite normalize_closed by lia. f_equal. lia.
  - split; [| lia].
    rewrite mul_exact by nia. rewrite rem_mod by nia.
    symmetry. apply (Z.mod_unique_pos _ _ 1); nia.
Qed.

(** X23.  On a coprime pair up to 2^52 the report of the
    parity-backtracking variant closes in one of two ways: with the product
    line, when the remainders end at 1; or, when they do not, with the
    failure line, the note of the extended Euclidean algorithm, the final
    values with [z = 0] and a failed validation.  The number in the note is
    the inverse: it lies strictly between 0 and [y] and
    [(inv * x) mod y = 1]. *)
Theorem backtrack_note_is_inverse (fuel : nat) (x y : Z) (res : Backtrack.outcome) :
  0 < x -> x <= 2 ^ 52 -> 1 < y -> y <= 2 ^ 52 -> Z.gcd x y = 1 ->
  (Z.to_nat y < fuel)%nat ->
  Backtrack.inverseModFull fuel x y = Some res ->
  (exists pre k r z,
      Backtrack.result res
      = pre ++ [Product z; FinalValues x y k r z;
                Validation z x y (Num.rem (Num.mul z x) y =? 1)]
      /\ lastIs r 1 /\ Backtrack.z res = z)
  \/ (exists pre k r inv,
         Backtrack.result res
         = pre ++ [FailedToFind (get r (len r - 1)); CorrectInverse inv;
                   FinalValues x y k r 0; Validation 0 x y false]
         /\ ~ lastIs r 1 /\ Backtrack.z res = 0
         /\ 0 < inv < y /\ (inv * x) mod y = 1).
Proof.
  intros Hx Hxhi Hlo Hhi Hg Hfuel.
  unfold Backtrack.inverseModFull, Backtrack.checkSpecialCases.
  rewrite checkSpecialCases_coprime by (try assumption; lia).
  cbn [bind Fixed.isSpecialCase].
  assert (Hrem : Num.rem x y = x mod y) by (apply rem_mod; lia).
  pose proof (Z.mod_pos_bound x y ltac:(lia)) as Hcb.
  assert (Hcx : x mod y <> 0).
  { intros H0. apply Z.mod_divide in H0; [| lia].
    assert (Hdiv : (y | Z.gcd x y)) by (apply Z.gcd_greatest; [assumption | apply Z.divide_refl]).
    rewrite Hg in Hdiv. apply Z.divide_1_r_nonneg in Hdiv; lia. }
  rewrite Hrem. destruct (Z.eqb_spec (x mod y) 0); [contradiction |].
  destruct (backtrack_first_step fuel (x mod y) y ltac:(lia) Hhi ltac:(lia))
    as (-> & Hr1 & Hr1range).
  cbn [bind]. rewrite Hr1.
  destruct (Z.eqb_spec (x mod y - y mod (x mod y)) 0); [lia |].
  destruct (Backtrack.loop fuel fuel x y _) as [st |]; cbn [bind]; [| discriminate].
  unfold Backtrack.finish.
  destruct (extendedGcd_spec fuel x y ltac:(lia) ltac:(lia) Hfuel)
    as (eg & Heg & Hgcd & Hbez & _).
  assert (Hnote : (if Backtrack.gcdOf eg =? 1
                   then [CorrectInverse
                           (if Num.rem (Backtrack.coefX eg) y <? 0
                            then Num.rem (Backtrack.coefX eg) y + y
                            else Num.rem (Backtrack.coefX eg) y)]
                   else [])
                  = [CorrectInverse (Backtrack.coefX eg mod y)]).
  { rewrite Hgcd, Hg. simpl (1 =? 1). cbn iota.
    rewrite normalized_residue by lia. reflexivity. }
  assert (Hinv : (Backtrack.coefX eg mod y * x) mod y = 1).
  { rewrite Z.mul_mod_idemp_l by lia.
    replace (Backtrack.coefX eg * x) with (1 + (- Backtrack.coefY eg) * y)
      by (rewrite Hgcd, Hg in Hbez; lia).
    rewrite Z.mod_add by lia. apply Z.mod_small. lia. }
  assert (Hinvrange : 0 < Backtrack.coefX eg mod y < y).
  { pose proof (Z.mod_pos_bound (Backtrack.coefX eg) y ltac:(lia)).
    destruct (Z.eq_dec (Backtrack.coefX eg mod y) 0) as [H0 | H0]; [| lia].
    rewrite H0 in Hinv. simpl in Hinv. rewrite Z.mod_0_l in Hinv by lia.
    discriminate. }
  assert (Hfalse : (Num.rem (Num.mul 0 x) y =? 1) = false).
  { rewrite mul_exact by lia. simpl (0 * x). unfold Num.rem.
    rewrite Z.rem_0_l by lia. reflexivity. }
  assert (Hfail : forall last,
             last = get (Backtrack.r st) (len (Backtrack.r st) - 1) ->
             last <> Some 1 ->
             forall res',
               (report <- (eg <- Backtrack.extendedGcd fuel x y ;;
                           let note :=
                             if Backtrack.gcdOf eg =? 1
                             then [CorrectInverse
                                     (if Num.rem (Backtrack.coefX eg) y <? 0
                                      then Num.rem (Backtrack.coefX eg) y + y
                                      else Num.rem (Backtrack.coefX eg) y)]
                             else [] in
                           Some (0, Backtrack.log st ++ [FailedToFind last] ++ note)) ;;
                let '(z, result) := report in
                Some {| Backtrack.result :=
                          result ++ [FinalValues x y (Backtrack.k st) (Backtrack.r st) z;
                                     Validation z x y (Num.rem (Num.mul z x) y =? 1)];
                        Backtrack.z := z |}) = Some res' ->
             exists pre k r inv,
               Backtrack.result res'
               = pre ++ [FailedToFind (get r (len r - 1)); CorrectInverse inv;
                         FinalValues x y k r 0; Validation 0 x y false]
               /\ ~ lastIs r 1 /\ Backtrack.z res' = 0
               /\ 0 < inv < y /\ (inv * x) mod y = 1).
  { intros last Hlast Hne res'. rewrite Heg. cbn [bind]. cbv zeta.
    rewrite Hnote, Hfalse. intros [= <-]. cbn [Backtrack.result Backtrack.z].
    exists (Backtrack.log st), (Backtrack.k st), (Backtrack.r st),
      (Backtrack.coefX eg mod y).
    split; [rewrite <- Hlast, <- !app_assoc; reflexivity |].
    split; [unfold lastIs; congruence |].
    split; [reflexivity |]. split; assumption. }
  destruct (get (Backtrack.r st) (len (Backtrack.r st) - 1)) as [[| [| |] |] |] eqn:Hlast;
    try (intros Hrun; right; eapply Hfail; [reflexivity | discriminate | exact Hrun]).
  cbn [bind]. intros [= <-]. left. cbn [Backtrack.result Backtrack.z].
  exists (Backtrack.log st), (Backtrack.k st), (Backtrack.r st),
    (Backtrack.productMod (Backtrack.k st) y).
  split; [rewrite <- app_assoc; reflexivity |].
  split; [exact Hlast | reflexivity].
Qed.

Lemma backtrack_note_is_inverse_witness :
  (exists pre k r z,
      Backtrack.result
        {| Backtrack.result :=
             [Calculating 5 12; Step 1 12 5 3 3; Step 2 12 3 5 3;
              NotDecreasing; FailedToFind (Some 3); CorrectInverse 5;
              FinalValues 5 12 [3; 5] [3; 3] 0; Validation 0 5 12 false];
           Backtrack.z := 0 |}
      = pre ++ [Product z; FinalValues 5 12 k r z;
                Validation z 5 12 (Num.rem (Num.mul z 5) 12 =? 1)]
      /\ lastIs r 1
      /\ Backtrack.z
           {| Backtrack.result :=
                [Calculating 5 12; Step 1 12 5 3 3; Step 2 12 3 5 3;
                 NotDecreasing; FailedToFind (Some 3); CorrectInverse 5;
                 FinalValues 5 12 [3; 5] [3; 3] 0; Validation 0 5 12 false];
              Backtrack.z := 0 |} = z)
  \/ (exists pre k r inv,
         Backtrack.result
           {| Backtrack.result :=
                [Calculating 5 12; Step 1 12 5 3 3; Step 2 12 3 5 3;
                 NotDecreasing; FailedToFind (Some 3); CorrectInverse 5;
                 FinalValues 5 12 [3; 5] [3; 3] 0; Validation 0 5 12 false];
              Backtrack.z := 0 |}
         = pre ++ [FailedToFind (get r (len r - 1)); CorrectInverse inv;
                   FinalValues 5 12 k r 0; Validation 0 5 12 false]
         /\ ~ lastIs r 1
         /\ Backtrack.z
              {| Backtrack.result :=
                   [Calculating 5 12; Step 1 12 5 3 3; Step 2 12 3 5 3;
                    NotDecreasing; FailedToFind (Some 3); CorrectInverse 5;
                    FinalValues 5 12 [3; 5] [3; 3] 0; Validation 0 5 12 false];
                 Backtrack.z := 0 |} = 0
         /\ 0 < inv < 12 /\ (inv * 5) mod 12 = 1).
Proof.
  apply (backtrack_note_is_inverse 20 5 12); try lia.
  - reflexivity.
  - vm_compute. reflexivity.
Defined.

(** ** The trace of the parity-backtracking variant *)

Lemma get_last_cons (a : Z) (l : list Z) :
  l <> [] -> get (a :: l) (len (a :: l) - 1) = get l (len l - 1).
Proof.
  intros Hne. unfold get, len. simpl length.
  destruct l as [| b l]; [contradiction |]. simpl length.
  destruct (Z.ltb_spec (Z.of_nat (S (S (length l))) - 1) 0); [lia |].
  destruct (Z.ltb_spec (Z.of_nat (S (length l)) - 1) 0); [lia |].
  replace (Z.to_nat (Z.of_nat (S (S (length l))) - 1))
    with (S (Z.to_nat (Z.of_nat (S (length l)) - 1))) by lia.
  reflexivity.
Qed.

Lemma exactTrace_length (y : Z) (ks : list Z) :
  forall prev rs, exactTrace y prev ks rs -> length ks = length rs.
Proof.
  induction ks as [| ki ks IH]; intros prev [| ri rs] H; simpl in *;
    try contradiction; [reflexivity |].
  destruct H as (_ & _ & H). f_equal. eapply IH. exact H.
Qed.

Lemma exactTrace_snoc (y : Z) (ks : list Z) :
  forall prev rs prevR kn,
    exactTrace y prev ks rs ->
    get (prev :: rs) (len (prev :: rs) - 1) = Some prevR ->
    1 <= kn ->
    exactTrace y prev (ks ++ [kn]) (rs ++ [(prevR * kn) mod y]).
Proof.
  induction ks as [| ki ks IH]; intros prev [| ri rs] prevR kn H Hlast Hkn;
    simpl in H; try contradiction.
  - simpl in Hlast. injection Hlast as <-. simpl. auto.
  - destruct H as (Hki & Hri & H). simpl. split; [assumption |].
    split; [assumption |]. apply IH; try assumption.
    rewrite get_last_cons in Hlast by discriminate. exact Hlast.
Qed.

Lemma exactTrace_product (y : Z) (ks : list Z) :
  0 < y ->
  forall prev rs l,
    exactTrace y prev ks rs ->
    0 <= prev < y ->
    get (prev :: rs) (len (prev :: rs) - 1) = Some l ->
    Forall (fun ki => 1 <= ki) ks /\ (prev * product ks) mod y = l.
Proof.
  intros Hy. induction ks as [| ki ks IH]; intros prev [| ri rs] l H Hp Hlast;
    simpl in H; try contradiction.
  - simpl in Hlast. injection Hlast as <-. simpl. rewrite Z.mul_1_r.
    split; [constructor | apply Z.mod_small; assumption].
  - destruct H as (Hki & Hri & H).
    rewrite get_last_cons in Hlast by discriminate.
    assert (Hrange : 0 <= ri < y) by (rewrite Hri; apply Z.mod_pos_bound; lia).
    destruct (IH ri rs l H Hrange Hlast) as [Hall Hprod].
    split; [constructor; assumption |].
    simpl. replace (prev * (ki * product ks)) with (prev * ki * product ks) by ring.
    rewrite <- Z.mul_mod_idemp_l by lia. rewrite <- Hri. exact Hprod.
Qed.

Section BacktrackTrace.

Variable y : Z.
Hypothesis y_lo : 1 < y.
Hypothesis y_hi : y <= 2 ^ 50.

(** What [chooseK] hands back: a multiplier between the fixed rule's and
    five more, the exact residue of its product, which is not 0, and no
    closing line. *)
Lemma chooseK_spec (fuel : nat) (prevR kn tentativeR : Z) (adjusted : list line) :
  1 < prevR < y ->
  Backtrack.chooseK fuel prevR y = Some (kn, tentativeR, adjusted) ->
  y / prevR + 1 <= kn <= y / prevR + 6
  /\ tentativeR = (prevR * kn) mod y
  /\ 0 < tentativeR <= prevR
  /\ Forall notFinalValues adjusted
  /\ Forall (fun l => ~ isBacktrackLine l) adjusted.
Proof.
  intros Hp Hrun.
  destruct (chooseK_never_zero y y_lo ltac:(lia) _ _ _ _ _ Hp Hrun) as [Hrange Hadj].
  revert Hrun. unfold Backtrack.chooseK.
  pose proof (Z.div_mod y prevR ltac:(lia)) as Hdm.
  pose proof (Z.mod_pos_bound y prevR ltac:(lia)) as Hmb.
  assert (Hq : 1 <= y / prevR) by (apply Z.div_le_lower_bound; lia).
  destruct fuel as [| fuel]; [discriminate |].
  rewrite computeNextK_closed by lia.
  set (k0 := y / prevR + 1) in *.
  assert (Hk0 : k0 = y / prevR + 1) by reflexivity.
  cbn [bind].
  assert (Hexact : forall t, 0 <= t <= 5 ->
             Num.rem (Num.mul prevR (k0 + t)) y = (prevR * (k0 + t)) mod y).
  { intros t Ht. rewrite mul_exact by nia. apply rem_mod; nia. }
  assert (Hcont : forall trapped : bool,
             (if trapped
              then match Backtrack.tryLocalAdjustK prevR y k0 with
                   | Some (adjustedK, adjustedR) =>
                       Some (adjustedK, adjustedR,
                             [AdjustedLocally adjustedK adjustedR])
                   | None => Some (k0, Num.rem (Num.mul prevR k0) y, [])
                   end
              else Some (k0, Num.rem (Num.mul prevR k0) y, []))
             = Some (kn, tentativeR, adjusted) ->
             y / prevR + 1 <= kn <= y / prevR + 6
             /\ tentativeR = (prevR * kn) mod y
             /\ 0 < tentativeR <= prevR
             /\ Forall notFinalValues adjusted
             /\ Forall (fun l => ~ isBacktrackLine l) adjusted).
  { assert (Hplain : Some (k0, Num.rem (Num.mul prevR k0) y, @nil line)
                     = Some (kn, tentativeR, adjusted) ->
                     y / prevR + 1 <= kn <= y / prevR + 6
                     /\ tentativeR = (prevR * kn) mod y
                     /\ 0 < tentativeR <= prevR
                     /\ Forall notFinalValues adjusted
                     /\ Forall (fun l => ~ isBacktrackLine l) adjusted).
    { intros [= <- <- <-]. split; [lia |].
      split; [replace k0 with (k0 + 0) by lia; apply Hexact; lia |].
      split; [assumption |]. split; constructor. }
    intros [|]; [| exact Hplain].
    unfold Backtrack.tryLocalAdjustK.
    pose proof (tweakFrom_spec (Z.to_nat Backtrack.maxTweak) 1 prevR y k0) as Hadjust.
    destruct (Backtrack.tweakFrom _ 1 prevR y k0) as [[adjustedK adjustedR] |];
      [| exact Hplain].
    destruct Hadjust as (t & Ht & HK & HR & _).
    change (Z.of_nat (Z.to_nat Backtrack.maxTweak)) with 5 in Ht.
    intros [= <- <- <-]. split; [lia |].
    split; [rewrite HR, HK; apply Hexact; lia |].
    split; [assumption |]. split; repeat constructor. simpl. tauto. }
  match goal with
  | |- bind ?t _ = _ -> _ => destruct t as [trapped |]
  end; cbn [bind]; [apply Hcont | discriminate].
Qed.

Lemma loopBody_trace (fuel : nat) (x prevR : Z) (st : Backtrack.state)
    (c : Backtrack.control) :
  1 < prevR ->
  backtrackTrace x y st ->
  get (Backtrack.r st) (len (Backtrack.r st) - 1) = Some prevR ->
  Backtrack.r st <> [] ->
  Backtrack.n st = len (Backtrack.r st) ->
  Backtrack.loopBody fuel x y prevR st = Some c ->
  match c with
  | Backtrack.Continue st' =>
      backtrackTrace x y st' /\ Backtrack.n st' = len (Backtrack.r st')
      /\ Backtrack.r st' <> []
  | Backtrack.Break st' => backtrackTrace x y st' /\ Backtrack.r st' <> []
  end.
Proof.
  intros Hp (Hnever & Htrace & Hlog) Hlast Hne Hn. unfold Backtrack.loopBody.
  assert (Hrange : 0 < prevR < y).
  { destruct Hnever as (_ & _ & Hr). rewrite Forall_forall in Hr.
    apply Hr. eapply get_in. exact Hlast. }
  destruct (Backtrack.chooseK fuel prevR y) as [[[kn tentativeR] adjusted] |] eqn:Hchoose;
    cbn [bind]; [| discriminate].
  destruct (chooseK_spec _ _ _ _ _ (conj Hp (proj2 Hrange)) Hchoose)
    as (Hkn & HtR & HtRrange & Hadj1 & Hadj2).
  pose proof (Z.div_pos y prevR ltac:(lia) ltac:(lia)) as Hq.
  unfold Backtrack.parityBacktrack, Backtrack.gcdBacktrack.
  destruct (Z.eqb_spec tentativeR 0) as [H0 | _]; [lia |]. cbn [andb bind].
  assert (Htrace' : exactTrace y (x mod y) (Backtrack.k st ++ [kn])
                      (Backtrack.r st ++ [tentativeR])).
  { rewrite HtR. apply exactTrace_snoc; [assumption | | lia].
    rewrite get_last_cons by assumption. exact Hlast. }
  assert (Hnever' : forall n' log',
             Forall (fun l => ~ isBacktrackLine l) log' ->
             neverBacktracked y
               {| Backtrack.k := Backtrack.k st ++ [kn];
                  Backtrack.r := Backtrack.r st ++ [tentativeR];
                  Backtrack.n := n';
                  Backtrack.backtrackCount := Backtrack.backtrackCount st;
                  Backtrack.log := log' |}).
  { intros n' log' Hlog'. destruct Hnever as (Hcount & _ & Hr).
    unfold neverBacktracked. cbn [Backtrack.backtrackCount Backtrack.log Backtrack.r].
    split; [assumption |]. split; [assumption |].
    apply Forall_app. split; [assumption |]. repeat constructor; lia. }
  assert (Hl1 : Forall (fun l => ~ isBacktrackLine l)
                  (Backtrack.log st ++ adjusted
                     ++ [Step (Backtrack.n st + 1) y prevR kn tentativeR])).
  { destruct Hnever as (_ & Hl & _).
    repeat (apply Forall_app; split); try assumption.
    repeat constructor. simpl. tauto. }
  assert (Hl2 : Forall notFinalValues
                  (Backtrack.log st ++ adjusted
                     ++ [Step (Backtrack.n st + 1) y prevR kn tentativeR])).
  { repeat (apply Forall_app; split); try assumption. repeat constructor. }
  assert (Hne' : Backtrack.r st ++ [tentativeR] <> [])
    by (intros H; apply app_eq_nil in H; destruct H; discriminate).
  destruct (prevR <=? tentativeR); intros [= <-].
  - split; [| exact Hne'].
    split; [apply Hnever'; apply Forall_app; split;
            [assumption | repeat constructor; simpl; tauto] |].
    split; [assumption |].
    cbn [Backtrack.log]. apply Forall_app. split; [assumption | repeat constructor].
  - split; [| split; [| exact Hne']].
    + split; [apply Hnever'; assumption |]. split; assumption.
    + cbn [Backtrack.n Backtrack.r]. rewrite len_app, Hn. reflexivity.
Qed.

Lemma loop_trace (fuel inner : nat) (x : Z) :
  forall st st' : Backtrack.state,
    backtrackTrace x y st ->
    Backtrack.n st = len (Backtrack.r st) ->
    Backtrack.r st <> [] ->
    Backtrack.loop fuel inner x y st = Some st' ->
    backtrackTrace x y st' /\ Backtrack.r st' <> [].
Proof.
  induction fuel as [| fuel IH]; intros st st' Hinv Hn Hne Hrun; [discriminate |].
  simpl in Hrun.
  destruct (get (Backtrack.r st) (Backtrack.n st - 1)) as [prevR |] eqn:Hprev;
    [| injection Hrun as <-; auto].
  destruct (Z.ltb_spec 1 prevR) as [Hp | Hp]; simpl in Hrun;
    [| injection Hrun as <-; auto].
  destruct (Backtrack.n st <? Backtrack.maxIterations); simpl in Hrun;
    [| injection Hrun as <-; auto].
  destruct (Backtrack.loopBody inner x y prevR st) as [c |] eqn:Hbody;
    cbn [bind] in Hrun; [| discriminate].
  rewrite Hn in Hprev.
  pose proof (loopBody_trace inner x prevR st c Hp Hinv Hprev Hne Hn Hbody) as Hc.
  destruct c as [st1 | st1].
  - destruct Hc as (H1 & H2 & H3). eapply IH; eassumption.
  - injection Hrun as <-. exact Hc.
Qed.

End BacktrackTrace.

Lemma in_final_values (log : list line) (tail : list line) (x y : Z)
    (k k' r r' : list Z) (z z' : Z) (flag : bool) :
  Forall notFinalValues log ->
  Forall notFinalValues tail ->
  In (FinalValues x y k r z)
     ((log ++ tail) ++ [FinalValues x y k' r' z'; Validation z' x y flag]) ->
  k = k' /\ r = r' /\ z = z'.
Proof.
  intros Hlog Htail Hin.
  apply in_app_or in Hin. destruct Hin as [Hin | Hin].
  - apply in_app_or in Hin. rewrite Forall_forall in Hlog, Htail.
    destruct Hin as [Hin | Hin]; [destruct (Hlog _ Hin) | destruct (Htail _ Hin)].
  - simpl in Hin. destruct Hin as [Hin | [Hin | []]]; [| discriminate].
    injection Hin as <- <- <-. auto.
Qed.

(** X24.  With a modulus up to 2^50 and a product of the multipliers up to
    2^53, the parity-backtracking variant answers a non-zero valid inverse
    exactly when its remainders end at 1, and 0 otherwise. *)
Theorem backtrack_valid_when_exact (fuel : nat) (x y : Z) (res : Backtrack.outcome)
    (k r : list Z) (z : Z) :
  0 < x -> 1 < y -> y <= 2 ^ 50 ->
  Backtrack.inverseModFull fuel x y = Some res ->
  In (FinalValues x y k r z) (Backtrack.result res) ->
  product k <= 2 ^ 53 ->
  z = Backtrack.z res
  /\ (lastIs r 1 -> z = product k mod y /\ (z * x) mod y = 1 /\ z <> 0)
  /\ (~ lastIs r 1 -> z = 0).
Proof.
  intros Hx Hlo Hhi.
  unfold Backtrack.inverseModFull, Backtrack.checkSpecialCases.
  destruct (Fixed.checkSpecialCases fuel x y) as [sp |] eqn:Hsp; cbn [bind];
    [| discriminate].
  pose proof (checkSpecialCases_message _ _ _ _ Hsp) as Hmsg.
  destruct (Fixed.isSpecialCase sp).
  { intros [= <-]. cbn [Backtrack.result]. intros [H | H]; [discriminate |].
    rewrite Forall_forall in Hmsg. destruct (Hmsg _ H). }
  assert (Hfuel : (0 < fuel)%nat).
  { destruct fuel; [| lia]. revert Hsp. unfold Fixed.checkSpecialCases.
    destruct (Z.eqb_spec x 0); [lia |]. destruct (Z.eqb_spec y 0); [lia |].
    discriminate. }
  assert (Hrem : Num.rem x y = x mod y) by (apply rem_mod; lia).
  pose proof (Z.mod_pos_bound x y ltac:(lia)) as Hcb.
  rewrite Hrem. destruct (Z.eqb_spec (x mod y) 0) as [Hc0 | Hc0].
  { intros [= <-]. cbn [Backtrack.result]. simpl. intuition discriminate. }
  destruct (backtrack_first_step fuel (x mod y) y ltac:(lia) ltac:(lia) Hfuel)
    as (-> & Hr1 & Hr1range).
  cbn [bind]. rewrite Hr1.
  destruct (Z.eqb_spec (x mod y - y mod (x mod y)) 0); [lia |].
  set (cx := x mod y) in *. set (k1 := y / cx + 1). set (r1 := cx - y mod cx) in *.
  pose proof (Z.div_mod y cx ltac:(lia)) as Hdm.
  pose proof (Z.mod_pos_bound y cx ltac:(lia)) as Hmb.
  assert (Hq : 1 <= y / cx) by (apply Z.div_le_lower_bound; lia).
  destruct (Backtrack.loop fuel fuel x y _) as [st |] eqn:Hloop; cbn [bind];
    [| discriminate].
  apply (loop_trace y Hlo Hhi) in Hloop; try reflexivity; try discriminate.
  2:{ split; [| split].
      - unfold neverBacktracked. cbn [Backtrack.backtrackCount Backtrack.log Backtrack.r].
        split; [reflexivity |]. split; repeat constructor; simpl; try tauto; lia.
      - cbn [Backtrack.k Backtrack.r exactTrace]. fold cx. fold k1.
        split; [unfold k1; lia |]. split; [| exact I].
        unfold r1, k1. apply (Z.mod_unique_pos _ _ 1); nia.
      - repeat constructor. }
  destruct Hloop as ((Hnever & Htrace & Hlog) & Hne).
  fold cx in Htrace.
  unfold Backtrack.finish.
  destruct (get (Backtrack.r st) (len (Backtrack.r st) - 1)) as [last |] eqn:Hlast.
  2:{ exfalso. revert Hlast. unfold get, len.
      destruct (Backtrack.r st) as [| a l]; [contradiction |]. simpl length.
      destruct (Z.ltb_spec (Z.of_nat (S (length l)) - 1) 0); [lia |].
      intros Hnone. apply nth_error_None in Hnone. cbn [length] in Hnone. lia. }
  assert (Hfail : last <> 1 ->
            forall res',
              (report <- (eg <- Backtrack.extendedGcd fuel x y ;;
                          let note :=
                            if Backtrack.gcdOf eg =? 1
                            then [CorrectInverse
                                    (if Num.rem (Backtrack.coefX eg) y <? 0
                                     then Num.rem (Backtrack.coefX eg) y + y
                                     else Num.rem (Backtrack.coefX eg) y)]
                            else [] in
                          Some (0, Backtrack.log st ++ [FailedToFind (Some last)] ++ note)) ;;
               let '(z, result) := report in
               Some {| Backtrack.result :=
                         result ++ [FinalValues x y (Backtrack.k st) (Backtrack.r st) z;
                                    Validation z x y (Num.rem (Num.mul z x) y =? 1)];
                       Backtrack.z := z |}) = Some res' ->
              In (FinalValues x y k r z) (Backtrack.result res') ->
              product k <= 2 ^ 53 ->
              z = Backtrack.z res'
              /\ (lastIs r 1 -> z = product k mod y /\ (z * x) mod y = 1 /\ z <> 0)
              /\ (~ lastIs r 1 -> z = 0)).
  { intros Hne1 res'.
    destruct (Backtrack.extendedGcd fuel x y) as [eg |]; cbn [bind]; [| discriminate].
    cbv zeta. intros [= <-]. cbn [Backtrack.result Backtrack.z]. intros Hin _.
    apply in_final_values in Hin; try assumption.
    2:{ constructor; [exact I |]. destruct (_ =? 1); repeat constructor. }
    destruct Hin as (-> & -> & ->).
    split; [reflexivity |]. split; [| reflexivity].
    unfold lastIs. rewrite Hlast. intros [= H1]. contradiction. }
  destruct (Z.eq_dec last 1) as [-> | Hne1].
  2:{ destruct last as [| [| |] |]; try (apply Hfail; assumption).
      contradiction. }
  clear Hfail. cbn [bind]. intros [= <-]. cbn [Backtrack.result Backtrack.z].
  intros Hin Hexact.
  apply in_final_values in Hin; try assumption; [| repeat constructor].
  destruct Hin as (-> & -> & ->).
  split; [reflexivity |]. split.
  2:{ unfold lastIs. rewrite Hlast. intros H. contradiction H. reflexivity. }
  intros _.
  assert (Hy0 : 0 < y) by lia.
  assert (Hcxr : 0 <= cx < y) by lia.
  destruct (exactTrace_product y (Backtrack.k st) Hy0 cx (Backtrack.r st) 1
              Htrace Hcxr) as [Hall Hprod].
  { rewrite get_last_cons by assumption. exact Hlast. }
  pose proof (product_pos _ Hall) as Hpos.
  assert (Hzval : Backtrack.productMod (Backtrack.k st) y
                  = product (Backtrack.k st) mod y).
  { unfold Backtrack.productMod.
    rewrite running_product by (try assumption; lia).
    rewrite Z.mul_1_l. apply rem_mod; lia. }
  rewrite Hzval.
  assert (Hvalid : (product (Backtrack.k st) mod y * x) mod y = 1).
  { rewrite Z.mul_mod_idemp_l, <- Z.mul_mod_idemp_r by lia. fold cx.
    rewrite Z.mul_comm. exact Hprod. }
  split; [reflexivity |]. split; [exact Hvalid |].
  intros H0. rewrite H0 in Hvalid. simpl in Hvalid.
  rewrite Z.mod_0_l in Hvalid by lia. discriminate.
Qed.

Lemma backtrack_valid_when_exact_witness :
  5 = Backtrack.z
        {| Backtrack.result :=
             [Calculating 3 7; Step 1 7 3 3 2; Step 2 7 2 4 1; Product 5;
              FinalValues 3 7 [3; 4] [2; 1] 5; Validation 5 3 7 true];
           Backtrack.z := 5 |}
  /\ (lastIs [2; 1] 1 -> 5 = product [3; 4] mod 7 /\ (5 * 3) mod 7 = 1 /\ 5 <> 0)
  /\ (~ lastIs [2; 1] 1 -> 5 = 0).
Proof.
  apply (backtrack_valid_when_exact 20 3 7).
  - lia.
  - lia.
  - lia.
  - vm_compute. reflexivity.
  - simpl. tauto.
  - vm_compute. discriminate.
Defined.

(** ** The two loops side by side *)

Lemma get_last_app (a : list Z) (p : Z) (rs : list Z) :
  get a (len a - 1) = Some p ->
  get (a ++ rs) (len (a ++ rs) - 1) = get (p :: rs) (len (p :: rs) - 1).
Proof.
  intros Hlast. destruct rs as [| b rs].
  - rewrite app_nil_r. exact Hlast.
  - unfold get, len in *. rewrite length_app. simpl length.
    destruct (Z.ltb_spec (Z.of_nat (length a + S (length rs)) - 1) 0); [lia |].
    destruct (Z.ltb_spec (Z.of_nat (S (S (length rs))) - 1) 0); [lia |].
    rewrite nth_error_app2 by lia.
    replace (Z.to_nat (Z.of_nat (length a + S (length rs)) - 1) - length a)%nat
      with (length rs) by lia.
    replace (Z.to_nat (Z.of_nat (S (S (length rs))) - 1)) with (S (length rs)) by lia.
    reflexivity.
Qed.

Section Agreement.

Variable y : Z.
Hypothesis y_lo : 1 < y.
Hypothesis y_hi : y <= 2 ^ 52.

Lemma coprime_of_inverse (a p : Z) : (a * p) mod y = 1 -> Z.gcd a y = 1.
Proof.
  intros H.
  pose proof (Z.gcd_divide_l a y) as [u Hu].
  pose proof (Z.gcd_divide_r a y) as [v Hv].
  pose proof (Z.gcd_nonneg a y) as Hnn.
  pose proof (Z.div_mod (a * p) y ltac:(lia)) as Hdm. rewrite H in Hdm.
  set (g := Z.gcd a y) in *.
  assert (Hd : (g | 1)).
  { exists (u * p - v * (a * p / y)).
    replace ((u * p - v * (a * p / y)) * g)
      with (u * g * p - v * g * (a * p / y)) by ring.
    rewrite <- Hu, <- Hv. lia. }
  apply Z.divide_1_r_nonneg in Hd; assumption.
Qed.

(** With a remainder coprime to [y] the parity-backtracking variant takes
    the multiplier of the fixed rule and does not adjust it. *)
Lemma chooseK_plain (fuel : nat) (prevR : Z) :
  1 < prevR < y -> Z.gcd prevR y = 1 -> (Z.to_nat y < fuel)%nat ->
  y mod prevR <> 0
  /\ 0 < prevR - y mod prevR < prevR
  /\ ceilRule y prevR = y / prevR + 1
  /\ Num.rem (Num.mul prevR (y / prevR + 1)) y = prevR - y mod prevR
  /\ Backtrack.chooseK fuel prevR y
     = Some (y / prevR + 1, prevR - y mod prevR, []).
Proof.
  intros Hp Hg Hfuel.
  pose proof (Z.div_mod y prevR ltac:(lia)) as Hdm.
  pose proof (Z.mod_pos_bound y prevR ltac:(lia)) as Hmb.
  assert (Hq : 1 <= y / prevR) by (apply Z.div_le_lower_bound; lia).
  assert (Hnd : y mod prevR <> 0).
  { intros H0. apply Z.mod_divide in H0; [| lia].
    apply Z.divide_gcd_iff in H0; lia. }
  assert (HtR : Num.rem (Num.mul prevR (y / prevR + 1)) y = prevR - y mod prevR).
  { rewrite mul_exact by nia. rewrite rem_mod by nia.
    symmetry. apply (Z.mod_unique_pos _ _ 1); nia. }
  split; [assumption |]. split; [lia |].
  split; [unfold ceilRule; destruct (Z.eqb_spec (y mod prevR) 0); [contradiction | reflexivity] |].
  split; [assumption |].
  unfold Backtrack.chooseK. rewrite computeNextK_closed by lia. cbn [bind].
  rewrite HtR.
  destruct (Z.eqb_spec (prevR - y mod prevR) 0); [lia |].
  destruct (Z.leb_spec prevR (prevR - y mod prevR)); [lia |].
  cbn [orb]. unfold Backtrack.gcd. rewrite gcd_returns by lia. rewrite Hg.
  reflexivity.
Qed.

(** One turn of both loops from the same variables, at a remainder coprime
    to [y]. *)
Lemma loopBody_plain (fuel : nat) (x prevR : Z) (bst : Backtrack.state) :
  1 < prevR < y -> Z.gcd prevR y = 1 -> (Z.to_nat y < fuel)%nat ->
  Backtrack.loopBody fuel x y prevR bst
  = Some (Backtrack.Continue
            {| Backtrack.k := Backtrack.k bst ++ [y / prevR + 1];
               Backtrack.r := Backtrack.r bst ++ [prevR - y mod prevR];
               Backtrack.n := Backtrack.n bst + 1;
               Backtrack.backtrackCount := Backtrack.backtrackCount bst;
               Backtrack.log :=
                 Backtrack.log bst
                   ++ [Step (Backtrack.n bst + 1) y prevR (y / prevR + 1)
                         (prevR - y mod prevR)] |}).
Proof.
  intros Hp Hg Hfuel.
  destruct (chooseK_plain fuel prevR Hp Hg Hfuel) as (_ & Hr & _ & _ & Hchoose).
  unfold Backtrack.loopBody. rewrite Hchoose. cbn [bind].
  unfold Backtrack.parityBacktrack, Backtrack.gcdBacktrack.
  destruct (Z.eqb_spec (prevR - y mod prevR) 0); [lia |]. cbn [andb bind].
  destruct (Z.leb_spec prevR (prevR - y mod prevR)); [lia |].
  reflexivity.
Qed.

Lemma fixed_step_plain (fuel : nat) (prevR : Z) (fst : Fixed.state) :
  1 < prevR < y -> y mod prevR <> 0 ->
  fixedInv y fst ->
  get (Fixed.r fst) (Fixed.n fst - 1) = Some prevR ->
  Fixed.n fst < Fixed.maxIterations ->
  Fixed.loop (S fuel) y fst
  = Fixed.loop fuel y
      {| Fixed.k := Fixed.k fst ++ [y / prevR + 1];
         Fixed.r := Fixed.r fst ++ [prevR - y mod prevR];
         Fixed.n := Fixed.n fst + 1;
         Fixed.log :=
           Fixed.log fst
             ++ [Step (Fixed.n fst + 1) y prevR (y / prevR + 1)
                   (prevR - y mod prevR)] |}
  /\ fixedInv y
       {| Fixed.k := Fixed.k fst ++ [y / prevR + 1];
          Fixed.r := Fixed.r fst ++ [prevR - y mod prevR];
          Fixed.n := Fixed.n fst + 1;
          Fixed.log :=
            Fixed.log fst
              ++ [Step (Fixed.n fst + 1) y prevR (y / prevR + 1)
                    (prevR - y mod prevR)] |}.
Proof.
  intros Hp Hnd (Hlen & Hn & Hrange & Hlog) Hprev Hcap.
  pose proof (Z.div_mod y prevR ltac:(lia)) as Hdm.
  pose proof (Z.mod_pos_bound y prevR ltac:(lia)) as Hmb.
  assert (Hq : 1 <= y / prevR) by (apply Z.div_le_lower_bound; lia).
  assert (HtR : Num.rem (Num.mul prevR (y / prevR + 1)) y = prevR - y mod prevR).
  { rewrite mul_exact by nia. rewrite rem_mod by nia.
    symmetry. apply (Z.mod_unique_pos _ _ 1); nia. }
  split.
  - cbn [Fixed.loop]. rewrite Hprev.
    destruct (Z.ltb_spec 1 prevR); [| lia].
    destruct (Z.ltb_spec (Fixed.n fst) Fixed.maxIterations); [| lia].
    cbn [andb]. rewrite rem_mod by lia.
    destruct (Z.eqb_spec (y mod prevR) 0); [contradiction |].
    unfold Num.floorDiv.
    assert (Hk : get (Fixed.k fst ++ [y / prevR + 1]) (Fixed.n fst)
                 = Some (y / prevR + 1)).
    { rewrite Hn. replace (len (Fixed.r fst)) with (len (Fixed.k fst))
        by (unfold len; congruence).
      apply get_pushed. }
    rewrite Hk. cbn [bind]. rewrite HtR.
    destruct (Z.eqb_spec (prevR - y mod prevR) 0); [lia |].
    destruct (Z.leb_spec prevR (prevR - y mod prevR)); [lia |].
    reflexivity.
  - unfold fixedInv. cbn [Fixed.k Fixed.r Fixed.n Fixed.log].
    repeat split.
    + rewrite !length_app. simpl. lia.
    + rewrite len_app, Hn. reflexivity.
    + apply Forall_app. split; [assumption |]. repeat constructor; lia.
    + apply Forall_app. split; [assumption |]. repeat constructor.
Qed.

(** Where the fixed loop ends at remainder 1, the loop of the
    parity-backtracking variant goes through the same states. *)
Lemma backtrack_follows_fixed (fuel inner : nat) (x : Z) :
  (Z.to_nat y < inner)%nat ->
  forall (fst fst' : Fixed.state) (bst : Backtrack.state),
    fixedInv y fst ->
    Fixed.loop fuel y fst = Some fst' ->
    lastIs (Fixed.r fst') 1 ->
    sameState fst bst ->
    exists bst',
      Backtrack.loop fuel inner x y bst = Some bst' /\ sameState fst' bst'.
Proof.
  intros Hinner.
  induction fuel as [| fuel IH]; intros fst fst' bst Hinv Hrun Hlast Hsame;
    [discriminate |].
  pose proof Hinv as (Hlen & Hn & Hrange & Hlog).
  pose proof Hsame as (Hsk & Hsr & Hsn & Hsl).
  cbn [Backtrack.loop]. rewrite Hsr, Hsn.
  destruct (get (Fixed.r fst) (Fixed.n fst - 1)) as [prevR |] eqn:Hprev.
  2:{ simpl in Hrun. rewrite Hprev in Hrun. injection Hrun as <-.
      exists bst. split; [reflexivity | assumption]. }
  destruct (Z.ltb_spec 1 prevR) as [Hp | Hp].
  2:{ simpl in Hrun. rewrite Hprev in Hrun.
      destruct (Z.ltb_spec 1 prevR); [lia |]. injection Hrun as <-.
      exists bst. split; [reflexivity | assumption]. }
  assert (Hpy : 0 <= prevR < y).
  { unfold inRange in Hrange. rewrite Forall_forall in Hrange.
    apply Hrange. eapply get_in. exact Hprev. }
  destruct (Z.ltb_spec (Fixed.n fst) Fixed.maxIterations) as [Hcap | Hcap].
  2:{ exfalso. simpl in Hrun. rewrite Hprev in Hrun.
      destruct (Z.ltb_spec 1 prevR); [| lia].
      destruct (Z.ltb_spec (Fixed.n fst) Fixed.maxIterations); [lia |].
      injection Hrun as <-. unfold lastIs in Hlast. rewrite <- Hn in Hlast.
      rewrite Hprev in Hlast. injection Hlast as ->. lia. }
  assert (Hg : Z.gcd prevR y = 1).
  { destruct (fixed_loop_spec y ltac:(lia) _ _ _ Hinv Hrun)
      as (_ & _ & _ & ks & rs & _ & Hrs & Hrule).
    specialize (Hrule prevR Hprev).
    unfold lastIs in Hlast. rewrite Hrs in Hlast.
    rewrite (get_last_app _ prevR) in Hlast by (rewrite <- Hn; exact Hprev).
    destruct (followsRule_product y y_lo y_hi ks prevR rs 1 Hrule Hpy Hlast)
      as [_ Hprod].
    eapply coprime_of_inverse. exact Hprod. }
  destruct (chooseK_plain inner prevR ltac:(lia) Hg Hinner) as (Hnd & Hr & _).
  destruct (fixed_step_plain fuel prevR fst ltac:(lia) Hnd Hinv Hprev Hcap)
    as [Hstep Hinv1].
  rewrite Hstep in Hrun.
  assert (Hcap2 : (Fixed.n fst <? Backtrack.maxIterations) = true).
  { apply Z.ltb_lt. unfold Fixed.maxIterations, Backtrack.maxIterations in *. lia. }
  rewrite Hcap2. cbn [andb].
  rewrite (loopBody_plain inner x prevR bst ltac:(lia) Hg Hinner). cbn [bind].
  eapply IH; [exact Hinv1 | exact Hrun | exact Hlast |].
  unfold sameState. cbn [Backtrack.k Backtrack.r Backtrack.n Backtrack.log
                         Fixed.k Fixed.r Fixed.n Fixed.log].
  rewrite Hsk, Hsr, Hsn, Hsl. auto.
Qed.

End Agreement.

(** X25.  Whenever the fixed variant ends at remainder 1, the
    parity-backtracking variant goes through the same steps: it reports the
    same multipliers [k[]] and remainders [r[]].  While the product of the
    multipliers is at most 2^53, so that [z] is formed exactly, its whole
    report holds the same lines with the same values, and its answer is the
    same.  (The two files word the upper bound of a [Step] line
    differently, [(y + r)] and [(r + y)]; the values are what the lines of
    the embedding hold.) *)
Theorem backtrack_agrees_with_fixed (fuel : nat) (x y : Z) (res : Fixed.outcome)
    (k r : list Z) (z : Z) :
  0 < x -> 1 < y -> y <= 2 ^ 52 -> (Z.to_nat y < fuel)%nat ->
  Fixed.inverseModFull fuel x y = Some res ->
  In (FinalValues x y k r z) (Fixed.result res) ->
  lastIs r 1 ->
  exists bres : Backtrack.outcome,
    Backtrack.inverseModFull fuel x y = Some bres
    /\ (exists z' : Z, In (FinalValues x y k r z') (Backtrack.result bres))
    /\ (product k <= 2 ^ 53 ->
        Backtrack.result bres = Fixed.result res
        /\ Backtrack.z bres = Fixed.z res).
Proof.
  intros Hx Hlo Hhi Hfuel.
  unfold Fixed.inverseModFull, Backtrack.inverseModFull, Backtrack.checkSpecialCases.
  destruct (Fixed.checkSpecialCases fuel x y) as [sp |] eqn:Hsp; cbn [bind];
    [| discriminate].
  pose proof (checkSpecialCases_message _ _ _ _ Hsp) as Hmsg.
  destruct (Fixed.isSpecialCase sp).
  { intros [= <-]. cbn [Fixed.result]. intros [H | H]; [discriminate |].
    rewrite Forall_forall in Hmsg. destruct (Hmsg _ H). }
  assert (Hrem : Num.rem x y = x mod y) by (apply rem_mod; lia).
  pose proof (Z.mod_pos_bound x y ltac:(lia)) as Hcb.
  rewrite Hrem. destruct (Z.eqb_spec (x mod y) 0) as [Hc0 | Hc0].
  { intros [= <-]. cbn [Fixed.result]. simpl. intuition discriminate. }
  destruct (backtrack_first_step fuel (x mod y) y ltac:(lia) ltac:(lia) ltac:(lia))
    as (-> & Hr1 & Hr1range).
  unfold Num.floorDiv.
  set (cx := x mod y) in *. set (k1 := y / cx + 1) in *.
  change (get [k1] 0) with (Some k1). cbn [bind].
  rewrite Hr1. set (r1 := cx - y mod cx) in *.
  change (get [r1] 0) with (Some r1). cbn [bind].
  destruct (Z.eqb_spec r1 0); [lia |].
  destruct (Fixed.loop fuel y _) as [fst' |] eqn:Hloop; cbn [bind]; [| discriminate].
  assert (Hinv0 : fixedInv y
                    {| Fixed.k := [k1]; Fixed.r := [r1]; Fixed.n := 1;
                       Fixed.log := [Calculating x y] ++ [Step 1 y cx k1 r1] |}).
  { unfold fixedInv. simpl. repeat split; repeat constructor; lia. }
  destruct (fixed_loop_spec y ltac:(lia) _ _ _ Hinv0 Hloop) as (_ & _ & Hlog & _).
  intros [= <-]. cbn [Fixed.result Fixed.z]. intros Hin Hlast.
  assert (Hone : get (Fixed.r fst') (len (Fixed.r fst') - 1) = Some 1).
  { destruct (get (Fixed.r fst') (len (Fixed.r fst') - 1)) as [[| [| |] |] |] eqn:Hl;
      try reflexivity;
      apply in_final_values in Hin; try assumption; try (repeat constructor);
      destruct Hin as (_ & -> & _); unfold lastIs in Hlast; congruence. }
  destruct (backtrack_follows_fixed y Hlo Hhi fuel fuel x Hfuel _ fst'
              {| Backtrack.k := [k1]; Backtrack.r := [r1]; Backtrack.n := 1;
                 Backtrack.backtrackCount := 0;
                 Backtrack.log := [Calculating x y] ++ [Step 1 y cx k1 r1] |}
              Hinv0 Hloop Hone)
    as (bst' & -> & Hk & Hr & Hn & Hl).
  { unfold sameState. simpl. auto. }
  cbn [bind]. unfold Backtrack.finish. rewrite Hk, Hr, Hl, Hone.
  eexists. split; [reflexivity |]. cbn [Backtrack.result Backtrack.z].
  rewrite Hone in Hin.
  split; [exists z; exact Hin |]. intros _. split; reflexivity.
Qed.

Lemma backtrack_agrees_with_fixed_witness :
  exists bres : Backtrack.outcome,
    Backtrack.inverseModFull 40 31 37 = Some bres
    /\ (exists z' : Z,
           In (FinalValues 31 37 [2; 2; 3; 19] [25; 13; 2; 1] z')
              (Backtrack.result bres))
    /\ (product [2; 2; 3; 19] <= 2 ^ 53 ->
        Backtrack.result bres
        = Fixed.result
            {| Fixed.result :=
                 [Calculating 31 37; Step 1 37 31 2 25; Step 2 37 25 2 13;
                  Step 3 37 13 3 2; Step 4 37 2 19 1; Product 6;
                  FinalValues 31 37 [2; 2; 3; 19] [25; 13; 2; 1] 6;
                  Validation 6 31 37 true];
               Fixed.z := 6 |}
        /\ Backtrack.z bres
           = Fixed.z
               {| Fixed.result :=
                    [Calculating 31 37; Step 1 37 31 2 25; Step 2 37 25 2 13;
                     Step 3 37 13 3 2; Step 4 37 2 19 1; Product 6;
                     FinalValues 31 37 [2; 2; 3; 19] [25; 13; 2; 1] 6;
                     Validation 6 31 37 true];
                  Fixed.z := 6 |}).
Proof.
  apply (backtrack_agrees_with_fixed 40 31 37 _ [2; 2; 3; 19] [25; 13; 2; 1] 6).
  - lia.
  - lia.
  - lia.
  - apply Nat.ltb_lt. reflexivity.
  - vm_compute. reflexivity.
  - simpl. tauto.
  - reflexivity.
Defined.

Section Converse.

Variable y : Z.
Hypothesis y_lo : 1 < y.
Hypothesis y_hi : y <= 2 ^ 50.

(** One turn of the loop of the parity-backtracking variant pushes one
    multiplier and the exact residue of its product. *)
Lemma loopBody_pushes (fuel : nat) (x prevR : Z) (st : Backtrack.state)
    (c : Backtrack.control) :
  1 < prevR < y ->
  Backtrack.loopBody fuel x y prevR st = Some c ->
  exists kn,
    1 <= kn
    /\ (let st' := match c with
                   | Backtrack.Continue st' | Backtrack.Break st' => st'
                   end in
        Backtrack.k st' = Backtrack.k st ++ [kn]
        /\ Backtrack.r st' = Backtrack.r st ++ [(prevR * kn) mod y]).
Proof.
  intros Hp. unfold Backtrack.loopBody.
  destruct (Backtrack.chooseK fuel prevR y) as [[[kn tentativeR] adjusted] |] eqn:Hchoose;
    cbn [bind]; [| discriminate].
  destruct (chooseK_spec y y_lo y_hi _ _ _ _ _ Hp Hchoose) as (Hkn & HtR & HtRrange & _).
  pose proof (Z.div_pos y prevR ltac:(lia) ltac:(lia)) as Hq.
  unfold Backtrack.parityBacktrack, Backtrack.gcdBacktrack.
  destruct (Z.eqb_spec tentativeR 0) as [H0 | _]; [lia |]. cbn [andb bind].
  destruct (prevR <=? tentativeR); intros [= <-]; exists kn;
    (split; [lia |]); cbn [Backtrack.k Backtrack.r]; rewrite HtR; auto.
Qed.

Lemma loop_suffix (fuel inner : nat) (x : Z) :
  forall st st' : Backtrack.state,
    backtrackTrace x y st ->
    Backtrack.n st = len (Backtrack.r st) ->
    Backtrack.r st <> [] ->
    Backtrack.loop fuel inner x y st = Some st' ->
    exists ks rs,
      Backtrack.k st' = Backtrack.k st ++ ks
      /\ Backtrack.r st' = Backtrack.r st ++ rs
      /\ forall prev, lastIs (Backtrack.r st) prev -> exactTrace y prev ks rs.
Proof.
  induction fuel as [| fuel IH]; intros st st' Hinv Hn Hne Hrun; [discriminate |].
  assert (Hstop : st' = st ->
            exists ks rs,
              Backtrack.k st' = Backtrack.k st ++ ks
              /\ Backtrack.r st' = Backtrack.r st ++ rs
              /\ forall prev, lastIs (Backtrack.r st) prev -> exactTrace y prev ks rs).
  { intros ->. exists [], []. rewrite !app_nil_r. simpl. auto. }
  simpl in Hrun.
  destruct (get (Backtrack.r st) (Backtrack.n st - 1)) as [prevR |] eqn:Hprev;
    [| injection Hrun as <-; apply Hstop; reflexivity].
  destruct (Z.ltb_spec 1 prevR) as [Hp | Hp]; simpl in Hrun;
    [| injection Hrun as <-; apply Hstop; reflexivity].
  destruct (Backtrack.n st <? Backtrack.maxIterations); simpl in Hrun;
    [| injection Hrun as <-; apply Hstop; reflexivity].
  clear Hstop.
  destruct (Backtrack.loopBody inner x y prevR st) as [c |] eqn:Hbody;
    cbn [bind] in Hrun; [| discriminate].
  rewrite Hn in Hprev.
  assert (Hrange : 0 < prevR < y).
  { destruct Hinv as ((_ & _ & Hr) & _). rewrite Forall_forall in Hr.
    apply Hr. eapply get_in. exact Hprev. }
  pose proof (loopBody_trace y y_lo y_hi inner x prevR st c Hp Hinv Hprev Hne Hn Hbody)
    as Hc.
  destruct (loopBody_pushes inner x prevR st c ltac:(lia) Hbody) as (kn & Hkn & Hshape).
  assert (Hone : forall prev, lastIs (Backtrack.r st) prev ->
                              exactTrace y prev [kn] [(prevR * kn) mod y]).
  { intros prev Hl. unfold lastIs in Hl. rewrite Hprev in Hl.
    injection Hl as <-. simpl. auto. }
  destruct c as [st1 | st1]; cbv zeta in Hshape; destruct Hshape as [Hk1 Hr1].
  - destruct Hc as (Hinv1 & Hn1 & Hne1).
    destruct (IH _ _ Hinv1 Hn1 Hne1 Hrun) as (ks & rs & Hks & Hrs & Htr).
    exists (kn :: ks), ((prevR * kn) mod y :: rs).
    rewrite Hks, Hrs, Hk1, Hr1, <- !app_assoc.
    split; [reflexivity |]. split; [reflexivity |].
    intros prev Hl. unfold lastIs in Hl. rewrite Hprev in Hl. injection Hl as <-.
    simpl. split; [assumption |]. split; [reflexivity |].
    apply Htr. unfold lastIs. rewrite Hr1. apply get_last_pushed.
  - injection Hrun as <-. exists [kn], [(prevR * kn) mod y]. auto.
Qed.

(** Where the loop of the parity-backtracking variant ends at remainder 1
    within the iterations that the fixed variant allows, the fixed loop goes
    through the same states. *)
Lemma fixed_follows_backtrack (fuel inner : nat) (x : Z) :
  (Z.to_nat y < inner)%nat ->
  forall (bst bst' : Backtrack.state) (fst : Fixed.state),
    backtrackTrace x y bst ->
    Backtrack.n bst = len (Backtrack.r bst) ->
    Backtrack.r bst <> [] ->
    Backtrack.loop fuel inner x y bst = Some bst' ->
    lastIs (Backtrack.r bst') 1 ->
    len (Backtrack.r bst') <= Fixed.maxIterations ->
    sameState fst bst ->
    exists fst', Fixed.loop fuel y fst = Some fst' /\ sameState fst' bst'.
Proof.
  intros Hinner.
  induction fuel as [| fuel IH]; intros bst bst' fst Hinv Hn Hne Hrun Hlast Hcap Hsame;
    [discriminate |].
  pose proof Hsame as (Hsk & Hsr & Hsn & Hsl).
  destruct (loop_suffix (S fuel) inner x bst bst' Hinv Hn Hne Hrun)
    as (ks & rs & Hks & Hrs & Htrace).
  cbn [Backtrack.loop] in Hrun.
  destruct (get (Backtrack.r bst) (Backtrack.n bst - 1)) as [prevR |] eqn:Hprev.
  2:{ injection Hrun as <-. exists fst.
      split; [cbn [Fixed.loop]; rewrite <- Hsr, <- Hsn, Hprev; reflexivity
             | assumption]. }
  destruct (Z.ltb_spec 1 prevR) as [Hp | Hp].
  2:{ cbn [andb] in Hrun. injection Hrun as <-. exists fst.
      split; [| assumption].
      cbn [Fixed.loop]. rewrite <- Hsr, <- Hsn, Hprev.
      destruct (Z.ltb_spec 1 prevR); [lia | reflexivity]. }
  assert (Hrange : 0 < prevR < y).
  { destruct Hinv as ((_ & _ & Hr) & _). rewrite Forall_forall in Hr.
    apply Hr. eapply get_in. exact Hprev. }
  assert (Hprevl : get (Backtrack.r bst) (len (Backtrack.r bst) - 1) = Some prevR)
    by (rewrite <- Hn; exact Hprev).
  specialize (Htrace prevR Hprevl).
  assert (Hlast' : get (prevR :: rs) (len (prevR :: rs) - 1) = Some 1).
  { unfold lastIs in Hlast. rewrite Hrs in Hlast.
    rewrite (get_last_app _ prevR) in Hlast by exact Hprevl. exact Hlast. }
  assert (Hrsne : rs <> []).
  { intros ->. simpl in Hlast'. injection Hlast' as ->. lia. }
  assert (Hg : Z.gcd prevR y = 1).
  { destruct (exactTrace_product y ks ltac:(lia) prevR rs 1 Htrace ltac:(lia) Hlast')
      as [_ Hprod].
    eapply (coprime_of_inverse y y_lo). exact Hprod. }
  assert (Hcapn : Backtrack.n bst < Fixed.maxIterations).
  { rewrite Hrs, len_app in Hcap. rewrite Hn.
    assert (0 < len rs); [| lia].
    unfold len. destruct rs; [contradiction | simpl; lia]. }
  assert (Hinvf : fixedInv y fst).
  { destruct Hinv as ((_ & _ & Hr) & Htr & Hlog).
    unfold fixedInv. rewrite <- Hsk, <- Hsr, <- Hsn, <- Hsl.
    split; [apply (exactTrace_length _ _ _ _ Htr) |].
    split; [assumption |]. split; [| assumption].
    unfold inRange. eapply Forall_impl; [| exact Hr]. simpl. intros a Ha. lia. }
  destruct (chooseK_plain y y_lo ltac:(lia) inner prevR ltac:(lia) Hg Hinner)
    as (Hnd & Hr & _).
  destruct (fixed_step_plain y y_lo ltac:(lia) fuel prevR fst ltac:(lia) Hnd Hinvf)
    as [Hstep Hinv1].
  { rewrite <- Hsr, <- Hsn. exact Hprev. }
  { rewrite <- Hsn. exact Hcapn. }
  rewrite Hstep.
  assert (Hlt200 : (Backtrack.n bst <? Backtrack.maxIterations) = true).
  { apply Z.ltb_lt. unfold Fixed.maxIterations, Backtrack.maxIterations in *. lia. }
  rewrite Hlt200 in Hrun. cbn [andb] in Hrun.
  pose proof (loopBody_plain y y_lo ltac:(lia) inner x prevR bst ltac:(lia) Hg Hinner)
    as Hbody.
  rewrite Hbody in Hrun. cbn [bind] in Hrun.
  pose proof (loopBody_trace y y_lo y_hi inner x prevR bst _ Hp Hinv Hprevl Hne Hn Hbody)
    as (Hinv1' & Hn1 & Hne1).
  eapply IH; [exact Hinv1' | exact Hn1 | exact Hne1 | exact Hrun | exact Hlast
              | exact Hcap |].
  unfold sameState. cbn [Backtrack.k Backtrack.r Backtrack.n Backtrack.log
                         Fixed.k Fixed.r Fixed.n Fixed.log].
  rewrite Hsk, Hsr, Hsn, Hsl. auto.
Qed.

End Converse.

(** X26.  Conversely, whenever the parity-backtracking variant ends at
    remainder 1 with at most 100 remainders, the fixed variant goes through
    the same steps and reports the same multipliers [k[]] and remainders
    [r[]]: a local adjustment never leads to an inverse that the fixed rule
    misses.  While the product of the multipliers is at most 2^53, so that
    [z] is formed exactly, the whole report holds the same lines with the
    same values, and the answer is the same. *)
Theorem fixed_agrees_with_backtrack (fuel : nat) (x y : Z) (res : Backtrack.outcome)
    (k r : list Z) (z : Z) :
  0 < x -> 1 < y -> y <= 2 ^ 50 -> (Z.to_nat y < fuel)%nat ->
  Backtrack.inverseModFull fuel x y = Some res ->
  In (FinalValues x y k r z) (Backtrack.result res) ->
  lastIs r 1 ->
  len r <= Fixed.maxIterations ->
  exists fres : Fixed.outcome,
    Fixed.inverseModFull fuel x y = Some fres
    /\ (exists z' : Z, In (FinalValues x y k r z') (Fixed.result fres))
    /\ (product k <= 2 ^ 53 ->
        Fixed.result fres = Backtrack.result res
        /\ Fixed.z fres = Backtrack.z res).
Proof.
  intros Hx Hlo Hhi Hfuel.
  unfold Fixed.inverseModFull, Backtrack.inverseModFull, Backtrack.checkSpecialCases.
  destruct (Fixed.checkSpecialCases fuel x y) as [sp |] eqn:Hsp; cbn [bind];
    [| discriminate].
  pose proof (checkSpecialCases_message _ _ _ _ Hsp) as Hmsg.
  destruct (Fixed.isSpecialCase sp).
  { intros [= <-]. cbn [Backtrack.result]. intros [H | H]; [discriminate |].
    rewrite Forall_forall in Hmsg. destruct (Hmsg _ H). }
  assert (Hrem : Num.rem x y = x mod y) by (apply rem_mod; lia).
  pose proof (Z.mod_pos_bound x y ltac:(lia)) as Hcb.
  rewrite Hrem. destruct (Z.eqb_spec (x mod y) 0) as [Hc0 | Hc0].
  { intros [= <-]. cbn [Backtrack.result]. simpl. intuition discriminate. }
  destruct (backtrack_first_step fuel (x mod y) y ltac:(lia) ltac:(lia) ltac:(lia))
    as (-> & Hr1 & Hr1range).
  unfold Num.floorDiv.
  set (cx := x mod y) in *. set (k1 := y / cx + 1) in *.
  change (get [k1] 0) with (Some k1). cbn [bind].
  rewrite Hr1. set (r1 := cx - y mod cx) in *.
  change (get [r1] 0) with (Some r1). cbn [bind].
  destruct (Z.eqb_spec r1 0); [lia |].
  pose proof (Z.div_mod y cx ltac:(lia)) as Hdm.
  pose proof (Z.mod_pos_bound y cx ltac:(lia)) as Hmb.
  assert (Hq : 1 <= y / cx) by (apply Z.div_le_lower_bound; lia).
  set (bst0 := {| Backtrack.k := [k1]; Backtrack.r := [r1]; Backtrack.n := 1;
                  Backtrack.backtrackCount := 0;
                  Backtrack.log := [Calculating x y] ++ [Step 1 y cx k1 r1] |}).
  assert (Hinv0 : backtrackTrace x y bst0).
  { split; [| split].
    - unfold neverBacktracked. cbn [bst0 Backtrack.backtrackCount Backtrack.log Backtrack.r].
      split; [reflexivity |]. split; repeat constructor; simpl; try tauto; lia.
    - cbn [bst0 Backtrack.k Backtrack.r exactTrace]. fold cx.
      split; [unfold k1; lia |]. split; [| exact I].
      unfold r1, k1. apply (Z.mod_unique_pos _ _ 1); nia.
    - repeat constructor. }
  destruct (Backtrack.loop fuel fuel x y bst0) as [bst' |] eqn:Hloop; cbn [bind];
    [| discriminate].
  destruct (loop_trace y Hlo Hhi fuel fuel x bst0 bst' Hinv0 eq_refl
              ltac:(discriminate) Hloop) as ((_ & _ & Hlog) & Hne).
  unfold Backtrack.finish.
  destruct (get (Backtrack.r bst') (len (Backtrack.r bst') - 1)) as [last |] eqn:Hlast.
  2:{ destruct (Backtrack.extendedGcd fuel x y) as [eg |]; cbn [bind];
        [| discriminate].
      cbv zeta. intros [= <-]. cbn [Backtrack.result]. intros Hin Hl.
      apply in_final_values in Hin; try assumption.
      2:{ constructor; [exact I |]. destruct (_ =? 1); repeat constructor. }
      destruct Hin as (_ & -> & _). unfold lastIs in Hl. congruence. }
  destruct (Z.eq_dec last 1) as [-> | Hne1].
  2:{ assert (Hcase : forall res',
                (report <- (eg <- Backtrack.extendedGcd fuel x y ;;
                            let note :=
                              if Backtrack.gcdOf eg =? 1
                              then [CorrectInverse
                                      (if Num.rem (Backtrack.coefX eg) y <? 0
                                       then Num.rem (Backtrack.coefX eg) y + y
                                       else Num.rem (Backtrack.coefX eg) y)]
                              else [] in
                            Some (0, Backtrack.log bst' ++ [FailedToFind (Some last)] ++ note)) ;;
                 let '(z, result) := report in
                 Some {| Backtrack.result :=
                           result ++ [FinalValues x y (Backtrack.k bst') (Backtrack.r bst') z;
                                      Validation z x y (Num.rem (Num.mul z x) y =? 1)];
                         Backtrack.z := z |}) = Some res' ->
                In (FinalValues x y k r z) (Backtrack.result res') ->
                lastIs r 1 -> False).
      { intros res'.
        destruct (Backtrack.extendedGcd fuel x y) as [eg |]; cbn [bind];
          [| discriminate].
        cbv zeta. intros [= <-]. cbn [Backtrack.result]. intros Hin Hl.
        apply in_final_values in Hin; try assumption.
        2:{ constructor; [exact I |]. destruct (_ =? 1); repeat constructor. }
        destruct Hin as (_ & -> & _). unfold lastIs in Hl. congruence. }
      destruct last as [| [| |] |]; try contradiction;
        intros Hrun Hin Hl; destruct (Hcase _ Hrun Hin Hl). }
  cbn [bind]. intros [= <-]. cbn [Backtrack.result Backtrack.z]. intros Hin Hl Hcap.
  pose proof Hin as Hfinal.
  apply in_final_values in Hin; try assumption; [| repeat constructor].
  destruct Hin as (_ & -> & _).
  destruct (fixed_follows_backtrack y Hlo Hhi fuel fuel x Hfuel bst0 bst'
              {| Fixed.k := [k1]; Fixed.r := [r1]; Fixed.n := 1;
                 Fixed.log := [Calculating x y] ++ [Step 1 y cx k1 r1] |}
              Hinv0 eq_refl ltac:(discriminate) Hloop Hlast Hcap)
    as (fst' & -> & Hk & Hr & Hn & Hlg).
  { unfold sameState. simpl. auto. }
  cbn [bind]. rewrite <- Hk, <- Hr, <- Hlg, Hlast.
  eexists. split; [reflexivity |]. cbn [Fixed.result Fixed.z].
  split; [exists z; exact Hfinal |]. intros _. split; reflexivity.
Qed.

Lemma fixed_agrees_with_backtrack_witness :
  exists fres : Fixed.outcome,
    Fixed.inverseModFull 40 31 37 = Some fres
    /\ (exists z' : Z,
           In (FinalValues 31 37 [2; 2; 3; 19] [25; 13; 2; 1] z')
              (Fixed.result fres))
    /\ (product [2; 2; 3; 19] <= 2 ^ 53 ->
        Fixed.result fres
        = Backtrack.result
            {| Backtrack.result :=
                 [Calculating 31 37; Step 1 37 31 2 25; Step 2 37 25 2 13;
                  Step 3 37 13 3 2; Step 4 37 2 19 1; Product 6;
                  FinalValues 31 37 [2; 2; 3; 19] [25; 13; 2; 1] 6;
                  Validation 6 31 37 true];
               Backtrack.z := 6 |}
        /\ Fixed.z fres
           = Backtrack.z
               {| Backtrack.result :=
                    [Calculating 31 37; Step 1 37 31 2 25; Step 2 37 25 2 13;
                     Step 3 37 13 3 2; Step 4 37 2 19 1; Product 6;
                     FinalValues 31 37 [2; 2; 3; 19] [25; 13; 2; 1] 6;
                     Validation 6 31 37 true];
                  Backtrack.z := 6 |}).
Proof.
  apply (fixed_agrees_with_backtrack 40 31 37 _ [2; 2; 3; 19] [25; 13; 2; 1] 6).
  - lia.
  - lia.
  - lia.
  - apply Nat.ltb_lt. reflexivity.
  - vm_compute. reflexivity.
  - simpl. tauto.
  - reflexivity.
  - vm_compute. discriminate.
Defined.

(** ** The humanized search on the path of the fixed variant *)

Section CeilDescent.

Variable y : Z.
Hypothesis y_lo : 1 < y.
Hypothesis y_hi : y <= 2 ^ 52.

(** A run of the fixed loop that ends at remainder 1 is a descent by
    ceilings. *)
Lemma fixed_loop_ceilDescent (fuel : nat) :
  forall fst fst' : Fixed.state,
    fixedInv y fst ->
    Fixed.loop fuel y fst = Some fst' ->
    lastIs (Fixed.r fst') 1 ->
    exists ks rs,
      Fixed.k fst' = Fixed.k fst ++ ks
      /\ Fixed.r fst' = Fixed.r fst ++ rs
      /\ forall prev, lastIs (Fixed.r fst) prev -> ceilDescent y prev ks rs.
Proof.
  induction fuel as [| fuel IH]; intros fst fst' Hinv Hrun Hlast; [discriminate |].
  pose proof Hinv as (Hlen & Hn & Hrange & Hlog).
  assert (Hstop : fst' = fst -> forall prevR,
            get (Fixed.r fst) (Fixed.n fst - 1) = Some prevR -> prevR = 1 ->
            exists ks rs,
              Fixed.k fst' = Fixed.k fst ++ ks
              /\ Fixed.r fst' = Fixed.r fst ++ rs
              /\ forall prev, lastIs (Fixed.r fst) prev -> ceilDescent y prev ks rs).
  { intros -> prevR Hprev ->. exists [], []. rewrite !app_nil_r.
    split; [reflexivity |]. split; [reflexivity |].
    intros prev Hp. unfold lastIs in Hp. rewrite <- Hn, Hprev in Hp.
    injection Hp as <-. reflexivity. }
  pose proof Hrun as Hrun0.
  simpl in Hrun.
  destruct (get (Fixed.r fst) (Fixed.n fst - 1)) as [prevR |] eqn:Hprev.
  2:{ injection Hrun as <-. exfalso. unfold lastIs in Hlast.
      rewrite <- Hn, Hprev in Hlast. discriminate. }
  assert (Hpy : 0 <= prevR < y).
  { unfold inRange in Hrange. rewrite Forall_forall in Hrange.
    apply Hrange. eapply get_in. exact Hprev. }
  assert (Hlastst : fst' = fst -> prevR = 1).
  { intros ->. unfold lastIs in Hlast. rewrite <- Hn, Hprev in Hlast.
    congruence. }
  destruct (Z.ltb_spec 1 prevR) as [Hp | Hp]; simpl in Hrun.
  2:{ injection Hrun as <-. eapply Hstop; eauto. }
  destruct (Z.ltb_spec (Fixed.n fst) Fixed.maxIterations) as [Hcap | Hcap];
    simpl in Hrun.
  2:{ injection Hrun as <-. specialize (Hlastst eq_refl). lia. }
  clear Hstop Hlastst Hrun.
  destruct (Z.eq_dec (y mod prevR) 0) as [H0 | Hnd].
  { exfalso. revert Hrun0. cbn [Fixed.loop]. rewrite Hprev.
    destruct (Z.ltb_spec 1 prevR); [| lia].
    destruct (Z.ltb_spec (Fixed.n fst) Fixed.maxIterations); [| lia].
    cbn [andb]. rewrite (fixed_multiplier_is_ceilRule y ltac:(lia)) by assumption.
    assert (Hk : get (Fixed.k fst ++ [ceilRule y prevR]) (Fixed.n fst)
                 = Some (ceilRule y prevR)).
    { rewrite Hn. replace (len (Fixed.r fst)) with (len (Fixed.k fst))
        by (unfold len; congruence).
      apply get_pushed. }
    rewrite Hk. cbn [bind]. rewrite (ceilRule_step y y_lo y_hi) by lia.
    rewrite H0. simpl (0 =? 0). cbn iota. intros [= <-].
    unfold lastIs in Hlast. cbn [Fixed.r] in Hlast.
    rewrite get_last_pushed in Hlast. discriminate. }
  destruct (fixed_step_plain y y_lo y_hi fuel prevR fst ltac:(lia) Hnd Hinv Hprev Hcap)
    as [Hstep Hinv1].
  rewrite Hstep in Hrun0.
  destruct (IH _ _ Hinv1 Hrun0 Hlast) as (ks & rs & Hks & Hrs & Hdesc).
  cbn [Fixed.k Fixed.r] in Hks, Hrs, Hdesc.
  exists ((y / prevR + 1) :: ks), ((prevR - y mod prevR) :: rs).
  rewrite Hks, Hrs, <- !app_assoc.
  split; [reflexivity |]. split; [reflexivity |].
  intros prev Hl. unfold lastIs in Hl. rewrite <- Hn, Hprev in Hl.
  injection Hl as <-. simpl.
  repeat split; try assumption.
  apply Hdesc. unfold lastIs. apply get_last_pushed.
Qed.

(** The depth-first search, with offset 0 tried first, walks down a descent
    by ceilings without leaving it. *)
Lemma dfs_follows_descent (s : Humanized.settings) (offsets : list Z) (ks : list Z) :
  Humanized.multiplierOffsets s = 0 :: offsets ->
  Humanized.progressRequired s = true ->
  forall (fuel : nat) (cur depth : Z) (rs chosen hist : list Z) (e : Z),
    ceilDescent y cur ks rs ->
    0 < cur < y ->
    depth + len ks <= Humanized.maxDepth s ->
    e + len ks + 1 <= Humanized.maxNodes s ->
    (length ks < fuel)%nat ->
    Humanized.dfs fuel s y cur depth chosen hist e
    = Some (Some {| Humanized.pathMultipliers := chosen ++ ks;
                    Humanized.pathRemainders := hist ++ rs |},
            e + len ks + 1).
Proof.
  intros Hoff Hprog.
  induction ks as [| ki ks IH];
    intros fuel cur depth [| ri rs] chosen hist e Hdesc Hcur Hdepth Hnodes Hfuel;
    simpl in Hdesc; try contradiction.
  - subst cur. destruct fuel as [| fuel]; [simpl in Hfuel; lia |].
    cbn [Humanized.dfs]. unfold len in *. simpl length in *.
    destruct (Z.leb_spec (Humanized.maxNodes s) e); [lia |].
    simpl (1 =? 1). cbn iota. rewrite !app_nil_r. do 3 f_equal. lia.
  - destruct Hdesc as (Hgt & Hnd & Hki & Hri & Hdesc).
    destruct fuel as [| fuel]; [simpl in Hfuel; lia |].
    pose proof (Z.div_mod y cur ltac:(lia)) as Hdm.
    pose proof (Z.mod_pos_bound y cur ltac:(lia)) as Hmb.
    assert (Hq : 1 <= y / cur) by (apply Z.div_le_lower_bound; lia).
    assert (Hceil : Humanized.ceilDiv y cur = ki).
    { rewrite ceilDiv_rule by lia. unfold ceilRule.
      destruct (Z.eqb_spec (y mod cur) 0); [contradiction | congruence]. }
    assert (Hnext : Num.rem (Num.mul cur ki) y = ri).
    { rewrite Hki, Hri. rewrite mul_exact by nia. rewrite rem_mod by nia.
      symmetry. apply (Z.mod_unique_pos _ _ 1); nia. }
    unfold len in *. simpl length in *.
    cbn [Humanized.dfs].
    destruct (Z.leb_spec (Humanized.maxNodes s) e); [lia |].
    destruct (Z.eqb_spec cur 1); [lia |].
    destruct (Z.leb_spec (Humanized.maxDepth s) depth); [lia |].
    rewrite Hceil, Hoff. cbn [Humanized.tryOffsets].
    replace (ki + 0) with ki by lia.
    destruct (Z.leb_spec ki 0); [lia |].
    rewrite Hnext.
    destruct (Z.eqb_spec ri 0); [lia |].
    rewrite Hprog. destruct (Z.leb_spec cur ri); [lia |]. cbn [andb].
    rewrite (IH fuel ri (depth + 1) rs (chosen ++ [ki]) (hist ++ [ri]) (e + 1));
      try assumption; try lia.
    cbn [bind]. rewrite <- !app_assoc. simpl. do 3 f_equal. lia.
Qed.

End CeilDescent.

(** The path of the fixed variant is the one that the search takes when 0
    is the first offset and the bounds leave room for it. *)
Lemma fixed_path_is_searched (fuel fuel' : nat) (x y : Z) (res : Fixed.outcome)
    (k r : list Z) (z : Z) (o : Humanized.options) (offsets : list Z) :
  0 < x -> 1 < y -> y <= 2 ^ 52 ->
  Fixed.inverseModFull fuel x y = Some res ->
  In (FinalValues x y k r z) (Fixed.result res) ->
  lastIs r 1 ->
  1 < x mod y ->
  Humanized.multiplierOffsets (Humanized.settingsOf o) = 0 :: offsets ->
  len k <= Humanized.maxDepth (Humanized.settingsOf o) ->
  len k + 1 <= Humanized.maxNodes (Humanized.settingsOf o) ->
  (length k < fuel')%nat ->
  Humanized.findInverseWithBacktracking fuel' x y o
  = Some {| Humanized.found := true;
            Humanized.inverse :=
              fold_left (fun inverse multiplier =>
                           Num.rem (Num.mul inverse multiplier) y) k 1;
            Humanized.multipliers := k;
            Humanized.remainders := x mod y :: r;
            Humanized.exploredNodes := len k + 1 |}.
Proof.
  intros Hx Hlo Hhi Hrun Hin Hlast Hcx Hoff Hdepth Hnodes Hfuel.
  revert Hrun Hin. unfold Fixed.inverseModFull.
  destruct (Fixed.checkSpecialCases fuel x y) as [sp |] eqn:Hsp; cbn [bind];
    [| discriminate].
  pose proof (checkSpecialCases_message _ _ _ _ Hsp) as Hmsg.
  destruct (Fixed.isSpecialCase sp).
  { intros [= <-]. cbn [Fixed.result]. intros [H | H]; [discriminate |].
    rewrite Forall_forall in Hmsg. destruct (Hmsg _ H). }
  assert (Hrem : Num.rem x y = x mod y) by (apply rem_mod; lia).
  pose proof (Z.mod_pos_bound x y ltac:(lia)) as Hcb.
  rewrite Hrem. destruct (Z.eqb_spec (x mod y) 0) as [Hc0 | Hc0]; [lia |].
  unfold Num.floorDiv.
  set (cx := x mod y) in *. set (k1 := y / cx + 1) in *.
  pose proof (Z.div_mod y cx ltac:(lia)) as Hdm.
  pose proof (Z.mod_pos_bound y cx ltac:(lia)) as Hmb.
  assert (Hq : 1 <= y / cx) by (apply Z.div_le_lower_bound; lia).
  change (get [k1] 0) with (Some k1). cbn [bind].
  assert (Hr1 : Num.rem (Num.mul cx k1) y = cx - y mod cx).
  { unfold k1. rewrite mul_exact by nia. rewrite rem_mod by nia.
    symmetry. apply (Z.mod_unique_pos _ _ 1); nia. }
  rewrite Hr1. set (r1 := cx - y mod cx) in *.
  change (get [r1] 0) with (Some r1). cbn [bind].
  destruct (Fixed.loop fuel y _) as [fst' |] eqn:Hloop; cbn [bind]; [| discriminate].
  assert (Hinv0 : fixedInv y
                    {| Fixed.k := [k1]; Fixed.r := [r1]; Fixed.n := 1;
                       Fixed.log := [Calculating x y] ++ [Step 1 y cx k1 r1] |}).
  { unfold fixedInv. simpl. repeat split; repeat constructor; lia. }
  destruct (fixed_loop_spec y ltac:(lia) _ _ _ Hinv0 Hloop) as (_ & _ & Hlog & _).
  intros [= <-]. cbn [Fixed.result]. intros Hin.
  assert (Heq : k = Fixed.k fst' /\ r = Fixed.r fst').
  { destruct (get (Fixed.r fst') (len (Fixed.r fst') - 1)) as [[| [| |] |] |];
      apply in_final_values in Hin; try assumption; try (repeat constructor);
      destruct Hin as (-> & -> & _); auto. }
  destruct Heq as [-> ->].
  destruct (fixed_loop_ceilDescent y Hlo Hhi fuel _ fst' Hinv0 Hloop Hlast)
    as (ks & rs & Hks & Hrs & Hdesc).
  cbn [Fixed.k Fixed.r] in Hks, Hrs.
  assert (Hl1 : lastIs [r1] r1) by reflexivity.
  specialize (Hdesc r1 Hl1).
  assert (Hnd : y mod cx <> 0).
  { intros H0. assert (r1 = cx) by (unfold r1; lia).
    destruct ks as [| k2 ks]; destruct rs as [| r2 rs]; simpl in Hdesc;
      try contradiction; [lia |].
    destruct Hdesc as (_ & Hnd2 & _). congruence. }
  unfold Humanized.findInverseWithBacktracking.
  rewrite normalizedBase_mod by lia. fold cx.
  destruct (Z.eqb_spec cx 0); [lia |]. destruct (Z.eqb_spec cx 1); [lia |].
  rewrite Hks in Hdepth, Hnodes, Hfuel. cbn [app] in Hdepth, Hnodes, Hfuel.
  rewrite (dfs_follows_descent y Hlo Hhi (Humanized.settingsOf o)
             offsets (k1 :: ks) Hoff (settingsOf_progress o)
             fuel' cx 0 (r1 :: rs) [] [cx] 0).
  - cbn [bind]. rewrite Hks, Hrs.
    cbn [app Humanized.pathMultipliers Humanized.pathRemainders].
    f_equal.
  - simpl. repeat split; try assumption; try lia.
  - lia.
  - lia.
  - lia.
  - exact Hfuel.
Qed.

(** X27.  Whenever the fixed variant ends at remainder 1 with at most 64
    multipliers, from a seed above 1, the humanized search with its default
    options returns the same multipliers and, after the seed, the same
    remainders, and explores one node per remainder: it never backtracks on
    such an input. *)
Theorem humanized_follows_fixed (fuel fuel' : nat) (x y : Z) (res : Fixed.outcome)
    (k r : list Z) (z : Z) :
  0 < x -> 1 < y -> y <= 2 ^ 52 ->
  Fixed.inverseModFull fuel x y = Some res ->
  In (FinalValues x y k r z) (Fixed.result res) ->
  lastIs r 1 ->
  1 < x mod y ->
  len k <= 64 ->
  (64 < fuel')%nat ->
  Humanized.findInverseWithBacktracking fuel' x y Humanized.noOptions
  = Some {| Humanized.found := true;
            Humanized.inverse :=
              fold_left (fun inverse multiplier =>
                           Num.rem (Num.mul inverse multiplier) y) k 1;
            Humanized.multipliers := k;
            Humanized.remainders := x mod y :: r;
            Humanized.exploredNodes := len k + 1 |}.
Proof.
  intros Hx Hlo Hhi Hrun Hin Hlast Hcx Hlen Hfuel.
  apply (fixed_path_is_searched fuel fuel' x y res k r z Humanized.noOptions
           [1; 2; 3]); try assumption; try reflexivity.
  - change (Humanized.maxNodes (Humanized.settingsOf Humanized.noOptions)) with 2000.
    lia.
  - unfold len in Hlen. lia.
Qed.

Lemma humanized_follows_fixed_witness :
  Humanized.findInverseWithBacktracking 65 31 37 Humanized.noOptions
  = Some {| Humanized.found := true;
            Humanized.inverse :=
              fold_left (fun inverse multiplier =>
                           Num.rem (Num.mul inverse multiplier) 37)
                        [2; 2; 3; 19] 1;
            Humanized.multipliers := [2; 2; 3; 19];
            Humanized.remainders := 31 mod 37 :: [25; 13; 2; 1];
            Humanized.exploredNodes := len [2; 2; 3; 19] + 1 |}.
Proof.
  apply (humanized_follows_fixed 40 65 31 37
           {| Fixed.result :=
                [Calculating 31 37; Step 1 37 31 2 25; Step 2 37 25 2 13;
                 Step 3 37 13 3 2; Step 4 37 2 19 1; Product 6;
                 FinalValues 31 37 [2; 2; 3; 19] [25; 13; 2; 1] 6;
                 Validation 6 31 37 true];
              Fixed.z := 6 |} _ _ 6).
  - lia.
  - lia.
  - lia.
  - vm_compute. reflexivity.
  - simpl. tauto.
  - reflexivity.
  - reflexivity.
  - vm_compute. discriminate.
  - lia.
Defined.

Lemma ceilDescent_multipliers (y : Z) (ks : list Z) :
  1 < y ->
  forall cur rs,
    ceilDescent y cur ks rs -> 0 < cur < y ->
    Forall (fun m => 1 <= m /\ m <= y) ks.
Proof.
  intros Hy. induction ks as [| ki ks IH]; intros cur [| ri rs] Hdesc Hcur;
    simpl in Hdesc; try contradiction; [constructor |].
  destruct Hdesc as (Hgt & Hnd & Hki & Hri & Hdesc).
  pose proof (Z.div_mod y cur ltac:(lia)) as Hdm.
  pose proof (Z.mod_pos_bound y cur ltac:(lia)) as Hmb.
  assert (Hq : 1 <= y / cur) by (apply Z.div_le_lower_bound; lia).
  constructor; [nia |]. apply (IH ri rs Hdesc). lia.
Qed.

(** X28.  Up to a modulus of 2^26, whenever the fixed variant ends at
    remainder 1 with at most 64 multipliers whose product is at most 2^53,
    [modularInverse] with its default options returns the answer of the
    fixed variant, and that answer is a valid inverse. *)
Theorem humanized_answer_is_fixed_answer (fuel fuel' : nat) (x y : Z)
    (res : Fixed.outcome) (k r : list Z) (z : Z) :
  0 < x -> 1 < y -> y <= 2 ^ 26 ->
  (Z.to_nat y < fuel)%nat ->
  Fixed.inverseModFull fuel x y = Some res ->
  In (FinalValues x y k r z) (Fixed.result res) ->
  lastIs r 1 ->
  len k <= 64 ->
  product k <= 2 ^ 53 ->
  (Z.to_nat (Z.max y 64) < fuel')%nat ->
  Humanized.modularInverse fuel' x y Humanized.noOptions = Some (Some (Fixed.z res))
  /\ (Fixed.z res * x) mod y = 1.
Proof.
  intros Hx Hlo Hhi Hfuel Hrun Hin Hlast Hlen Hexact Hfuel'.
  assert (Hhi52 : y <= 2 ^ 52) by lia.
  assert (Hg : Z.gcd x y = 1).
  { destruct (Z.eq_dec (Z.gcd x y) 1) as [Hg | Hg]; [assumption |].
    exfalso. revert Hrun Hin. unfold Fixed.inverseModFull.
    rewrite checkSpecialCases_not_coprime by (try assumption; lia).
    cbn [bind Fixed.isSpecialCase]. intros [= <-]. simpl. intuition discriminate. }
  pose proof (Z.mod_pos_bound x y ltac:(lia)) as Hcb.
  assert (Hoff : smallOffsets (Humanized.settingsOf Humanized.noOptions))
    by (repeat constructor; vm_compute; discriminate).
  assert (Hsearch : forall inv,
             Humanized.findInverseWithBacktracking fuel' x y Humanized.noOptions
             = Some inv -> Humanized.found inv = true ->
             Humanized.modularInverse fuel' x y Humanized.noOptions
             = Some (Some (Humanized.inverse inv))
             /\ (Humanized.inverse inv * x) mod y = 1).
  { intros inv Hfind Hfound. split.
    - unfold Humanized.modularInverse, Humanized.computeModularInverse.
      destruct (Z.leb_spec y 0); [lia |].
      rewrite computeGreatestCommonDivisor_returns by lia. rewrite Hg.
      cbn [bind]. simpl (negb (1 =? 1)). cbn iota.
      rewrite Hfind. cbn [bind]. rewrite Hfound. reflexivity.
    - eapply (found_inverse_valid _ y Hlo Hhi Hoff); [reflexivity | exact Hfind | exact Hfound]. }
  assert (Hrem : Num.rem x y = x mod y) by (apply rem_mod; lia).
  destruct (Z.eq_dec (x mod y) 1) as [Hc1 | Hc1].
  - (* the seed is 1: both answer 1 *)
    assert (Hz : Fixed.z res = 1).
    { revert Hrun. unfold Fixed.inverseModFull.
      rewrite checkSpecialCases_coprime by (try assumption; lia).
      cbn [bind Fixed.isSpecialCase]. rewrite Hrem, Hc1.
      simpl (1 =? 0). cbn iota. unfold Num.floorDiv. rewrite Z.div_1_r.
      change (get [y + 1] 0) with (Some (y + 1)). cbn [bind].
      assert (Hr1 : Num.rem (Num.mul 1 (y + 1)) y = 1).
      { rewrite mul_exact by lia. rewrite rem_mod by lia.
        symmetry. apply (Z.mod_unique_pos _ _ 1); lia. }
      rewrite Hr1. change (get [1] 0) with (Some 1). cbn [bind].
      destruct fuel as [| fuel]; [lia |].
      rewrite fixed_loop_at_one by reflexivity. cbn [bind Fixed.r Fixed.k].
      change (get [1] (len [1] - 1)) with (Some 1). cbn iota.
      intros [= <-]. cbn [Fixed.z]. unfold Fixed.productMod. cbn [fold_left].
      exact Hr1. }
    rewrite Hz.
    apply (Hsearch {| Humanized.found := true; Humanized.inverse := 1;
                      Humanized.multipliers := [1]; Humanized.remainders := [1];
                      Humanized.exploredNodes := 1 |}); [| reflexivity].
    unfold Humanized.findInverseWithBacktracking.
    rewrite normalizedBase_mod by lia. rewrite Hc1. reflexivity.
  - assert (Hcx : 1 < x mod y).
    { destruct (Z.eq_dec (x mod y) 0) as [H0 | H0]; [| lia].
      exfalso. apply Z.mod_divide in H0; [| lia].
      assert (Hdiv : (y | Z.gcd x y))
        by (apply Z.gcd_greatest; [assumption | apply Z.divide_refl]).
      rewrite Hg in Hdiv. apply Z.divide_1_r_nonneg in Hdiv; lia. }
    assert (Hfind : Humanized.findInverseWithBacktracking fuel' x y Humanized.noOptions
                    = Some {| Humanized.found := true;
                              Humanized.inverse :=
                                fold_left (fun inverse multiplier =>
                                             Num.rem (Num.mul inverse multiplier) y) k 1;
                              Humanized.multipliers := k;
                              Humanized.remainders := x mod y :: r;
                              Humanized.exploredNodes := len k + 1 |}).
    { apply (fixed_path_is_searched fuel fuel' x y res k r z Humanized.noOptions
               [1; 2; 3]); try assumption; try reflexivity.
      - change (Humanized.maxNodes (Humanized.settingsOf Humanized.noOptions)) with 2000.
        lia.
      - unfold len in Hlen. lia. }
    destruct (Hsearch _ Hfind eq_refl) as [Hmod Hvalid].
    cbn [Humanized.inverse] in Hmod, Hvalid.
    (* the running inverse and the fixed product are the same residue *)
    assert (Hsame : fold_left (fun inverse multiplier =>
                                 Num.rem (Num.mul inverse multiplier) y) k 1
                    = Fixed.z res).
    { revert Hrun Hin. unfold Fixed.inverseModFull.
      rewrite checkSpecialCases_coprime by (try assumption; lia).
      cbn [bind Fixed.isSpecialCase]. rewrite Hrem.
      destruct (Z.eqb_spec (x mod y) 0); [lia |].
      unfold Num.floorDiv.
      set (cx := x mod y) in *. set (k1 := y / cx + 1) in *.
      pose proof (Z.div_mod y cx ltac:(lia)) as Hdm.
      pose proof (Z.mod_pos_bound y cx ltac:(lia)) as Hmb.
      assert (Hq : 1 <= y / cx) by (apply Z.div_le_lower_bound; lia).
      change (get [k1] 0) with (Some k1). cbn [bind].
      assert (Hr1 : Num.rem (Num.mul cx k1) y = cx - y mod cx).
      { unfold k1. rewrite mul_exact by nia. rewrite rem_mod by nia.
        symmetry. apply (Z.mod_unique_pos _ _ 1); nia. }
      rewrite Hr1. set (r1 := cx - y mod cx) in *.
      change (get [r1] 0) with (Some r1). cbn [bind].
      destruct (Fixed.loop fuel y _) as [fst' |] eqn:Hloop; cbn [bind];
        [| discriminate].
      assert (Hinv0 : fixedInv y
                        {| Fixed.k := [k1]; Fixed.r := [r1]; Fixed.n := 1;
                           Fixed.log := [Calculating x y] ++ [Step 1 y cx k1 r1] |}).
      { unfold fixedInv. simpl. repeat split; repeat constructor; lia. }
      destruct (fixed_loop_spec y ltac:(lia) _ _ _ Hinv0 Hloop) as (_ & _ & Hlog & _).
      intros [= <-]. cbn [Fixed.result Fixed.z]. intros Hin.
      assert (Heq : k = Fixed.k fst' /\ r = Fixed.r fst').
      { destruct (get (Fixed.r fst') (len (Fixed.r fst') - 1)) as [[| [| |] |] |];
          apply in_final_values in Hin; try assumption; try (repeat constructor);
          destruct Hin as (-> & -> & _); auto. }
      destruct Heq as [-> ->]. unfold lastIs in Hlast. rewrite Hlast.
      destruct (fixed_loop_ceilDescent y Hlo Hhi52 fuel _ fst' Hinv0 Hloop Hlast)
        as (ks & rs & Hks & Hrs & Hdesc).
      cbn [Fixed.k Fixed.r] in Hks, Hrs.
      assert (Hl1 : lastIs [r1] r1) by reflexivity.
      specialize (Hdesc r1 Hl1).
      assert (Hall : Forall (fun m => 1 <= m /\ m <= y) (Fixed.k fst')).
      { rewrite Hks. cbn [app]. constructor; [unfold k1; nia |].
        apply (ceilDescent_multipliers y ks Hlo r1 rs Hdesc). unfold r1. lia. }
      assert (Hall1 : Forall (fun m => 0 < m <= 2 ^ 27) (Fixed.k fst'))
        by (eapply Forall_impl; [| exact Hall]; simpl; intros a Ha; lia).
      assert (Hall2 : Forall (fun ki => 1 <= ki) (Fixed.k fst'))
        by (eapply Forall_impl; [| exact Hall]; simpl; intros a Ha; lia).
      pose proof (product_pos _ Hall2) as Hpos.
      unfold Fixed.productMod.
      rewrite (running_inverse y Hlo Hhi _ Hall1) by lia.
      rewrite (running_product _ Hall2) by lia.
      rewrite Z.mul_1_l. symmetry. apply rem_mod; lia. }
    rewrite <- Hsame. split; assumption.
Qed.

Lemma humanized_answer_is_fixed_answer_witness :
  Humanized.modularInverse 65 31 37 Humanized.noOptions
  = Some (Some (Fixed.z
                  {| Fixed.result :=
                       [Calculating 31 37; Step 1 37 31 2 25; Step 2 37 25 2 13;
                        Step 3 37 13 3 2; Step 4 37 2 19 1; Product 6;
                        FinalValues 31 37 [2; 2; 3; 19] [25; 13; 2; 1] 6;
                        Validation 6 31 37 true];
                     Fixed.z := 6 |}))
  /\ (Fixed.z
        {| Fixed.result :=
             [Calculating 31 37; Step 1 37 31 2 25; Step 2 37 25 2 13;
              Step 3 37 13 3 2; Step 4 37 2 19 1; Product 6;
              FinalValues 31 37 [2; 2; 3; 19] [25; 13; 2; 1] 6;
              Validation 6 31 37 true];
           Fixed.z := 6 |} * 31) mod 37 = 1.
Proof.
  apply (humanized_answer_is_fixed_answer 40 65 31 37 _ [2; 2; 3; 19] [25; 13; 2; 1] 6).
  - lia.
  - lia.
  - vm_compute. discriminate.
  - apply Nat.ltb_lt. reflexivity.
  - vm_compute. reflexivity.
  - simpl. tauto.
  - reflexivity.
  - vm_compute. discriminate.
  - vm_compute. discriminate.
  - apply Nat.ltb_lt. reflexivity.
Defined.
